(** * SumSum: content generation and board state machine

    A shallow embedding of [js/utils.js] (helpers, level table, constants),
    [js/generator.js] (class [GameGenerator]) and [js/game.js] (class
    [SumSumGame]), with the tail of the tap handler of [js/ui.js] and the
    records kept by [js/storage.js].

    Conventions of the embedding.
    - JS numbers that hold integers (cube values, sums, targets, score,
      level, rows) are [Z]; array indices are [nat]; numbers that hold
      fractions (random draws, timestamps, multipliers, animation progress)
      are exact rationals [Q]. Every fraction the modelled code computes on
      the paths studied here is a small dyadic rational or is only compared
      with a threshold, so the rounding of IEEE doubles is not modelled.
    - [Math.random()] reads the next element of a stream of rationals of
      [[0,1)] carried by the world; [performance.now()] is an argument of the
      entry points that read the clock.
    - A method is a function in the monad [M]: it threads the world (game
      fields, generator fields, random stream position, outward events) and
      may raise the [TypeError] that JS raises on a property access on
      [undefined] or [null].
    - Sound, vibration, DOM, canvas and storage calls do not write any field
      of the game or of the generator; they are left out, except that
      [gameOver] records one outward event. *)

From Stdlib Require Import ZArith QArith Qround Lia Bool.
From Stdlib Require String.
From stdpp Require Import base list sorting.
Import String.StringSyntax.
Delimit Scope string_scope with string.

Local Open Scope Z_scope.

(** ** Results and the method monad *)

Inductive Result (A : Type) : Type :=
| Ok (a : A)
| TypeError.
Arguments Ok {A} a.
Arguments TypeError {A}.

(** ** The random source *)

(** A draw of [Math.random()]: the rational [rnum / (rnum + rgap)], which
    ranges over all rationals of [[0,1)] and over nothing else. *)
Record rand01 : Type := mkRand { rnum : N; rgap : positive }.

Definition rand_den (r : rand01) : positive :=
  match rnum r with
  | N0 => rgap r
  | Npos p => (p + rgap r)%positive
  end.

Definition rand_val (r : rand01) : Q := Z.of_N (rnum r) # rand_den r.

Definition Qltb (a b : Q) : bool := negb (Qle_bool b a).

(** [Math.floor(x * n)] for an integer [n]. *)
Definition floor_mul (x : Q) (n : Z) : Z := Qfloor (x * inject_Z n).

(** ** Cubes, level table, constants: utils.js *)

Record Cube : Type := mkCube {
  value : Z;
  column : nat;
  row : Z;
  selected : bool;
  falling : bool;
  fallProgress : Q;
  fallFrom : Z;
  fallTo : Z;
  removing : bool;
  removeProgress : Q;
  bounceProgress : Q
}.

(** [createCube(value, column)]; the [id] and [spawnTime] fields, which only
    the renderer reads, are left out. *)
Definition createCube (v : Z) (col : nat) : Cube :=
  {| value := v; column := col; row := -1; selected := false;
     falling := false; fallProgress := 0%Q; fallFrom := -1; fallTo := -1;
     removing := false; removeProgress := 0%Q; bounceProgress := 0%Q |}.

(** Field writes on a cube ([cube.f = v]). *)
Definition set_row (v : Z) (c : Cube) : Cube :=
  mkCube (value c) (column c) v (selected c) (falling c) (fallProgress c)
         (fallFrom c) (fallTo c) (removing c) (removeProgress c)
         (bounceProgress c).
Definition set_selected (v : bool) (c : Cube) : Cube :=
  mkCube (value c) (column c) (row c) v (falling c) (fallProgress c)
         (fallFrom c) (fallTo c) (removing c) (removeProgress c)
         (bounceProgress c).
Definition set_falling (v : bool) (c : Cube) : Cube :=
  mkCube (value c) (column c) (row c) (selected c) v (fallProgress c)
         (fallFrom c) (fallTo c) (removing c) (removeProgress c)
         (bounceProgress c).
Definition set_fallProgress (v : Q) (c : Cube) : Cube :=
  mkCube (value c) (column c) (row c) (selected c) (falling c) v
         (fallFrom c) (fallTo c) (removing c) (removeProgress c)
         (bounceProgress c).
Definition set_fallFrom (v : Z) (c : Cube) : Cube :=
  mkCube (value c) (column c) (row c) (selected c) (falling c)
         (fallProgress c) v (fallTo c) (removing c) (removeProgress c)
         (bounceProgress c).
Definition set_fallTo (v : Z) (c : Cube) : Cube :=
  mkCube (value c) (column c) (row c) (selected c) (falling c)
         (fallProgress c) (fallFrom c) v (removing c) (removeProgress c)
         (bounceProgress c).
Definition set_removing (v : bool) (c : Cube) : Cube :=
  mkCube (value c) (column c) (row c) (selected c) (falling c)
         (fallProgress c) (fallFrom c) (fallTo c) v (removeProgress c)
         (bounceProgress c).
Definition set_removeProgress (v : Q) (c : Cube) : Cube :=
  mkCube (value c) (column c) (row c) (selected c) (falling c)
         (fallProgress c) (fallFrom c) (fallTo c) (removing c) v
         (bounceProgress c).
Definition set_bounceProgress (v : Q) (c : Cube) : Cube :=
  mkCube (value c) (column c) (row c) (selected c) (falling c)
         (fallProgress c) (fallFrom c) (fallTo c) (removing c)
         (removeProgress c) v.

Record LevelConfig : Type := mkLevel {
  maxNumber : Z;
  maxTarget : Z;
  spawnInterval : Z
}.

Definition LEVEL_CONFIG : list (option LevelConfig) :=
  [ None;
    Some (mkLevel 6 15 3000); Some (mkLevel 6 15 2800); Some (mkLevel 6 16 2600);
    Some (mkLevel 9 25 2400); Some (mkLevel 9 25 2200); Some (mkLevel 9 27 2000);
    Some (mkLevel 12 30 1800); Some (mkLevel 12 32 1600);
    Some (mkLevel 12 35 1500); Some (mkLevel 12 35 1400) ].

Definition NUM_COLUMNS : nat := 4.
Definition MAX_COLUMN_HEIGHT : nat := 8.
Definition DANGER_HEIGHT : nat := 6.
Definition MIN_CUBES_FOR_SUM : nat := 2.
Definition MAX_CUBES_FOR_SUM : nat := 5.
Definition MIN_TARGET : Z := 5.
Definition QUEUE_SIZE : nat := 2.
Definition POINTS_PER_LEVEL : Z := 500.
Definition COMBO_TIMEOUT : Q := 5000%Q.

Definition clamp (v lo hi : Z) : Z := Z.max lo (Z.min hi v).

(** [getLevelConfig(level)]: [None] stands for the [null] of slot 0. *)
Definition getLevelConfig (lvl : Z) : option LevelConfig :=
  let idx := clamp lvl 1 (Z.of_nat (length LEVEL_CONFIG) - 1) in
  mjoin (LEVEL_CONFIG !! Z.to_nat idx).

(** ** The world: game.js and generator.js fields *)

Inductive Event : Type :=
| EvGameOver (finalScore finalLevel finalCombo : Z).

Record World : Type := mkWorld {
  columns : list (list Cube);
  queues : list (list Z);
  targets : list Z;
  score : Z;
  level : Z;
  isPlaying : bool;
  isPaused : bool;
  comboCount : Z;
  lastMatchTime : Q;
  targetsCleared : Z;
  shaking : bool;
  pendingSpawnCol : Z;
  plannedCubes : list (list Z);
  rnd_source : nat -> rand01;
  rnd_next : nat;
  events : list Event
}.

Definition M (A : Type) : Type := World -> Result (A * World).

Definition ret {A} (a : A) : M A := fun w => Ok (a, w).

Definition bind {A B} (m : M A) (k : A -> M B) : M B :=
  fun w => match m w with
           | Ok (a, w') => k a w'
           | TypeError => TypeError
           end.

Definition throw {A} : M A := fun _ => TypeError.

Notation "'let*' x ':=' m 'in' k" := (bind m (fun x => k))
  (at level 10, x pattern, m at level 100, k at level 200).
Notation "m ';;' k" := (bind m (fun _ => k))
  (at level 100, k at level 200, right associativity).

Definition get_world : M World := fun w => Ok (w, w).
Definition modify (f : World -> World) : M unit := fun w => Ok (tt, f w).

(** Reading a property of a value that may be [undefined]. *)
Definition defined {A} (o : option A) : M A :=
  match o with
  | Some a => ret a
  | None => throw
  end.

(** A [for] loop over the elements of an array, threading an accumulator. *)
Fixpoint for_each {A B} (l : list A) (acc : B) (body : B -> A -> M B) : M B :=
  match l with
  | [] => ret acc
  | x :: l' => let* acc' := body acc x in for_each l' acc' body
  end.

(** Field updates ([this.f = v]). *)
Definition set_columns (v : list (list Cube)) (w : World) : World :=
  mkWorld v (queues w) (targets w) (score w) (level w) (isPlaying w)
          (isPaused w) (comboCount w) (lastMatchTime w) (targetsCleared w)
          (shaking w) (pendingSpawnCol w) (plannedCubes w) (rnd_source w)
          (rnd_next w) (events w).
Definition set_queues (v : list (list Z)) (w : World) : World :=
  mkWorld (columns w) v (targets w) (score w) (level w) (isPlaying w)
          (isPaused w) (comboCount w) (lastMatchTime w) (targetsCleared w)
          (shaking w) (pendingSpawnCol w) (plannedCubes w) (rnd_source w)
          (rnd_next w) (events w).
Definition set_targets (v : list Z) (w : World) : World :=
  mkWorld (columns w) (queues w) v (score w) (level w) (isPlaying w)
          (isPaused w) (comboCount w) (lastMatchTime w) (targetsCleared w)
          (shaking w) (pendingSpawnCol w) (plannedCubes w) (rnd_source w)
          (rnd_next w) (events w).
Definition set_score (v : Z) (w : World) : World :=
  mkWorld (columns w) (queues w) (targets w) v (level w) (isPlaying w)
          (isPaused w) (comboCount w) (lastMatchTime w) (targetsCleared w)
          (shaking w) (pendingSpawnCol w) (plannedCubes w) (rnd_source w)
          (rnd_next w) (events w).
Definition set_level (v : Z) (w : World) : World :=
  mkWorld (columns w) (queues w) (targets w) (score w) v (isPlaying w)
          (isPaused w) (comboCount w) (lastMatchTime w) (targetsCleared w)
          (shaking w) (pendingSpawnCol w) (plannedCubes w) (rnd_source w)
          (rnd_next w) (events w).
Definition set_isPlaying (v : bool) (w : World) : World :=
  mkWorld (columns w) (queues w) (targets w) (score w) (level w) v
          (isPaused w) (comboCount w) (lastMatchTime w) (targetsCleared w)
          (shaking w) (pendingSpawnCol w) (plannedCubes w) (rnd_source w)
          (rnd_next w) (events w).
Definition set_isPaused (v : bool) (w : World) : World :=
  mkWorld (columns w) (queues w) (targets w) (score w) (level w)
          (isPlaying w) v (comboCount w) (lastMatchTime w) (targetsCleared w)
          (shaking w) (pendingSpawnCol w) (plannedCubes w) (rnd_source w)
          (rnd_next w) (events w).
Definition set_comboCount (v : Z) (w : World) : World :=
  mkWorld (columns w) (queues w) (targets w) (score w) (level w)
          (isPlaying w) (isPaused w) v (lastMatchTime w) (targetsCleared w)
          (shaking w) (pendingSpawnCol w) (plannedCubes w) (rnd_source w)
          (rnd_next w) (events w).
Definition set_lastMatchTime (v : Q) (w : World) : World :=
  mkWorld (columns w) (queues w) (targets w) (score w) (level w)
          (isPlaying w) (isPaused w) (comboCount w) v (targetsCleared w)
          (shaking w) (pendingSpawnCol w) (plannedCubes w) (rnd_source w)
          (rnd_next w) (events w).
Definition set_targetsCleared (v : Z) (w : World) : World :=
  mkWorld (columns w) (queues w) (targets w) (score w) (level w)
          (isPlaying w) (isPaused w) (comboCount w) (lastMatchTime w) v
          (shaking w) (pendingSpawnCol w) (plannedCubes w) (rnd_source w)
          (rnd_next w) (events w).
Definition set_shaking (v : bool) (w : World) : World :=
  mkWorld (columns w) (queues w) (targets w) (score w) (level w)
          (isPlaying w) (isPaused w) (comboCount w) (lastMatchTime w)
          (targetsCleared w) v (pendingSpawnCol w) (plannedCubes w)
          (rnd_source w) (rnd_next w) (events w).
Definition set_pendingSpawnCol (v : Z) (w : World) : World :=
  mkWorld (columns w) (queues w) (targets w) (score w) (level w)
          (isPlaying w) (isPaused w) (comboCount w) (lastMatchTime w)
          (targetsCleared w) (shaking w) v (plannedCubes w) (rnd_source w)
          (rnd_next w) (events w).
Definition set_plannedCubes (v : list (list Z)) (w : World) : World :=
  mkWorld (columns w) (queues w) (targets w) (score w) (level w)
          (isPlaying w) (isPaused w) (comboCount w) (lastMatchTime w)
          (targetsCleared w) (shaking w) (pendingSpawnCol w) v (rnd_source w)
          (rnd_next w) (events w).
Definition set_rnd_next (v : nat) (w : World) : World :=
  mkWorld (columns w) (queues w) (targets w) (score w) (level w)
          (isPlaying w) (isPaused w) (comboCount w) (lastMatchTime w)
          (targetsCleared w) (shaking w) (pendingSpawnCol w) (plannedCubes w)
          (rnd_source w) v (events w).
Definition set_events (v : list Event) (w : World) : World :=
  mkWorld (columns w) (queues w) (targets w) (score w) (level w)
          (isPlaying w) (isPaused w) (comboCount w) (lastMatchTime w)
          (targetsCleared w) (shaking w) (pendingSpawnCol w) (plannedCubes w)
          (rnd_source w) (rnd_next w) v.

Definition Math_random : M Q :=
  fun w => Ok (rand_val (rnd_source w (rnd_next w)),
               set_rnd_next (S (rnd_next w)) w).

Definition randomInt (lo hi : Z) : M Z :=
  let* r := Math_random in
  ret (floor_mul r (hi - lo + 1) + lo).

Definition randomChoice {A} (arr : list A) : M (option A) :=
  let* r := Math_random in
  ret (arr !! Z.to_nat (floor_mul r (Z.of_nat (length arr)))).

(** [[a[i], a[j]] = [a[j], a[i]]]. *)
Definition swap {A} (a : list A) (i j : nat) : list A :=
  match a !! i, a !! j with
  | Some x, Some y => <[j := x]> (<[i := y]> a)
  | _, _ => a
  end.

(** The loop of [shuffle]: [i] runs from [length - 1] down to 1. *)
Fixpoint shuffle_from {A} (i : nat) (a : list A) : M (list A) :=
  match i with
  | O => ret a
  | S i' =>
      let* r := Math_random in
      let j := Z.to_nat (floor_mul r (Z.of_nat i + 1)) in
      shuffle_from i' (swap a i j)
  end.

Definition shuffle {A} (arr : list A) : M (list A) :=
  shuffle_from (length arr - 1) arr.

(** ** Combination search: generator.js *)

(** The [Map<number, number[][]>] of [findAllPossibleSums], in insertion
    order (the order in which [generateTarget] iterates it). *)
Definition SumMap : Type := list (Z * list (list nat)).

Definition map_has (s : Z) (m : SumMap) : bool :=
  existsb (fun e => fst e =? s) m.

Definition map_get (s : Z) (m : SumMap) : option (list (list nat)) :=
  snd <$> find (fun e => fst e =? s) m.

(** [results.set(s, cs)]: overwrite in place, or append a new key. *)
Fixpoint map_set (s : Z) (cs : list (list nat)) (m : SumMap) : SumMap :=
  match m with
  | [] => [(s, cs)]
  | (k, old) :: m' =>
      if k =? s then (k, cs) :: m' else (k, old) :: map_set s cs m'
  end.

(** [results.get(s).push(c)] on a key that is present. *)
Fixpoint map_push (s : Z) (c : list nat) (m : SumMap) : SumMap :=
  match m with
  | [] => []
  | (k, cs) :: m' =>
      if k =? s then (k, cs ++ [c]) :: m' else (k, cs) :: map_push s c m'
  end.

(** The body of [if (count >= MIN_CUBES_FOR_SUM) { ... }]. *)
Definition record_sum (s : Z) (c : list nat) (m : SumMap) : SumMap :=
  let m1 := if map_has s m then m else map_set s [] m in
  map_push s c m1.

(** The closure [search] of [findAllPossibleSums]. The loop
    [for (i = startIdx; i < cubeValues.length; i++)] walks the suffix of
    [cubeValues] that starts at [startIdx]; [rest] is that suffix, so
    [cubeValues[i]] is the head of what is left of it. *)
Fixpoint search (maxCubes : nat) (rest : list Z) (startIdx : nat)
    (currentSum : Z) (count : nat) (usedIndices : list nat)
    (results : SumMap) {struct rest} : SumMap :=
  if (maxCubes <? count)%nat then results
  else
    let results1 :=
      if (MIN_CUBES_FOR_SUM <=? count)%nat
      then record_sum currentSum usedIndices results
      else results in
    (fix loop (l : list Z) (i : nat) (res : SumMap) {struct l} : SumMap :=
       match l with
       | [] => res
       | v :: l' =>
           loop l' (S i)
                (search maxCubes l' (S i) (currentSum + v) (S count)
                        (usedIndices ++ [i]) res)
       end) rest startIdx results1.

Definition findAllPossibleSums (cubeValues : list Z) (maxCubes : nat) : SumMap :=
  search maxCubes cubeValues 0 0 0 [] [].

(** The closure [search] of [_findCombinations], on the same suffix
    representation. *)
Fixpoint comb_search (count : nat) (rest : list Z) (remaining : Z)
    (depth : nat) (used : list Z) (results : list (list Z)) {struct rest}
    : list (list Z) :=
  if (depth =? count)%nat then
    (if remaining =? 0 then results ++ [used] else results)
  else
    (fix loop (l : list Z) (res : list (list Z)) {struct l} : list (list Z) :=
       match l with
       | [] => res
       | v :: l' =>
           loop l'
                (if v <=? remaining
                 then comb_search count l' (remaining - v) (S depth)
                                  (used ++ [v]) res
                 else res)
       end) rest results.

Definition _findCombinations (values : list Z) (target : Z) (count : nat)
    : list (list Z) :=
  comb_search count values target 0 [] [].

(** ** The content generator: class GameGenerator *)

Definition cfg_maxNumber (config : option LevelConfig) : M Z :=
  let* c := defined config in ret (maxNumber c).

Definition cfg_maxTarget (config : option LevelConfig) : M Z :=
  let* c := defined config in ret (maxTarget c).

Definition sum_list (l : list Z) : Z := fold_left Z.add l 0.

(** [_getAllCubeValues()]: values of the cubes that are not being removed,
    column by column. *)
Definition _getAllCubeValues (w : World) : list Z :=
  value <$> filter (fun c => removing c = false) (concat (columns w)).

(** [_getUpcomingCubeValues()]: the queues, then the planned cubes. *)
Definition _getUpcomingCubeValues (w : World) : list Z :=
  concat (queues w) ++ concat (plannedCubes w).

(** An object with integer keys used as a counter table; the entries are
    kept in ascending key order, which is the order of [Object.entries]. *)
Fixpoint obj_incr (k : Z) (o : list (Z * Z)) : list (Z * Z) :=
  match o with
  | [] => [(k, 1)]
  | (k', c) :: o' =>
      if k =? k' then (k', c + 1) :: o'
      else if k <? k' then (k, 1) :: o
      else (k', c) :: obj_incr k o'
  end.

Definition obj_get (k : Z) (o : list (Z * Z)) : option Z :=
  snd <$> find (fun e => fst e =? k) o.

(** [_getNumberDistribution()]: all cubes count, also those being removed. *)
Definition _getNumberDistribution (w : World) : list (Z * Z) :=
  fold_left (fun dist c => obj_incr (value c) dist) (concat (columns w)) [].

(** [getSelectedSum()] of the game. *)
Definition getSelectedSum (w : World) : Z :=
  fold_left (fun s c => if selected c && negb (removing c) then s + value c else s)
            (concat (columns w)) 0.

(** The integers [lo, lo+1, ..., lo+n-1]. *)
Definition range (lo : Z) (n : nat) : list Z :=
  (fun i => lo + Z.of_nat i) <$> seq 0 n.

(** [_findHelpfulValues(existingValues, target, maxValue)]; the [Set] holds
    each [x] once, in ascending order. *)
Definition _findHelpfulValues (existingValues : list Z) (target maxValue : Z)
    : list Z :=
  filter (fun x => map_has target (findAllPossibleSums (existingValues ++ [x]) 4) = true)
         (range 1 (Z.to_nat maxValue)).

(** [_weightedRandom(weights)]: the loop, on the weights from index [i] on. *)
Fixpoint weighted_scan (ws : list Z) (i : Z) (r : Q) (last : Z) : Z :=
  match ws with
  | [] => last
  | wt :: ws' =>
      let r' := (r - inject_Z wt)%Q in
      if Qle_bool r' 0 then i else weighted_scan ws' (i + 1) r' last
  end.

Definition _weightedRandom (weights : list Z) : M Z :=
  let total := sum_list weights in
  let* x := Math_random in
  ret (weighted_scan weights 0 (x * inject_Z total)%Q
                     (Z.of_nat (length weights) - 1)).

Definition _generateBalancedCube (config : option LevelConfig) : M Z :=
  let* w := get_world in
  let distribution := _getNumberDistribution w in
  let* maxN := cfg_maxNumber config in
  let weights :=
    (fun i => Z.max 1 (10 - default 0 (obj_get i distribution) * 2))
      <$> range 1 (Z.to_nat maxN) in
  let* idx := _weightedRandom weights in
  ret (idx + 1).

(** The part of [_generateHelpfulCube] below the early return of [needed]:
    the loop over [numCubes] in 2..3, then the helpful values. Where the
    source returns [randomChoice(arr)] for an array that is not empty, the
    index [floor(random * length)] is in range ([total_randomChoice]), so
    [defined] never raises there. *)
Definition helpful_search (config : option LevelConfig) (currentTarget : Z)
    : M Z :=
  let* w := get_world in
  let allCubes := _getAllCubeValues w in
  if bool_decide (_findCombinations allCubes currentTarget 2 <> [])
  then let* maxN := cfg_maxNumber config in randomInt 1 maxN
  else if bool_decide (_findCombinations allCubes currentTarget 3 <> [])
  then let* maxN := cfg_maxNumber config in randomInt 1 maxN
  else
    let* maxN := cfg_maxNumber config in
    let bestValues := _findHelpfulValues allCubes currentTarget maxN in
    match bestValues with
    | _ :: _ => let* v := randomChoice bestValues in defined v
    | [] => let* maxN' := cfg_maxNumber config in randomInt 1 maxN'
    end.

Definition _generateHelpfulCube (config : option LevelConfig) : M Z :=
  let* w := get_world in
  match targets w with
  | [] => let* maxN := cfg_maxNumber config in randomInt 1 maxN
  | currentTarget :: _ =>
      if currentTarget =? 0
      then let* maxN := cfg_maxNumber config in randomInt 1 maxN
      else
        let selectedSum := getSelectedSum w in
        let needed := currentTarget - selectedSum in
        if 0 <? needed then
          let* maxN := cfg_maxNumber config in
          if needed <=? maxN then
            let* x := Math_random in
            if Qltb x (6 # 10) then ret needed
            else helpful_search config currentTarget
          else helpful_search config currentTarget
        else helpful_search config currentTarget
  end.

Definition _generateAdaptiveCube (colIndex : nat) (config : option LevelConfig)
    : M Z :=
  let* w := get_world in
  let* col := defined (columns w !! colIndex) in
  if (DANGER_HEIGHT <=? length col)%nat
  then _generateHelpfulCube config
  else _generateBalancedCube config.

Definition generateNextCubeValue (colIndex : nat) : M Z :=
  let* w := get_world in
  let config := getLevelConfig (level w) in
  match plannedCubes w !! colIndex with
  | Some (v :: planned') =>
      modify (set_plannedCubes (<[colIndex := planned']> (plannedCubes w)));;
      ret v
  | _ => _generateAdaptiveCube colIndex config
  end.

(** [chooseColumn()]: [weight] copies of each column that is not full. *)
Definition chooseColumn : M nat :=
  let* w := get_world in
  let heights := length <$> columns w in
  let candidates :=
    concat (imap (fun i h =>
                    if (MAX_COLUMN_HEIGHT <=? h)%nat then []
                    else replicate (Nat.max 1 (MAX_COLUMN_HEIGHT - h)) i)
                 heights) in
  match candidates with
  | [] => let* c := randomInt 0 (Z.of_nat NUM_COLUMNS - 1) in ret (Z.to_nat c)
  | _ :: _ => let* c := randomChoice candidates in defined c
  end.

(** *** Target generation *)

(** An element [{ sum, combos }] of [validSums]. *)
Definition SumEntry : Type := (Z * list (list nat))%type.

Definition has_combo (p : nat -> bool) (e : SumEntry) : bool :=
  existsb (fun c => p (length c)) (snd e).

Definition by2 (validSums : list SumEntry) : list SumEntry :=
  filter (fun e => has_combo (Nat.eqb 2) e = true) validSums.
Definition by3 (validSums : list SumEntry) : list SumEntry :=
  filter (fun e => has_combo (Nat.eqb 3) e = true) validSums.
Definition by4 (validSums : list SumEntry) : list SumEntry :=
  filter (fun e => has_combo (Nat.leb 4) e = true) validSums.

Definition nonempty {A} (l : list A) : bool :=
  match l with [] => false | _ :: _ => true end.

(** The pool that [_chooseSumByDifficulty] draws from, for a given [roll]. *)
Definition choose_pool (roll : Q) (validSums : list SumEntry) : list SumEntry :=
  if Qltb roll (4 # 10) && nonempty (by2 validSums) then by2 validSums
  else if Qltb roll (8 # 10) && nonempty (by3 validSums) then by3 validSums
  else if nonempty (by4 validSums) then by4 validSums
  else validSums.

Definition _chooseSumByDifficulty (validSums : list SumEntry) : M Z :=
  let* roll := Math_random in
  let pool := choose_pool roll validSums in
  let* chosen := randomChoice pool in
  let* e := defined chosen in
  ret (fst e).

(** The loop [for (i = 0; i < numCubes; i++) values.push(randomInt(...))]. *)
Fixpoint draw_values (numCubes : nat) (maxN : Z) (values : list Z) : M (list Z) :=
  match numCubes with
  | O => ret values
  | S n =>
      let* v := randomInt 1 maxN in
      draw_values n maxN (values ++ [v])
  end.

(** [this.plannedCubes.get(colIdx).push(val)]. *)
Definition plan_cube (colIdx : nat) (val : Z) : M unit :=
  let* w := get_world in
  let* fifo := defined (plannedCubes w !! colIdx) in
  modify (set_plannedCubes (<[colIdx := fifo ++ [val]]> (plannedCubes w))).

(** The [values.forEach((val, i) => ...)] of [_generateFallbackTarget], from
    index [i] on. *)
Fixpoint plan_values (shuffledCols : list nat) (values : list Z) (i : nat)
    : M unit :=
  match values with
  | [] => ret tt
  | val :: values' =>
      let* colIdx := defined (shuffledCols !! (i mod 4)%nat) in
      plan_cube colIdx val;;
      plan_values shuffledCols values' (S i)
  end.

Definition _generateFallbackTarget (config : option LevelConfig) : M Z :=
  let* x := Math_random in
  let numCubes := if Qltb x (5 # 10) then 2%nat else 3%nat in
  let* maxN := cfg_maxNumber config in
  let* values := draw_values numCubes maxN [] in
  let target := sum_list values in
  let* shuffledCols := shuffle [0; 1; 2; 3]%nat in
  plan_values shuffledCols values 0;;
  let* maxT := cfg_maxTarget config in
  ret (clamp target MIN_TARGET maxT).

Definition generateTarget : M Z :=
  let* w := get_world in
  let config := getLevelConfig (level w) in
  let allCubes := _getAllCubeValues w in
  let upcomingCubes := _getUpcomingCubeValues w in
  let availableCubes := allCubes ++ upcomingCubes in
  let possibleSums := findAllPossibleSums availableCubes MAX_CUBES_FOR_SUM in
  match possibleSums with
  | [] => _generateFallbackTarget config
  | _ :: _ =>
      let* maxT := cfg_maxTarget config in
      let validSums :=
        filter (fun e => (MIN_TARGET <=? fst e) && (fst e <=? maxT) = true)
               possibleSums in
      match validSums with
      | [] => _generateFallbackTarget config
      | _ :: _ => _chooseSumByDifficulty validSums
      end
  end.

(** [reset()] of the generator: every planned-cube FIFO becomes empty. *)
Definition generator_reset : M unit :=
  modify (set_plannedCubes (replicate NUM_COLUMNS [])).

(** ** The board state machine: class SumSumGame *)

(** A reference to a cube object: the cube lives in exactly one column
    array, so a reference is the position (column index, array index) it is
    read and written through. *)
Definition CubeRef : Type := (nat * nat)%type.

Definition deref (w : World) (r : CubeRef) : option Cube :=
  columns w !! fst r ≫= fun col => col !! snd r.

(** Write through a reference: [cube.f = v] for the fields changed by [f]. *)
Definition update_cube (r : CubeRef) (f : Cube -> Cube) (w : World) : World :=
  match columns w !! fst r with
  | Some col => set_columns (<[fst r := alter f (snd r) col]> (columns w)) w
  | None => w
  end.

(** [reset()] of the game (timers are outside the model). *)
Definition reset : M unit :=
  modify (fun w =>
    set_isPaused false (set_isPlaying false (set_pendingSpawnCol (-1)
      (set_shaking false (set_targetsCleared 0 (set_lastMatchTime 0%Q
        (set_comboCount 0 (set_level 1 (set_score 0 (set_targets []
          (set_queues [[]; []; []; []] (set_columns [[]; []; []; []] w))))))))))));;
  generator_reset.

(** [gameOver()]: the game stops and the outcome goes to the storage and
    presentation adapters. *)
Definition gameOver : M unit :=
  modify (set_isPlaying false);;
  modify (fun w =>
    set_events (events w ++ [EvGameOver (score w) (level w) (comboCount w)]) w).

Definition _checkGameOver (w : World) : bool :=
  forallb (fun col => (MAX_COLUMN_HEIGHT <=? length col)%nat) (columns w).

(** The loop [while (this.queues[col].length < QUEUE_SIZE) push(...)]: every
    turn makes the queue one longer, so it runs [missing] times. *)
Fixpoint refill_queue (missing : nat) (col : nat) : M unit :=
  match missing with
  | O => ret tt
  | S n =>
      let* v := generateNextCubeValue col in
      let* w := get_world in
      let* q := defined (queues w !! col) in
      modify (set_queues (<[col := q ++ [v]]> (queues w)));;
      refill_queue n col
  end.

(** The first half of the spawn methods: take the value from the queue or
    from the generator, then refill the queue. *)
Definition take_value (col : nat) : M Z :=
  let* w := get_world in
  let* q := defined (queues w !! col) in
  let* v :=
    (match q with
     | v :: q' => modify (set_queues (<[col := q']> (queues w)));; ret v
     | [] => generateNextCubeValue col
     end) in
  let* w1 := get_world in
  let* q1 := defined (queues w1 !! col) in
  refill_queue (QUEUE_SIZE - length q1) col;;
  ret v.

Definition push_cube (col : nat) (cube : Cube) : M unit :=
  let* w := get_world in
  let* column := defined (columns w !! col) in
  modify (set_columns (<[col := column ++ [cube]]> (columns w))).

Definition _spawnCubeInColumn (col : nat) : M unit :=
  let* v := take_value col in
  let* w := get_world in
  let* column := defined (columns w !! col) in
  let r := Z.of_nat (length column) in
  let cube :=
    set_bounceProgress 1%Q (set_fallProgress 0%Q (set_fallTo r
      (set_fallFrom (Z.of_nat MAX_COLUMN_HEIGHT + 2) (set_falling true
        (set_row r (createCube v col)))))) in
  push_cube col cube.

(** The loop [for (i = 0; i < NUM_COLUMNS; i++)] of [_spawnNextCube]: spawn
    in the first column with room, else game over. *)
Fixpoint spawn_first_free (cols : list nat) : M unit :=
  match cols with
  | [] => gameOver
  | i :: cols' =>
      let* w := get_world in
      let* column := defined (columns w !! i) in
      if (length column <? MAX_COLUMN_HEIGHT)%nat then _spawnCubeInColumn i
      else spawn_first_free cols'
  end.

Definition _spawnNextCube : M unit :=
  let* col := chooseColumn in
  let* w := get_world in
  let* column := defined (columns w !! col) in
  if (MAX_COLUMN_HEIGHT <=? length column)%nat then
    if _checkGameOver w then gameOver
    else spawn_first_free (seq 0 NUM_COLUMNS)
  else _spawnCubeInColumn col.

(** *** Selection and matching *)

(** [getSelectedCubes()]: references to the selected cubes that are not
    being removed. The two nested [for ... of] loops visit the columns in
    order and each column bottom to top; [ci] and [i] are the positions the
    loops have reached. *)
Fixpoint selected_from (ci i : nat) (col : list Cube) : list CubeRef :=
  match col with
  | [] => []
  | cube :: col' =>
      (if selected cube && negb (removing cube) then [(ci, i)] else [])
      ++ selected_from ci (S i) col'
  end.

Fixpoint selected_cols (ci : nat) (cols : list (list Cube)) : list CubeRef :=
  match cols with
  | [] => []
  | col :: cols' => selected_from ci 0 col ++ selected_cols (S ci) cols'
  end.

Definition getSelectedCubes (w : World) : list CubeRef :=
  selected_cols 0 (columns w).

(** [_checkColumnClears(cubes)] reads the board and writes nothing; [None]
    is the [TypeError] of a column that does not exist. First loop: count
    the cubes per [cube.column]. *)
Fixpoint count_columns (w : World) (cubes : list CubeRef)
    (colCounts : list (Z * Z)) : option (list (Z * Z)) :=
  match cubes with
  | [] => Some colCounts
  | r :: cubes' =>
      match deref w r with
      | Some cube =>
          count_columns w cubes' (obj_incr (Z.of_nat (column cube)) colCounts)
      | None => None
      end
  end.

(** Second loop: over [Object.entries(colCounts)]. *)
Fixpoint count_cleared (w : World) (entries : list (Z * Z)) (cleared : Z)
    : option Z :=
  match entries with
  | [] => Some cleared
  | (col, count) :: entries' =>
      match columns w !! Z.to_nat col with
      | Some column =>
          count_cleared w entries'
            (if count =? Z.of_nat (length column) then cleared + 1 else cleared)
      | None => None
      end
  end.

Definition _checkColumnClears (w : World) (cubes : list CubeRef) : option Z :=
  match count_columns w cubes [] with
  | Some colCounts => count_cleared w colCounts 0
  | None => None
  end.

(** [_checkLevelUp()]. *)
Definition _checkLevelUp : M unit :=
  let* w := get_world in
  let needed := POINTS_PER_LEVEL * level w in
  if (needed <=? score w) && (level w <? Z.of_nat (length LEVEL_CONFIG) - 1)
  then modify (set_level (level w + 1))
  else ret tt.

(** The score multiplier of [_onTargetMatch]. *)
Definition match_multiplier (combo target cleared : Z) : Q :=
  let m0 := 1%Q in
  let m1 := if 2 <=? combo
            then (m0 * (1 + inject_Z (combo - 1) * (5 # 10)))%Q else m0 in
  let m2 := if 25 <=? target then (m1 * 3)%Q
            else if 20 <=? target then (m1 * 2)%Q else m1 in
  if 0 <? cleared then (m2 * 2)%Q else m2.

(** The section "remove the cubes" of [_onTargetMatch]. *)
Definition remove_matched (cubes : list CubeRef) : M unit :=
  for_each cubes tt (fun _ r =>
    modify (update_cube r (fun c =>
      set_removeProgress 0%Q (set_removing true (set_selected false c))))).

(** The sections "update the targets" and "level up" of [_onTargetMatch]. *)
Definition advance_targets : M unit :=
  let* w := get_world in
  modify (set_targets (tail (targets w)));;
  let* t := generateTarget in
  let* w' := get_world in
  modify (set_targets (targets w' ++ [t]));;
  modify (fun w => set_targetsCleared (targetsCleared w + 1) w);;
  _checkLevelUp.

(** [_onTargetMatch(cubes)]; [now] is the value of [performance.now()].
    [_checkTarget], its only caller, passes at least two cubes and a target
    that exists. *)
Definition _onTargetMatch (now : Q) (cubes : list CubeRef) : M unit :=
  let* w := get_world in
  let* target := defined (head (targets w)) in
  (if Qltb (now - lastMatchTime w) COMBO_TIMEOUT && Qltb 0 (lastMatchTime w)
   then modify (set_comboCount (comboCount w + 1))
   else modify (set_comboCount 1));;
  modify (set_lastMatchTime now);;
  let* w1 := get_world in
  let* clearedColumns := defined (_checkColumnClears w1 cubes) in
  let multiplier := match_multiplier (comboCount w1) target clearedColumns in
  let points :=
    Qfloor (inject_Z target * inject_Z (Z.of_nat (length cubes)) * multiplier) in
  modify (set_score (score w1 + points));;
  (* the floating text is anchored on cubes[floor(length / 2)] *)
  let* centerRef := defined (cubes !! (length cubes / 2)%nat) in
  let* w2 := get_world in
  let* _ := defined (deref w2 centerRef) in
  remove_matched cubes;;
  advance_targets.

(** [_checkTarget()]. *)
Definition _checkTarget (now : Q) : M unit :=
  let* w := get_world in
  match targets w with
  | [] => ret tt
  | currentTarget :: _ =>
      if currentTarget =? 0 then ret tt
      else
        let selectedSum := getSelectedSum w in
        let selectedCubes := getSelectedCubes w in
        if (selectedSum =? currentTarget)
           && (MIN_CUBES_FOR_SUM <=? length selectedCubes)%nat
        then _onTargetMatch now selectedCubes
        else ret tt
  end.

(** [toggleCubeSelection(colIdx, rowIdx)]. *)
Definition toggleCubeSelection (now : Q) (colIdx rowIdx : nat) : M unit :=
  let* w := get_world in
  let* col := defined (columns w !! colIdx) in
  match col !! rowIdx with
  | None => ret tt
  | Some cube =>
      if removing cube then ret tt
      else
        modify (update_cube (colIdx, rowIdx)
                            (fun c => set_selected (negb (selected c)) c));;
        _checkTarget now
  end.

(** *** Settling *)

(** The loop of [_settleColumn], from array index [i] on. *)
Fixpoint settle_from (i : nat) (col : list Cube) : list Cube :=
  match col with
  | [] => []
  | cube :: col' =>
      (if row cube =? Z.of_nat i then cube
       else set_row (Z.of_nat i) (set_fallProgress 0%Q
              (set_fallTo (Z.of_nat i) (set_fallFrom (row cube)
                 (set_falling true cube))))) :: settle_from (S i) col'
  end.

Definition _settleColumn (colIdx : nat) : M unit :=
  let* w := get_world in
  let* column := defined (columns w !! colIdx) in
  modify (set_columns (<[colIdx := settle_from 0 column]> (columns w))).

(** ** The tap handler of ui.js *)

(** [_handleTap], after the pixel coordinates have been turned into the
    cell [(colIndex, clickRow)] (the pixel geometry is not modelled). *)
Definition _handleTap (now : Q) (colIndex clickRow : Z) : M unit :=
  let* w := get_world in
  if (colIndex <? 0) || (Z.of_nat NUM_COLUMNS <=? colIndex) then ret tt
  else
    match columns w !! Z.to_nat colIndex with
    | None => ret tt
    | Some column =>
        if (length column =? 0)%nat then ret tt
        else if (clickRow <? 0) || (Z.of_nat (length column) <=? clickRow)
        then ret tt
        else
          match column !! Z.to_nat clickRow with
          | Some cube =>
              if negb (removing cube) && negb (falling cube)
              then toggleCubeSelection now (Z.to_nat colIndex) (Z.to_nat clickRow)
              else ret tt
          | None => ret tt
          end
    end.

(** ** Notions used in the statements *)

(** [total m w post]: from [w], the method [m] returns (no [TypeError]) and
    its result and final world satisfy [post]. *)
Definition total {A} (m : M A) (w : World) (post : A -> World -> Prop) : Prop :=
  match m w with
  | Ok (a, w') => post a w'
  | TypeError => False
  end.

(** What the generator may change: its planned cubes and the position in
    the random stream. [game_part] forgets both. *)
Definition game_part (w : World) : World :=
  set_rnd_next 0 (set_plannedCubes [] w).

(** *** Combination search *)

(** The sum of the values at the positions [c] of [vals]. *)
Definition combo_sum (vals : list Z) (c : list nat) : Z :=
  sum_list ((fun i => default 0 (vals !! i)) <$> c).

(** [c] is a strictly increasing list of positions of [vals] with between
    [lo] and [hi] elements: a subset of the positions, written once. *)
Definition is_combination (vals : list Z) (lo hi : nat) (c : list nat) : Prop :=
  StronglySorted Nat.lt c /\
  Forall (fun i : nat => (i < length vals)%nat) c /\
  (lo <= length c <= hi)%nat.

(** The combinations listed under the key [s] (none if the key is absent). *)
Definition combos_of (s : Z) (m : SumMap) : list (list nat) :=
  default [] (map_get s m).

(** [increasing_from lo c]: [c] is strictly increasing and starts at [lo] or
    above. *)
Fixpoint increasing_from (lo : nat) (c : list nat) : Prop :=
  match c with
  | [] => True
  | i :: c' => (lo <= i)%nat /\ increasing_from (S i) c'
  end.

(** The index lists that [search] appends to [usedIndices], in the order of
    the calls. *)
Fixpoint exts (maxCubes : nat) (rest : list Z) (startIdx count : nat)
    {struct rest} : list (list nat) :=
  if (maxCubes <? count)%nat then []
  else
    (if (MIN_CUBES_FOR_SUM <=? count)%nat then [[]] else []) ++
    (fix loop (l : list Z) (i : nat) {struct l} : list (list nat) :=
       match l with
       | [] => []
       | v :: l' => (cons i <$> exts maxCubes l' (S i) (S count)) ++ loop l' (S i)
       end) rest startIdx.

Definition exts_loop (maxCubes : nat) (count : nat) : list Z -> nat -> list (list nat) :=
  fix loop (l : list Z) (i : nat) {struct l} : list (list nat) :=
    match l with
    | [] => []
    | v :: l' => (cons i <$> exts maxCubes l' (S i) (S count)) ++ loop l' (S i)
    end.

(** The loop of [search] as a function of its own. *)
Definition search_loop (maxCubes : nat) (currentSum : Z) (count : nat)
    (usedIndices : list nat) : list Z -> nat -> SumMap -> SumMap :=
  fix loop (l : list Z) (i : nat) (res : SumMap) {struct l} : SumMap :=
    match l with
    | [] => res
    | v :: l' =>
        loop l' (S i)
             (search maxCubes l' (S i) (currentSum + v) (S count)
                     (usedIndices ++ [i]) res)
    end.

Definition record_all (trace : list (Z * list nat)) (m : SumMap) : SumMap :=
  fold_left (fun m e => record_sum (fst e) (snd e) m) trace m.

(** Keys are distinct, and no key is listed with an empty array. *)
Definition map_ok (m : SumMap) : Prop :=
  NoDup (fst <$> m) /\ Forall (fun e => snd e <> []) m.

(** The extensions that [search] can reach from position [lo] with [count]
    cubes already taken, over [n] remaining positions. *)
Definition good_ext (maxCubes n lo count : nat) (ext : list nat) : Prop :=
  increasing_from lo ext /\
  Forall (fun j : nat => (j < lo + n)%nat) ext /\
  (MIN_CUBES_FOR_SUM <= count + length ext <= maxCubes)%nat.

(** *** Sample inputs *)

(** A random stream that starts with the draws [l] and goes on with 0. *)
Definition stream_of (l : list rand01) : nat -> rand01 :=
  fun n => nth n l (mkRand 0 1).

(** The game as [new SumSumGame()] followed by [reset()] leaves it. *)
Definition new_game (src : nat -> rand01) : World :=
  {| columns := [[]; []; []; []]; queues := [[]; []; []; []]; targets := [];
     score := 0; level := 1; isPlaying := false; isPaused := false;
     comboCount := 0; lastMatchTime := 0%Q; targetsCleared := 0;
     shaking := false; pendingSpawnCol := -1;
     plannedCubes := [[]; []; []; []]; rnd_source := src; rnd_next := 0;
     events := [] |}.

(** A cube at rest, as [_spawnCubeImmediate] places it. *)
Definition resting (v : Z) (col : nat) (r : Z) : Cube :=
  set_bounceProgress 1%Q (set_row r (createCube v col)).

(** A cube in flight, as [_spawnCubeInColumn] places it. *)
Definition dropping (v : Z) (col : nat) (r : Z) : Cube :=
  set_bounceProgress 1%Q (set_fallProgress 0%Q (set_fallTo r
    (set_fallFrom (Z.of_nat MAX_COLUMN_HEIGHT + 2) (set_falling true
      (set_row r (createCube v col)))))).

(** A column with a gap: the cube above sits at row 2 over a cube at row 0. *)
Definition gap_column : list Cube := [resting 3 0 0; resting 5 0 2].

Definition gap_world : World :=
  set_columns [gap_column; []; []; []] (new_game (stream_of [])).

(** A board on which every column holds [MAX_COLUMN_HEIGHT] cubes. *)
Definition full_column (col : nat) : list Cube :=
  (fun r => resting 1 col (Z.of_nat r)) <$> seq 0 MAX_COLUMN_HEIGHT.

Definition full_world : World :=
  set_columns (full_column <$> seq 0 NUM_COLUMNS)
    (set_queues [[1; 2]; [3; 4]; [5; 6]; [1; 1]]
       (set_isPlaying true (new_game (stream_of [mkRand 1 1])))).

(** A board whose column 0 holds a resting 2 and, above it, a 4 that has
    just been spawned and is still falling; the current target is 9. *)
Definition falling_world : World :=
  set_columns [[resting 2 0 0; dropping 4 0 1]; []; []; []]
    (set_targets [9; 7; 8]
       (set_isPlaying true (new_game (stream_of [])))).

(** The same board with the upper cube being removed instead. *)
Definition removing_world : World :=
  set_columns [[resting 2 0 0; set_removing true (resting 4 0 1)]; []; []; []]
    (set_targets [9; 7; 8]
       (set_isPlaying true (new_game (stream_of [])))).

(** A fresh game whose random draws make the first two target generations
    take the fallback path: two cubes of values 1 and 1 planned into columns
    1 and 3, then two cubes of values 4 and 6 planned into columns 1 and 3. *)
Definition replant_world : World :=
  new_game (stream_of
    [ mkRand 0 1; mkRand 0 1; mkRand 0 1; mkRand 0 1; mkRand 3 1; mkRand 0 1;
      mkRand 0 1; mkRand 1 1; mkRand 5 1; mkRand 0 1; mkRand 3 1; mkRand 0 1 ]).

(** A fresh game whose random draws are all 0. *)
Definition zero_world : World := new_game (stream_of []).

(** A fresh game whose draws make the first fallback choose three cubes of
    value 6 each. *)
Definition high_world : World :=
  new_game (stream_of [mkRand 1 1; mkRand 5 1; mkRand 5 1; mkRand 5 1]).

(** The draw that the next call of [Math.random()] returns. *)
Definition next_draw (w : World) : Q := rand_val (rnd_source w (rnd_next w)).

(** *** Difficulty pools, in the words of the specification *)

(** The smallest size of a combination listed for a sum. *)
Definition min_combo_size (e : SumEntry) : nat :=
  match length <$> snd e with
  | [] => 0%nat
  | n :: ns => foldr Nat.min n ns
  end.

(** The three pools "by the minimum combination size that achieves them". *)
Definition spec_pool2 (validSums : list SumEntry) : list SumEntry :=
  filter (fun e => min_combo_size e = 2%nat) validSums.
Definition spec_pool3 (validSums : list SumEntry) : list SumEntry :=
  filter (fun e => min_combo_size e = 3%nat) validSums.
Definition spec_pool4 (validSums : list SumEntry) : list SumEntry :=
  filter (fun e => (4 <= min_combo_size e)%nat) validSums.

(** "<0.4: prefer the 2-cube pool, <0.8: prefer the 3-cube pool, else the
    4+-cube pool; if the preferred pool is empty, fall back to the full
    valid set". *)
Definition spec_choose_pool (roll : Q) (validSums : list SumEntry)
    : list SumEntry :=
  let preferred :=
    if Qltb roll (4 # 10) then spec_pool2 validSums
    else if Qltb roll (8 # 10) then spec_pool3 validSums
    else spec_pool4 validSums in
  if nonempty preferred then preferred else validSums.

(** The valid sums of level 1 (targets 5 to 15) over given cube values. *)
Definition valid_sums_of (available : list Z) : list SumEntry :=
  filter (fun e => (MIN_TARGET <=? fst e) && (fst e <=? 15) = true)
         (findAllPossibleSums available MAX_CUBES_FOR_SUM).

(** *** Invariants *)

(** The generator keeps one FIFO per column, and only plans values that are
    at least 1. *)
Definition planned_inv (p : list (list Z)) : Prop :=
  length p = NUM_COLUMNS /\ Forall (Forall (fun v => 1 <= v)) p.

(** The worlds that the program can be in, as far as the generator is
    concerned: its planned cubes are written by [reset], [generateTarget]
    and [generateNextCubeValue] only, while the game fields may be anything. *)
Inductive gen_reachable : World -> Prop :=
| reach_reset w w' :
    reset w = Ok (tt, w') -> gen_reachable w'
| reach_target w t w' :
    gen_reachable w -> generateTarget w = Ok (t, w') -> gen_reachable w'
| reach_cube w col v w' :
    gen_reachable w -> generateNextCubeValue col w = Ok (v, w') ->
    gen_reachable w'
| reach_game w w' :
    gen_reachable w -> plannedCubes w' = plannedCubes w -> gen_reachable w'.

(** Every cube records the index of the column that holds it, as
    [createCube(value, col)] followed by [columns[col].push(cube)] makes it. *)
Definition board_ok (w : World) : Prop :=
  forall ci col i c,
    columns w !! ci = Some col -> col !! i = Some c -> column c = ci.

(** *** Matching and scoring *)

(** The cubes that a match takes: selected and not being removed. *)
Definition is_matched (c : Cube) : bool := selected c && negb (removing c).

(** The match clears column [ci]: the column holds cubes, and every cube it
    holds is one of the matched cubes. *)
Definition column_cleared (w : World) (cubes : list CubeRef) (ci : nat) : Prop :=
  exists col, columns w !! ci = Some col /\ col <> [] /\
              forall i, (i < length col)%nat -> (ci, i) ∈ cubes.

(** The multiplier in the words of the specification: it starts at 1, is
    multiplied by [1 + (comboCount - 1) * 0.5] when [comboCount >= 2], by 3
    if [target >= 25] or else by 2 if [target >= 20], and by 2 again if the
    match cleared a column. *)
Definition spec_multiplier (combo target : Z) (cleared : bool) : Q :=
  ((if 2 <=? combo then 1 + inject_Z (combo - 1) * (1 # 2) else 1) *
   (if 25 <=? target then 3 else if 20 <=? target then 2 else 1) *
   (if cleared then 2 else 1))%Q.

Definition spec_points (target n combo : Z) (cleared : bool) : Z :=
  Qfloor (inject_Z target * inject_Z n * spec_multiplier combo target cleared).

(** The combo counter that [_onTargetMatch] leaves, for a match at [now]. *)
Definition next_combo (now : Q) (w : World) : Z :=
  if Qltb (now - lastMatchTime w) COMBO_TIMEOUT && Qltb 0 (lastMatchTime w)
  then comboCount w + 1 else 1.

(** A counter table: keys ascending, counts positive. *)
Definition tally_ok (o : list (Z * Z)) : Prop :=
  StronglySorted Z.lt (fst <$> o) /\ Forall (fun e => 0 < snd e) o.

Definition tally (ks : list Z) (o : list (Z * Z)) : list (Z * Z) :=
  fold_left (fun o k => obj_incr k o) ks o.

(** What [this.f] reads after the board has changed: everything but the
    columns. *)
Definition off_board (w : World) : World := set_columns [] w.

(** A board of level 7 with the cubes 12 and 8 selected, in two columns that
    hold other cubes too; the target is 20 and no match has happened yet. *)
Definition match20_world : World :=
  set_columns [[set_selected true (resting 12 0 0); resting 3 0 1];
               [set_selected true (resting 8 1 0); resting 1 1 1]; []; []]
    (set_targets [20; 9; 11]
       (set_level 7 (set_isPlaying true (new_game (stream_of []))))).

(** A board of level 7 with the cubes 12, 8 and 5 selected, in three columns
    that hold other cubes too; the target is 25, two matches have been
    chained, the last one at time 1000. *)
Definition match25_world : World :=
  set_columns [[set_selected true (resting 12 0 0); resting 3 0 1];
               [set_selected true (resting 8 1 0); resting 1 1 1];
               [set_selected true (resting 5 2 0); resting 2 2 1]; []]
    (set_targets [25; 9; 11]
       (set_comboCount 2 (set_lastMatchTime 1000%Q
          (set_level 7 (set_isPlaying true (new_game (stream_of []))))))).


(** ** More of the program *)

(** *** generator.js: [checkTargetAchievable] *)

(** [_getAllCubesFlat()]: the cubes that are not being removed, column by
    column and bottom to top; each reference comes with the cube it reads. *)
Fixpoint flat_from (ci i : nat) (col : list Cube) : list (CubeRef * Cube) :=
  match col with
  | [] => []
  | cube :: col' =>
      (if removing cube then [] else [((ci, i), cube)])
      ++ flat_from ci (S i) col'
  end.

Fixpoint flat_cols (ci : nat) (cols : list (list Cube)) : list (CubeRef * Cube) :=
  match cols with
  | [] => []
  | col :: cols' => flat_from ci 0 col ++ flat_cols (S ci) cols'
  end.

Definition _getAllCubesFlat (w : World) : list (CubeRef * Cube) :=
  flat_cols 0 (columns w).

(** The closure [search] of [checkTargetAchievable]; [rest] is the suffix of
    [allCubes] from [startIdx] on, as in [search] above. *)
Fixpoint achievable_search (rest : list (CubeRef * Cube)) (remaining : Z)
    (count : nat) (used : list CubeRef) (results : list (list CubeRef))
    {struct rest} : list (list CubeRef) :=
  if (remaining =? 0) && (MIN_CUBES_FOR_SUM <=? count)%nat
  then results ++ [used]
  else if (remaining <? 0) || (MAX_CUBES_FOR_SUM <=? count)%nat
  then results
  else
    (fix loop (l : list (CubeRef * Cube)) (res : list (list CubeRef))
         {struct l} : list (list CubeRef) :=
       match l with
       | [] => res
       | x :: l' =>
           loop l' (achievable_search l' (remaining - value (snd x))
                                      (S count) (used ++ [fst x]) res)
       end) rest results.

(** [checkTargetAchievable(target)]: the pair [(possible, combinations)]. *)
Definition checkTargetAchievable (w : World) (target : Z)
    : bool * list (list CubeRef) :=
  let results := achievable_search (_getAllCubesFlat w) target 0 [] [] in
  (nonempty results, results).

(** *** game.js: spawn scheduling, combo expiry, start *)

Definition TARGETS_AHEAD : nat := 2.

(** The loop [for (i = 0; i < NUM_COLUMNS; i++)] of [_chooseSpawnColumn]. *)
Fixpoint first_free (cols : list nat) : M Z :=
  match cols with
  | [] => ret (-1)
  | i :: cols' =>
      let* w := get_world in
      let* column := defined (columns w !! i) in
      if (length column <? MAX_COLUMN_HEIGHT)%nat then ret (Z.of_nat i)
      else first_free cols'
  end.

(** [_chooseSpawnColumn()]: a column with room, or -1. *)
Definition _chooseSpawnColumn : M Z :=
  let* col := chooseColumn in
  let* w := get_world in
  let* column := defined (columns w !! col) in
  if (length column <? MAX_COLUMN_HEIGHT)%nat then ret (Z.of_nat col)
  else first_free (seq 0 NUM_COLUMNS).

(** [_updateCombo(timestamp)]. *)
Definition _updateCombo (timestamp : Q) : M unit :=
  let* w := get_world in
  if (0 <? comboCount w) && Qltb COMBO_TIMEOUT (timestamp - lastMatchTime w)
  then modify (set_comboCount 0)
  else ret tt.

(** [_spawnCubeImmediate(col)]: the cube is placed at rest. *)
Definition _spawnCubeImmediate (col : nat) : M unit :=
  let* w := get_world in
  let* column := defined (columns w !! col) in
  if (MAX_COLUMN_HEIGHT <=? length column)%nat then ret tt
  else
    let* v := take_value col in
    let* w1 := get_world in
    let* column1 := defined (columns w1 !! col) in
    let cube :=
      set_bounceProgress 1%Q
        (set_row (Z.of_nat (length column1)) (createCube v col)) in
    push_cube col cube.


(** The loops of [start()]. *)
Fixpoint push_targets (n : nat) : M unit :=
  match n with
  | O => ret tt
  | S n' =>
      let* t := generateTarget in
      modify (fun w => set_targets (targets w ++ [t]) w);;
      push_targets n'
  end.

Fixpoint fill_queues (cols : list nat) : M unit :=
  match cols with
  | [] => ret tt
  | col :: cols' =>
      let* w := get_world in
      let* q := defined (queues w !! col) in
      refill_queue (QUEUE_SIZE - length q) col;;
      fill_queues cols'
  end.

Fixpoint spawn_initial (idxs : list nat) : M unit :=
  match idxs with
  | [] => ret tt
  | i :: idxs' =>
      _spawnCubeImmediate (i mod NUM_COLUMNS);;
      spawn_initial idxs'
  end.

(** [start()], without the user interface, the game loop and the timers. *)
Definition start : M unit :=
  modify (set_isPlaying true);;
  modify (set_isPaused false);;
  push_targets (TARGETS_AHEAD + 1);;
  fill_queues (seq 0 NUM_COLUMNS);;
  let* initialCubes := randomInt 6 10 in
  spawn_initial (seq 0 (Z.to_nat initialCubes)).

(** *** Notions for the further properties *)

(** The loop of [_findCombinations]'s [search] as a function of its own. *)
Definition comb_loop (count : nat) (remaining : Z) (depth : nat)
    (used : list Z) : list Z -> list (list Z) -> list (list Z) :=
  fix loop (l : list Z) (res : list (list Z)) {struct l} : list (list Z) :=
    match l with
    | [] => res
    | v :: l' =>
        loop l'
             (if v <=? remaining
              then comb_search count l' (remaining - v) (S depth)
                               (used ++ [v]) res
              else res)
    end.

(** The pruning test [values[i] <= remaining] holds all along [ext]. *)
Fixpoint pruned (ext : list Z) (remaining : Z) : Prop :=
  match ext with
  | [] => True
  | v :: ext' => v <= remaining /\ pruned ext' (remaining - v)
  end.

(** The loop of [checkTargetAchievable]'s [search]. *)
Definition achievable_loop (remaining : Z) (count : nat) (used : list CubeRef)
    : list (CubeRef * Cube) -> list (list CubeRef) -> list (list CubeRef) :=
  fix loop (l : list (CubeRef * Cube)) (res : list (list CubeRef))
      {struct l} : list (list CubeRef) :=
    match l with
    | [] => res
    | x :: l' =>
        loop l' (achievable_search l' (remaining - value (snd x))
                                   (S count) (used ++ [fst x]) res)
    end.

(** The sum of the values of listed cubes. *)
Definition cubes_sum (ext : list (CubeRef * Cube)) : Z :=
  sum_list ((fun x => value (snd x)) <$> ext).

(** [search] of [checkTargetAchievable] walks down [ext] and records it:
    no early hit and no cut before its end, a hit at its end. *)
Fixpoint path_ok (ext : list (CubeRef * Cube)) (remaining : Z) (count : nat)
    : Prop :=
  match ext with
  | [] => remaining = 0 /\ (MIN_CUBES_FOR_SUM <= count)%nat
  | x :: ext' =>
      ~ (remaining = 0 /\ (MIN_CUBES_FOR_SUM <= count)%nat) /\
      0 <= remaining /\ (count < MAX_CUBES_FOR_SUM)%nat /\
      path_ok ext' (remaining - value (snd x)) (S count)
  end.

(** Column [c] exists and is below [MAX_COLUMN_HEIGHT]. *)
Definition has_room (w : World) (c : nat) : Prop :=
  exists col, columns w !! c = Some col /\ (length col < MAX_COLUMN_HEIGHT)%nat.

(** The pool of [generateTarget]: board cubes, then queued and planned. *)
Definition available (w : World) : list Z :=
  _getAllCubeValues w ++ _getUpcomingCubeValues w.

(** Some 2 to 5 available cubes add up to a target allowed at this level. *)
Definition valid_sum_exists (w : World) (maxT : Z) : Prop :=
  exists c, is_combination (available w) MIN_CUBES_FOR_SUM MAX_CUBES_FOR_SUM c /\
            MIN_TARGET <= combo_sum (available w) c <= maxT.

(** What a spawn may change besides the board: the queues, the planned
    cubes and the position in the random stream. *)
Definition spawn_frame (w : World) : World := set_queues [] (game_part w).

Definition board_frame (w : World) : World := set_columns [] (spawn_frame w).

(** The cube that [_spawnCubeInColumn] puts on top of a column of height
    [r]: it falls from two rows above the field to row [r]. *)
Definition spawned_cube (v : Z) (col r : nat) : Cube :=
  {| value := v; column := col; row := Z.of_nat r; selected := false;
     falling := true; fallProgress := 0%Q;
     fallFrom := Z.of_nat MAX_COLUMN_HEIGHT + 2; fallTo := Z.of_nat r;
     removing := false; removeProgress := 0%Q; bounceProgress := 1%Q |}.

(** The number of cubes on the board. *)
Definition cube_count (w : World) : nat := length (concat (columns w)).

(** No column is higher than the field. *)
Definition heights_ok (w : World) : Prop :=
  Forall (fun col => (length col <= MAX_COLUMN_HEIGHT)%nat) (columns w).

(** One queue and one column per index. *)
Definition shape_ok (w : World) : Prop :=
  length (columns w) = NUM_COLUMNS /\ length (queues w) = NUM_COLUMNS /\
  planned_inv (plannedCubes w).


(** What [_onTargetMatch] writes into each matched cube. *)
Definition mark_removing (c : Cube) : Cube :=
  set_removeProgress 0%Q (set_removing true (set_selected false c)).

(** The level after [_checkLevelUp]. *)
Definition level_after (w : World) : Z :=
  if (POINTS_PER_LEVEL * level w <=? score w) && (level w <? 10)
  then level w + 1 else level w.

(** The fields that neither the generator nor a spawn nor a new target
    touches. *)
Definition meta_part (w : World) : World := set_targets [] (board_frame w).

(** Every queued value is at least 1. *)
Definition queues_ok (w : World) : Prop :=
  Forall (Forall (fun v => 1 <= v)) (queues w).

(** Every queue is full. *)
Definition queues_full (w : World) : Prop :=
  Forall (fun q : list Z => length q = QUEUE_SIZE) (queues w).

(** Column [ci] as [_spawnCubeImmediate] builds it: its cube number [i] is
    at rest in row [i] and carries a value of at least 1. *)
Definition rests_at (ci : nat) (col : list Cube) : Prop :=
  forall i c, col !! i = Some c ->
              exists v, 1 <= v /\ c = resting v ci (Z.of_nat i).

(** How many turns of the loop [for i ... _spawnCubeImmediate(i % 4)] go to
    column [c], when [i] runs through [idxs]. *)
Definition spawns_into (c : nat) (idxs : list nat) : nat :=
  length (filter (fun i : nat => (i mod NUM_COLUMNS)%nat = c) idxs).

Definition start_inv (w : World) : Prop :=
  shape_ok w /\ queues_ok w /\ queues_full w /\
  forall ci col, columns w !! ci = Some col -> rests_at ci col.

(** The value read through a reference ([cube.value]). *)
Definition ref_value (w : World) (r : CubeRef) : Z :=
  from_option value 0 (deref w r).

(** The test of [_checkTarget]: there is a current target, it is not 0, the
    selected cubes add up to it and there are enough of them. *)
Definition match_fires (w : World) : bool :=
  match targets w with
  | [] => false
  | t :: _ => negb (t =? 0) && (getSelectedSum w =? t)
              && (MIN_CUBES_FOR_SUM <=? length (getSelectedCubes w))%nat
  end.

(** The write of [toggleCubeSelection]. *)
Definition flip_selected (c : Cube) : Cube := set_selected (negb (selected c)) c.

(** What identifies a cube on the board. *)
Definition cube_key (c : Cube) : Z * nat * Z := (value c, column c, row c).

(** The same cubes in the same places; only marks may differ. *)
Definition same_cubes (w' w : World) : Prop :=
  forall r, cube_key <$> deref w' r = cube_key <$> deref w r.

(** ** storage.js: the records that class GameStorage keeps

    [this.data] without the settings, the tutorial flag and the date;
    writing to [localStorage] ([save()]) changes none of these fields and is
    left out. The achievements object holds booleans under string keys, in
    insertion order. *)

Record StorageData : Type := mkData {
  highScore : Z;
  totalGames : Z;
  totalScore : Z;
  bestLevel : Z;
  bestCombo : Z;
  achievements : list (String.string * bool)
}.

(** [_defaultData()]. *)
Definition _defaultData : StorageData :=
  {| highScore := 0; totalGames := 0; totalScore := 0; bestLevel := 1;
     bestCombo := 0;
     achievements :=
       [ ("firstWin"%string, false); ("combo3"%string, false);
         ("combo5"%string, false); ("score1000"%string, false);
         ("score5000"%string, false); ("score10000"%string, false);
         ("level5"%string, false); ("level10"%string, false);
         ("bigSum"%string, false) ] |}.

(** [obj[key]]: [None] is [undefined]. *)
Fixpoint ach_get (key : String.string) (o : list (String.string * bool))
    : option bool :=
  match o with
  | [] => None
  | (k, v) :: o' => if String.eqb k key then Some v else ach_get key o'
  end.

(** [obj[key] = v] for a key that the object has. *)
Fixpoint ach_set (key : String.string) (v : bool)
    (o : list (String.string * bool)) : list (String.string * bool) :=
  match o with
  | [] => []
  | (k, x) :: o' =>
      if String.eqb k key then (k, v) :: o' else (k, x) :: ach_set key v o'
  end.

Definition set_achievements (a : list (String.string * bool))
    (d : StorageData) : StorageData :=
  mkData (highScore d) (totalGames d) (totalScore d) (bestLevel d)
         (bestCombo d) a.

(** [updateHighScore(score)]: the result tells whether this is a record. *)
Definition updateHighScore (sc : Z) (d : StorageData) : bool * StorageData :=
  if highScore d <? sc
  then (true, mkData sc (totalGames d) (totalScore d) (bestLevel d)
                     (bestCombo d) (achievements d))
  else (false, d).

(** [recordGame(score, level, combo)]. *)
Definition recordGame (sc lvl combo : Z) (d : StorageData) : StorageData :=
  mkData (highScore d) (totalGames d + 1) (totalScore d + sc)
         (if bestLevel d <? lvl then lvl else bestLevel d)
         (if bestCombo d <? combo then combo else bestCombo d)
         (achievements d).

(** [unlockAchievement(key)]: the result tells whether the achievement has
    just been obtained. *)
Definition unlockAchievement (key : String.string) (d : StorageData)
    : bool * StorageData :=
  match ach_get key (achievements d) with
  | Some false => (true, set_achievements (ach_set key true (achievements d)) d)
  | _ => (false, d)
  end.

(** The storage calls of [gameOver()], in their order; [EvGameOver] carries
    their arguments. The result is [isNewRecord]. *)
Definition storage_gameOver (sc lvl combo : Z) (d : StorageData)
    : bool * StorageData :=
  let '(isNewRecord, d1) := updateHighScore sc d in
  let d2 := recordGame sc lvl combo d1 in
  let d3 := if 1000 <=? sc
            then snd (unlockAchievement "score1000"%string d2) else d2 in
  let d4 := if 5000 <=? sc
            then snd (unlockAchievement "score5000"%string d3) else d3 in
  let d5 := if 10000 <=? sc
            then snd (unlockAchievement "score10000"%string d4) else d4 in
  (isNewRecord, d5).

(** * Properties *)

(** ** Random draws stay in range *)

Lemma rand_num_lt_den (r : rand01) : Z.of_N (rnum r) < Z.pos (rand_den r).
Proof.
  unfold rand_den. destruct (rnum r) as [|p]; simpl; lia.
Qed.

Lemma floor_mul_rand (r : rand01) (n : Z) :
  floor_mul (rand_val r) n = (Z.of_N (rnum r) * n) / Z.pos (rand_den r).
Proof.
  unfold floor_mul, rand_val, Qfloor, Qmult, inject_Z. simpl.
  rewrite Pos.mul_1_r. reflexivity.
Qed.

Lemma floor_mul_range (r : rand01) (n : Z) :
  0 < n -> 0 <= floor_mul (rand_val r) n < n.
Proof.
  intros Hn. rewrite floor_mul_rand.
  pose proof (rand_num_lt_den r) as Hlt.
  assert (0 <= Z.of_N (rnum r)) by lia.
  split.
  - apply Z.div_pos; nia.
  - apply Z.div_lt_upper_bound; nia.
Qed.

Lemma floor_mul_zero (x : Q) : floor_mul x 0 = 0.
Proof.
  unfold floor_mul, Qfloor, Qmult, inject_Z. destruct x as [a b]. simpl.
  rewrite Z.mul_0_r. apply Z.div_0_l. lia.
Qed.

(** ** Total correctness of methods *)

Lemma total_ret {A} (a : A) w (post : A -> World -> Prop) :
  post a w -> total (ret a) w post.
Proof. intros H. exact H. Qed.

Lemma total_bind {A B} (m : M A) (k : A -> M B) w (post : B -> World -> Prop) :
  total m w (fun a w' => total (k a) w' post) -> total (bind m k) w post.
Proof.
  unfold total, bind. destruct (m w) as [[a w']|]; auto.
Qed.

Lemma total_mono {A} (m : M A) w (post post' : A -> World -> Prop) :
  total m w post -> (forall a w', post a w' -> post' a w') -> total m w post'.
Proof.
  unfold total. destruct (m w) as [[a w']|]; auto.
Qed.

Lemma total_run {A} (m : M A) w (post : A -> World -> Prop) :
  total m w post -> exists a w', m w = Ok (a, w') /\ post a w'.
Proof.
  unfold total. destruct (m w) as [[a w']|]; [eauto | tauto].
Qed.

Lemma total_run_unit (m : M unit) w (post : unit -> World -> Prop) :
  total m w post -> exists w', m w = Ok (tt, w') /\ post tt w'.
Proof.
  unfold total. destruct (m w) as [[[] w']|]; [eauto | tauto].
Qed.

Lemma total_of_run {A} (m : M A) w a w' (post : A -> World -> Prop) :
  m w = Ok (a, w') -> post a w' -> total m w post.
Proof. unfold total. intros ->. auto. Qed.

Lemma total_get w (post : World -> World -> Prop) :
  post w w -> total get_world w post.
Proof. intros H. exact H. Qed.

Lemma total_modify f w (post : unit -> World -> Prop) :
  post tt (f w) -> total (modify f) w post.
Proof. intros H. exact H. Qed.

Lemma total_defined {A} (o : option A) a w (post : A -> World -> Prop) :
  o = Some a -> post a w -> total (defined o) w post.
Proof. intros -> H. exact H. Qed.

Lemma total_random w (post : Q -> World -> Prop) :
  post (rand_val (rnd_source w (rnd_next w))) (set_rnd_next (S (rnd_next w)) w) ->
  total Math_random w post.
Proof. intros H. exact H. Qed.

Lemma total_randomInt lo hi w (post : Z -> World -> Prop) :
  lo <= hi ->
  (forall v w', lo <= v <= hi -> game_part w' = game_part w ->
                plannedCubes w' = plannedCubes w -> post v w') ->
  total (randomInt lo hi) w post.
Proof.
  intros Hle H. unfold randomInt. apply total_bind, total_random, total_ret.
  apply H; [|reflexivity|reflexivity].
  pose proof (floor_mul_range (rnd_source w (rnd_next w)) (hi - lo + 1)).
  lia.
Qed.

Lemma total_randomChoice {A} (arr : list A) w (post : option A -> World -> Prop) :
  arr <> [] ->
  (forall x w', x ∈ arr -> game_part w' = game_part w ->
                plannedCubes w' = plannedCubes w -> post (Some x) w') ->
  total (randomChoice arr) w post.
Proof.
  intros Hne H. unfold randomChoice. apply total_bind, total_random, total_ret.
  set (r := rnd_source w (rnd_next w)).
  assert (Hlen : 0 < Z.of_nat (length arr)) by (destruct arr; [congruence | simpl; lia]).
  pose proof (floor_mul_range r _ Hlen) as Hr.
  destruct (lookup_lt_is_Some_2 arr (Z.to_nat (floor_mul (rand_val r) (Z.of_nat (length arr)))))
    as [x Hx]; [lia|].
  rewrite Hx. apply H; [|reflexivity|reflexivity].
  eapply list_elem_of_lookup_2; eauto.
Qed.

(** ** Combination search *)

Lemma search_unfold maxCubes rest startIdx currentSum count used results :
  search maxCubes rest startIdx currentSum count used results =
  if (maxCubes <? count)%nat then results
  else search_loop maxCubes currentSum count used rest startIdx
         (if (MIN_CUBES_FOR_SUM <=? count)%nat
          then record_sum currentSum used results else results).
Proof.
  destruct rest; reflexivity.
Qed.

Lemma exts_unfold maxCubes rest startIdx count :
  exts maxCubes rest startIdx count =
  if (maxCubes <? count)%nat then []
  else (if (MIN_CUBES_FOR_SUM <=? count)%nat then [[]] else []) ++
       exts_loop maxCubes count rest startIdx.
Proof.
  destruct rest; reflexivity.
Qed.

Lemma record_sum_nil s c : record_sum s c [] = [(s, [c])].
Proof.
  unfold record_sum. simpl. rewrite Z.eqb_refl. reflexivity.
Qed.

Lemma record_sum_cons s c k cs m :
  record_sum s c ((k, cs) :: m) =
  if k =? s then (k, cs ++ [c]) :: m else (k, cs) :: record_sum s c m.
Proof.
  unfold record_sum. simpl. destruct (k =? s) eqn:E; simpl.
  - rewrite E. reflexivity.
  - destruct (map_has s m); simpl; rewrite E; reflexivity.
Qed.

Lemma map_get_record_same s c m :
  map_get s (record_sum s c m) = Some (combos_of s m ++ [c]).
Proof.
  induction m as [|[k cs] m IH].
  - rewrite record_sum_nil. unfold combos_of, map_get. simpl.
    rewrite Z.eqb_refl. reflexivity.
  - rewrite record_sum_cons. unfold combos_of, map_get in *. simpl.
    destruct (k =? s) eqn:E; simpl; rewrite E; simpl; auto.
Qed.

Lemma map_get_record_other s s' c m :
  s <> s' -> map_get s (record_sum s' c m) = map_get s m.
Proof.
  intros Hne. induction m as [|[k cs] m IH].
  - rewrite record_sum_nil. unfold map_get. simpl.
    destruct (s' =? s) eqn:E; [lia | reflexivity].
  - rewrite record_sum_cons. unfold map_get in *. simpl.
    destruct (k =? s') eqn:E; simpl.
    + destruct (k =? s) eqn:E'; [lia | reflexivity].
    + destruct (k =? s); simpl; auto.
Qed.

Lemma combos_of_record s s' c m :
  combos_of s (record_sum s' c m) =
  if bool_decide (s' = s) then combos_of s m ++ [c] else combos_of s m.
Proof.
  case_bool_decide as H.
  - subst. unfold combos_of at 1. rewrite map_get_record_same. reflexivity.
  - unfold combos_of. rewrite map_get_record_other by congruence. reflexivity.
Qed.

Lemma combos_of_record_all s trace m :
  combos_of s (record_all trace m) =
  combos_of s m ++ (snd <$> filter (fun e => fst e = s) trace).
Proof.
  revert m. induction trace as [|[s' c] trace IH]; intros m; simpl.
  - rewrite app_nil_r. reflexivity.
  - unfold record_all in *. simpl. rewrite IH, combos_of_record.
    rewrite filter_cons. simpl.
    case_bool_decide; case_decide; try congruence; simpl;
      rewrite <- ?app_assoc; reflexivity.
Qed.

Lemma record_all_app t1 t2 m :
  record_all (t1 ++ t2) m = record_all t2 (record_all t1 m).
Proof. unfold record_all. apply fold_left_app. Qed.

Lemma map_has_elem s (m : SumMap) : map_has s m = true <-> s ∈ (fst <$> m).
Proof.
  unfold map_has. induction m as [|[k cs] m IH]; simpl.
  - split; [discriminate | intros H; inversion H].
  - rewrite orb_true_iff, IH, elem_of_cons, Z.eqb_eq. intuition congruence.
Qed.

Lemma record_sum_keys s c m :
  fst <$> record_sum s c m =
  if map_has s m then fst <$> m else (fst <$> m) ++ [s].
Proof.
  induction m as [|[k cs] m IH].
  - rewrite record_sum_nil. reflexivity.
  - rewrite record_sum_cons. unfold map_has in *. cbn [existsb fst].
    destruct (k =? s) eqn:E; cbn [orb]; [reflexivity|].
    rewrite fmap_cons, IH. destruct (existsb _ m); reflexivity.
Qed.

Lemma record_sum_ok s c m : map_ok m -> map_ok (record_sum s c m).
Proof.
  intros [Hk Hn]. split.
  - rewrite record_sum_keys. destruct (map_has s m) eqn:E; [exact Hk|].
    apply NoDup_app. split; [exact Hk|]. split.
    + intros x Hx Hs. apply list_elem_of_singleton in Hs. subst.
      apply map_has_elem in Hx. congruence.
    + apply NoDup_singleton.
  - clear Hk. induction m as [|[k cs] m IH].
    + rewrite record_sum_nil. repeat constructor. discriminate.
    + rewrite record_sum_cons. inversion Hn; subst.
      destruct (k =? s); constructor; simpl in *; auto.
      intros Hc. apply app_eq_nil in Hc. destruct Hc; discriminate.
Qed.

Lemma record_all_ok trace m : map_ok m -> map_ok (record_all trace m).
Proof.
  revert m. induction trace as [|e trace IH]; intros m Hm; [exact Hm|].
  apply IH, record_sum_ok, Hm.
Qed.

Lemma fold_add_shift (l : list Z) (a : Z) :
  fold_left Z.add l a = a + fold_left Z.add l 0.
Proof.
  revert a. induction l as [|x l IH]; intros a; simpl; [lia|].
  rewrite (IH (a + x)), (IH (0 + x)). lia.
Qed.

Lemma sum_list_cons (x : Z) (l : list Z) : sum_list (x :: l) = x + sum_list l.
Proof.
  unfold sum_list. simpl. rewrite fold_add_shift. lia.
Qed.

Lemma sum_list_app (l1 l2 : list Z) :
  sum_list (l1 ++ l2) = sum_list l1 + sum_list l2.
Proof.
  induction l1 as [|x l1 IH]; [reflexivity|].
  simpl. rewrite !sum_list_cons, IH. lia.
Qed.

Lemma combo_sum_cons vals i v ext :
  vals !! i = Some v -> combo_sum vals (i :: ext) = v + combo_sum vals ext.
Proof.
  intros H. unfold combo_sum. rewrite fmap_cons, sum_list_cons, H. reflexivity.
Qed.

Lemma drop_cons_inv {A} (vals : list A) i v l' :
  v :: l' = drop i vals -> vals !! i = Some v /\ l' = drop (S i) vals.
Proof.
  intros H. split.
  - rewrite <- (Nat.add_0_r i), <- lookup_drop, <- H. reflexivity.
  - replace (S i) with (i + 1)%nat by lia.
    rewrite <- drop_drop, <- H. reflexivity.
Qed.

Section SearchTrace.
Variable maxCubes : nat.
Variable vals : list Z.

Let entry (currentSum : Z) (used ext : list nat) : Z * list nat :=
  (currentSum + combo_sum vals ext, used ++ ext).

Lemma search_trace_both (rest : list Z) :
  (forall startIdx currentSum count used results,
      rest = drop startIdx vals ->
      search maxCubes rest startIdx currentSum count used results =
      record_all (entry currentSum used <$> exts maxCubes rest startIdx count)
                 results) /\
  (forall i currentSum count used res,
      rest = drop i vals ->
      search_loop maxCubes currentSum count used rest i res =
      record_all (entry currentSum used <$> exts_loop maxCubes count rest i)
                 res).
Proof.
  assert (Hstep : forall rest,
    (forall i currentSum count used res,
        rest = drop i vals ->
        search_loop maxCubes currentSum count used rest i res =
        record_all (entry currentSum used <$> exts_loop maxCubes count rest i)
                   res) ->
    forall startIdx currentSum count used results,
      rest = drop startIdx vals ->
      search maxCubes rest startIdx currentSum count used results =
      record_all (entry currentSum used <$> exts maxCubes rest startIdx count)
                 results).
  { intros r Hloop startIdx currentSum count used results Hr.
    rewrite search_unfold, exts_unfold.
    destruct (maxCubes <? count)%nat; [reflexivity|].
    rewrite Hloop by exact Hr.
    destruct (MIN_CUBES_FOR_SUM <=? count)%nat; [|reflexivity].
    rewrite fmap_app, record_all_app. f_equal.
    unfold record_all, entry, combo_sum, sum_list. simpl.
    rewrite Z.add_0_r, app_nil_r. reflexivity. }
  induction rest as [|v l' [IHs IHl]].
  - split; [apply Hstep|]; intros; reflexivity.
  - assert (Hloop : forall i currentSum count used res,
        v :: l' = drop i vals ->
        search_loop maxCubes currentSum count used (v :: l') i res =
        record_all (entry currentSum used <$> exts_loop maxCubes count (v :: l') i)
                   res).
    { intros i currentSum count used res Hr.
      destruct (drop_cons_inv _ _ _ _ Hr) as [Hv Hl'].
      simpl. rewrite IHl by exact Hl'. rewrite IHs by exact Hl'.
      rewrite fmap_app, record_all_app. f_equal. f_equal.
      rewrite <- list_fmap_compose. apply list_fmap_ext.
      intros k ext _. unfold entry. simpl.
      rewrite (combo_sum_cons _ _ _ _ Hv), <- app_assoc. simpl.
      f_equal. lia. }
    split; [apply Hstep|]; exact Hloop.
Qed.

Lemma exts_char_both (rest : list Z) :
  (forall startIdx count ext,
      ext ∈ exts maxCubes rest startIdx count <->
      good_ext maxCubes (length rest) startIdx count ext) /\
  (forall i count ext,
      ext ∈ exts_loop maxCubes count rest i <->
      ext <> [] /\ good_ext maxCubes (length rest) i count ext).
Proof.
  assert (Hstep : forall rest,
    (forall i count ext,
        ext ∈ exts_loop maxCubes count rest i <->
        ext <> [] /\ good_ext maxCubes (length rest) i count ext) ->
    forall startIdx count ext,
      ext ∈ exts maxCubes rest startIdx count <->
      good_ext maxCubes (length rest) startIdx count ext).
  { intros r Hloop startIdx count ext. rewrite exts_unfold.
    unfold good_ext, MIN_CUBES_FOR_SUM in *.
    destruct (Nat.ltb_spec maxCubes count) as [Hlt|Hge].
    - split; [intros H; inversion H | intros (_ & _ & H); lia].
    - rewrite elem_of_app, Hloop.
      destruct (Nat.leb_spec 2 count) as [H2|H2].
      + rewrite list_elem_of_singleton. split.
        * intros [->|[_ H]]; [|exact H]. simpl. repeat split; auto; lia.
        * intros H. destruct ext; [left; reflexivity | right; split; [discriminate | exact H]].
      + split.
        * intros [H|[_ H]]; [inversion H | exact H].
        * intros H. right. split; [|exact H].
          destruct H as (_ & _ & H). destruct ext; [simpl in H; lia | discriminate]. }
  induction rest as [|v l' [IHs IHl]].
  - assert (Hloop : forall i count ext,
        ext ∈ exts_loop maxCubes count [] i <->
        ext <> [] /\ good_ext maxCubes (length (@nil Z)) i count ext).
    { intros i count ext. simpl. split; [intros H; inversion H|].
      intros [Hne (Hinc & Hall & _)]. destruct ext as [|j e']; [congruence|].
      simpl in Hinc. inversion Hall; subst. lia. }
    split; [apply Hstep|]; exact Hloop.
  - assert (Hloop : forall i count ext,
        ext ∈ exts_loop maxCubes count (v :: l') i <->
        ext <> [] /\ good_ext maxCubes (length (v :: l')) i count ext).
    { intros i count ext. simpl. rewrite elem_of_app, list_elem_of_fmap, IHl.
      unfold good_ext, MIN_CUBES_FOR_SUM in *. split.
      - intros [(e' & -> & He')|[Hne (Hinc & Hall & Hlen)]].
        + apply IHs in He'. destruct He' as (Hinc & Hall & Hlen).
          split; [discriminate|]. simpl. repeat split; auto; try lia.
          constructor; [lia|]. eapply Forall_impl; [exact Hall|].
          simpl. intros; lia.
        + split; [exact Hne|]. destruct ext as [|j e']; [congruence|].
          simpl in *. destruct Hinc as [Hj Hinc]. repeat split; auto; try lia.
          eapply Forall_impl; [exact Hall|]. simpl. intros; lia.
      - intros [Hne (Hinc & Hall & Hlen)].
        destruct ext as [|j e']; [congruence|]. simpl in *.
        destruct Hinc as [Hj Hinc]. inversion Hall as [|? ? Hjlt Hall']; subst.
        destruct (decide (j = i)) as [->|Hji].
        + left. exists e'. split; [reflexivity|]. apply IHs.
          repeat split; auto; try lia.
          eapply Forall_impl; [exact Hall'|]. simpl. intros; lia.
        + right. split; [discriminate|]. repeat split; auto; try lia.
          constructor; [lia|].
          eapply Forall_impl; [exact Hall'|]. simpl. intros; lia. }
    split; [apply Hstep|]; exact Hloop.
Qed.

Lemma exts_NoDup_both (rest : list Z) :
  (forall startIdx count, NoDup (exts maxCubes rest startIdx count)) /\
  (forall i count, NoDup (exts_loop maxCubes count rest i)).
Proof.
  assert (Hstep : forall rest,
    (forall i count, NoDup (exts_loop maxCubes count rest i)) ->
    forall startIdx count, NoDup (exts maxCubes rest startIdx count)).
  { intros r Hloop startIdx count. rewrite exts_unfold.
    destruct (maxCubes <? count)%nat; [constructor|].
    destruct (MIN_CUBES_FOR_SUM <=? count)%nat; [|apply Hloop].
    simpl. constructor; [|apply Hloop].
    intros H. apply (proj2 (exts_char_both r)) in H. destruct H as [H _].
    congruence. }
  induction rest as [|v l' [IHs IHl]].
  - split; [apply Hstep|]; intros; constructor.
  - assert (Hloop : forall i count, NoDup (exts_loop maxCubes count (v :: l') i)).
    { intros i count. simpl. apply NoDup_app. split; [|split].
      - apply NoDup_fmap_2; [|apply IHs]. intros x y H. congruence.
      - intros ext H1 H2. apply list_elem_of_fmap in H1.
        destruct H1 as (e' & -> & _).
        apply (proj2 (exts_char_both l')) in H2.
        destruct H2 as [_ (Hinc & _)]. simpl in Hinc. lia.
      - apply IHl. }
    split; [apply Hstep|]; exact Hloop.
Qed.
End SearchTrace.

Lemma increasing_from_sorted (lo : nat) (c : list nat) :
  increasing_from lo c <->
  Forall (fun j : nat => (lo <= j)%nat) c /\ StronglySorted Nat.lt c.
Proof.
  revert lo. induction c as [|i c IH]; intros lo; simpl.
  - split; [intros _; split; constructor | trivial].
  - rewrite IH. split.
    + intros (Hlo & Hall & Hs). split.
      * constructor; [exact Hlo|]. eapply Forall_impl; [exact Hall|].
        simpl. intros; lia.
      * constructor; [exact Hs|]. eapply Forall_impl; [exact Hall|].
        simpl. unfold Nat.lt. intros; lia.
    + intros (Hall & Hs). inversion Hall; subst. inversion Hs; subst.
      repeat split; auto.
Qed.

Lemma good_ext_top (vals : list Z) (c : list nat) :
  good_ext MAX_CUBES_FOR_SUM (length vals) 0 0 c <->
  is_combination vals MIN_CUBES_FOR_SUM MAX_CUBES_FOR_SUM c.
Proof.
  unfold good_ext, is_combination. rewrite increasing_from_sorted. simpl.
  split.
  - intros ((_ & Hs) & Hall & Hlen). auto.
  - intros (Hs & Hall & Hlen). repeat split; auto; try lia.
    apply Forall_forall. intros; lia.
Qed.

Lemma findAllPossibleSums_trace (vals : list Z) (maxCubes : nat) :
  findAllPossibleSums vals maxCubes =
  record_all ((fun c => (combo_sum vals c, c)) <$> exts maxCubes vals 0 0) [].
Proof.
  unfold findAllPossibleSums.
  rewrite (proj1 (search_trace_both maxCubes vals vals)) by reflexivity.
  reflexivity.
Qed.

Lemma combos_of_findAllPossibleSums (vals : list Z) (maxCubes : nat) (s : Z) :
  combos_of s (findAllPossibleSums vals maxCubes) =
  filter (fun c => combo_sum vals c = s) (exts maxCubes vals 0 0).
Proof.
  rewrite findAllPossibleSums_trace, combos_of_record_all.
  unfold combos_of, map_get. cbn [find fmap option_fmap option_map default app].
  induction (exts maxCubes vals 0 0) as [|c l IH]; [reflexivity|].
  rewrite fmap_cons, !filter_cons. cbn [fst snd].
  destruct (decide (combo_sum vals c = s)); [rewrite fmap_cons|];
    rewrite IH; reflexivity.
Qed.

Lemma findAllPossibleSums_ok (vals : list Z) (maxCubes : nat) :
  map_ok (findAllPossibleSums vals maxCubes).
Proof.
  rewrite findAllPossibleSums_trace. apply record_all_ok.
  split; constructor.
Qed.

Lemma map_get_elem (m : SumMap) (s : Z) (cs : list (list nat)) :
  NoDup (fst <$> m) -> ((s, cs) ∈ m <-> map_get s m = Some cs).
Proof.
  unfold map_get. induction m as [|[k old] m IH]; simpl; intros Hnd.
  - split; [intros H; inversion H | discriminate].
  - apply NoDup_cons in Hnd. destruct Hnd as [Hk Hnd].
    rewrite elem_of_cons, (IH Hnd). destruct (k =? s) eqn:E; simpl.
    + apply Z.eqb_eq in E. subst k. split.
      * intros [H|H]; [congruence|]. exfalso. apply Hk.
        apply list_elem_of_fmap. exists (s, cs). split; [reflexivity|].
        apply (IH Hnd). exact H.
      * intros H. left. congruence.
    + apply Z.eqb_neq in E. split.
      * intros [H|H]; [congruence | exact H].
      * auto.
Qed.

(** C2. [findAllPossibleSums] with the default bounds (2 to 5 cubes)
    returns a map with distinct keys in which the array listed under a sum
    [s] holds exactly the strictly increasing lists of positions, of length
    2 to 5, whose values add up to [s], each of them once; a sum is a key
    exactly when such a list exists, so every such list is listed. *)
Theorem findAllPossibleSums_exact (vals : list Z) :
  let m := findAllPossibleSums vals MAX_CUBES_FOR_SUM in
  NoDup (fst <$> m) /\
  (forall s cs, (s, cs) ∈ m ->
     NoDup cs /\
     forall c, c ∈ cs <->
       is_combination vals MIN_CUBES_FOR_SUM MAX_CUBES_FOR_SUM c /\
       combo_sum vals c = s) /\
  (forall c, is_combination vals MIN_CUBES_FOR_SUM MAX_CUBES_FOR_SUM c ->
     exists cs, (combo_sum vals c, cs) ∈ m /\ c ∈ cs).
Proof.
  intros m. destruct (findAllPossibleSums_ok vals MAX_CUBES_FOR_SUM) as [Hk Hne].
  fold m in Hk, Hne.
  assert (Hchar : forall s c, c ∈ combos_of s m <->
            is_combination vals MIN_CUBES_FOR_SUM MAX_CUBES_FOR_SUM c /\
            combo_sum vals c = s).
  { intros s c. unfold m. rewrite combos_of_findAllPossibleSums.
    rewrite list_elem_of_filter.
    rewrite (proj1 (exts_char_both MAX_CUBES_FOR_SUM vals)), good_ext_top.
    tauto. }
  split; [exact Hk|]. split.
  - intros s cs Hin. apply (map_get_elem _ _ _ Hk) in Hin.
    assert (Hcs : combos_of s m = cs) by (unfold combos_of; rewrite Hin; reflexivity).
    rewrite <- Hcs. split; [|apply Hchar].
    unfold m. rewrite combos_of_findAllPossibleSums.
    apply NoDup_filter, (proj1 (exts_NoDup_both MAX_CUBES_FOR_SUM vals)).
  - intros c Hc. assert (Hin : c ∈ combos_of (combo_sum vals c) m)
      by (apply Hchar; auto).
    unfold combos_of in Hin.
    destruct (map_get (combo_sum vals c) m) as [cs|] eqn:E; simpl in Hin.
    + exists cs. split; [|exact Hin]. apply (map_get_elem _ _ _ Hk). exact E.
    + inversion Hin.
Qed.

(** The example of the specification: the values [2, 3, 5, 7]. *)
Example findAllPossibleSums_2357 :
  findAllPossibleSums [2; 3; 5; 7] MAX_CUBES_FOR_SUM =
  [ (5, [[0; 1]%nat]); (10, [[0; 1; 2]%nat; [1; 3]%nat]);
    (17, [[0; 1; 2; 3]%nat]); (12, [[0; 1; 3]%nat; [2; 3]%nat]);
    (7, [[0; 2]%nat]); (14, [[0; 2; 3]%nat]); (9, [[0; 3]%nat]);
    (8, [[1; 2]%nat]); (15, [[1; 2; 3]%nat]) ].
Proof. vm_compute. reflexivity. Qed.

(** ** Settling a column *)

Lemma settle_from_length i col : length (settle_from i col) = length col.
Proof.
  revert i. induction col as [|c col IH]; intros i; simpl; [reflexivity|].
  rewrite IH. reflexivity.
Qed.

Lemma settle_from_rows i col :
  row <$> settle_from i col = (fun k => Z.of_nat (i + k)) <$> seq 0 (length col).
Proof.
  revert i. induction col as [|c col IH]; intros i; [reflexivity|].
  cbn [settle_from length seq]. rewrite !fmap_cons, IH. f_equal.
  - rewrite Nat.add_0_r. destruct (Z.eqb_spec (row c) (Z.of_nat i)); [auto | reflexivity].
  - rewrite <- seq_shift, <- list_fmap_compose. apply list_fmap_ext.
    intros _ k _. simpl. f_equal. lia.
Qed.

Lemma settle_from_lookup i col k c :
  col !! k = Some c ->
  exists c', settle_from i col !! k = Some c' /\
    (row c = Z.of_nat (i + k) -> c' = c) /\
    (row c <> Z.of_nat (i + k) ->
       falling c' = true /\ fallFrom c' = row c /\ fallTo c' = Z.of_nat (i + k) /\
       row c' = Z.of_nat (i + k) /\ fallProgress c' = 0%Q /\
       value c' = value c /\ column c' = column c /\ selected c' = selected c /\
       removing c' = removing c).
Proof.
  revert i k. induction col as [|x col IH]; intros i k Hk; [destruct k; discriminate|].
  destruct k as [|k]; simpl in *.
  - inversion Hk; subst x. rewrite Nat.add_0_r.
    destruct (Z.eqb_spec (row c) (Z.of_nat i)) as [E|E].
    + exists c. repeat split; auto; congruence.
    + eexists. split; [reflexivity|]. split; [congruence|].
      intros _. simpl. repeat split; reflexivity.
  - destruct (IH (S i) k Hk) as (c' & Hc' & H1 & H2).
    exists c'. replace (i + S k)%nat with (S i + k)%nat by lia. auto.
Qed.

(** C8. [_settleColumn] on a column of the board returns, and afterwards
    the row fields of that column read 0, 1, ..., length - 1 in array order
    (the column keeps its length); a cube whose row was already its position
    is untouched, and a cube whose row changed is falling, from its old row
    to its new row. The other columns are untouched. *)
Theorem settleColumn_contiguous (w : World) (colIdx : nat) (col : list Cube) :
  columns w !! colIdx = Some col ->
  exists w' col',
    _settleColumn colIdx w = Ok (tt, w') /\
    columns w' !! colIdx = Some col' /\
    length col' = length col /\
    row <$> col' = Z.of_nat <$> seq 0 (length col') /\
    (forall k c, col !! k = Some c ->
       exists c', col' !! k = Some c' /\
         (row c = Z.of_nat k -> c' = c) /\
         (row c <> Z.of_nat k ->
            falling c' = true /\ fallFrom c' = row c /\
            fallTo c' = Z.of_nat k /\ row c' = Z.of_nat k)) /\
    (forall j, j <> colIdx -> columns w' !! j = columns w !! j).
Proof.
  intros Hcol. unfold _settleColumn, bind, get_world, modify. rewrite Hcol. simpl.
  eexists _, (settle_from 0 col). split; [reflexivity|]. simpl.
  split; [apply list_lookup_insert_eq; eapply lookup_lt_Some; eauto|].
  split; [apply settle_from_length|].
  split; [rewrite settle_from_rows, settle_from_length; reflexivity|].
  split.
  - intros k c Hk. destruct (settle_from_lookup 0 col k c Hk) as (c' & Hc' & H1 & H2).
    exists c'. simpl in *. split; [exact Hc'|]. split; [exact H1|].
    intros Hne. destruct (H2 Hne) as (? & ? & ? & ? & _). auto.
  - intros j Hj. apply list_lookup_insert_ne. congruence.
Qed.

Lemma settleColumn_contiguous_witness :
  columns gap_world !! 0%nat = Some gap_column /\
  exists w' col',
    _settleColumn 0 gap_world = Ok (tt, w') /\
    columns w' !! 0%nat = Some col' /\
    length col' = length gap_column /\
    row <$> col' = Z.of_nat <$> seq 0 (length col') /\
    (forall k c, gap_column !! k = Some c ->
       exists c', col' !! k = Some c' /\
         (row c = Z.of_nat k -> c' = c) /\
         (row c <> Z.of_nat k ->
            falling c' = true /\ fallFrom c' = row c /\
            fallTo c' = Z.of_nat k /\ row c' = Z.of_nat k)) /\
    (forall j, j <> 0%nat -> columns w' !! j = columns gap_world !! j).
Proof.
  split; [reflexivity|].
  apply (settleColumn_contiguous gap_world 0 gap_column).
  reflexivity.
Defined.

(** ** Spawning on a full board *)

Lemma candidates_full (f : nat -> nat -> list nat) (heights : list nat) :
  (forall i h, (MAX_COLUMN_HEIGHT <= h)%nat -> f i h = []) ->
  Forall (fun h => (MAX_COLUMN_HEIGHT <= h)%nat) heights ->
  concat (imap f heights) = [].
Proof.
  intros Hf Hall. revert f Hf.
  induction Hall as [|h heights Hh _ IH]; intros f Hf; [reflexivity|].
  rewrite imap_cons. simpl. rewrite (Hf 0%nat h Hh). simpl.
  apply IH. intros i h' Hh'. apply Hf, Hh'.
Qed.

Lemma checkGameOver_full (w : World) :
  Forall (fun col => length col = MAX_COLUMN_HEIGHT) (columns w) ->
  _checkGameOver w = true.
Proof.
  intros Hall. unfold _checkGameOver. apply forallb_forall.
  intros col Hin. apply Nat.leb_le.
  rewrite Forall_forall in Hall. rewrite (Hall col); [lia|].
  apply list_elem_of_In. exact Hin.
Qed.

(** C7. When each of the 4 columns holds exactly 8 cubes, [_spawnNextCube]
    returns after calling [gameOver] once: the game stops, one game-over
    notice goes out, and the columns, the queues, the planned cubes and the
    rest of the game fields are what they were. *)
Theorem spawn_on_full_board (w : World) :
  length (columns w) = NUM_COLUMNS ->
  Forall (fun col => length col = MAX_COLUMN_HEIGHT) (columns w) ->
  exists w',
    _spawnNextCube w = Ok (tt, w') /\
    columns w' = columns w /\ queues w' = queues w /\
    plannedCubes w' = plannedCubes w /\ targets w' = targets w /\
    score w' = score w /\ level w' = level w /\
    comboCount w' = comboCount w /\
    isPlaying w' = false /\
    events w' = events w ++ [EvGameOver (score w) (level w) (comboCount w)].
Proof.
  intros Hlen Hfull.
  unfold _spawnNextCube, chooseColumn.
  unfold bind at 1. unfold bind at 1. unfold get_world at 1.
  rewrite candidates_full.
  2:{ intros i h Hh. apply Nat.leb_le in Hh. rewrite Hh. reflexivity. }
  2:{ apply Forall_fmap. eapply Forall_impl; [exact Hfull|].
      simpl. intros col ->. lia. }
  unfold randomInt, Math_random, bind, ret, get_world. simpl.
  set (c := floor_mul _ _).
  assert (Hc : 0 <= c < 4).
  { pose proof (floor_mul_range (rnd_source w (rnd_next w)) 4 ltac:(lia)) as H.
    exact H. }
  destruct (lookup_lt_is_Some_2 (columns w) (Z.to_nat (c + 0))) as [col Hcol].
  { rewrite Hlen. unfold NUM_COLUMNS. lia. }
  rewrite Hcol. simpl.
  assert (Hl : length col = MAX_COLUMN_HEIGHT).
  { rewrite Forall_forall in Hfull. apply Hfull.
    eapply list_elem_of_lookup_2; eauto. }
  rewrite Hl. simpl.
  rewrite (checkGameOver_full (set_rnd_next (S (rnd_next w)) w)) by exact Hfull.
  eexists. split; [reflexivity|]. simpl. repeat split; reflexivity.
Qed.

Lemma spawn_on_full_board_witness :
  length (columns full_world) = NUM_COLUMNS /\
  Forall (fun col => length col = MAX_COLUMN_HEIGHT) (columns full_world) /\
  exists w',
    _spawnNextCube full_world = Ok (tt, w') /\
    columns w' = columns full_world /\ queues w' = queues full_world /\
    plannedCubes w' = plannedCubes full_world /\
    targets w' = targets full_world /\
    score w' = score full_world /\ level w' = level full_world /\
    comboCount w' = comboCount full_world /\
    isPlaying w' = false /\
    events w' = events full_world ++
                [EvGameOver (score full_world) (level full_world)
                            (comboCount full_world)].
Proof.
  assert (H1 : length (columns full_world) = NUM_COLUMNS) by reflexivity.
  assert (H2 : Forall (fun col => length col = MAX_COLUMN_HEIGHT)
                      (columns full_world))
    by (repeat constructor).
  split; [exact H1|]. split; [exact H2|].
  exact (spawn_on_full_board full_world H1 H2).
Defined.

(** ** Selecting a cube that is being removed or is falling *)

(** [toggleCubeSelection] called on a cube that is falling (and not being
    removed) returns with the cube selected: the world has changed. *)
Lemma toggle_falling_counterexample :
  exists cube w',
    deref falling_world (0, 1)%nat = Some cube /\
    falling cube = true /\ selected cube = false /\
    toggleCubeSelection 0%Q 0 1 falling_world = Ok (tt, w') /\
    (selected <$> deref w' (0, 1)%nat) = Some true /\
    w' <> falling_world.
Proof.
  eexists _, _. split; [reflexivity|]. split; [reflexivity|].
  split; [reflexivity|]. split; [vm_compute; reflexivity|].
  split; [reflexivity|].
  intros H. apply (f_equal columns) in H. discriminate H.
Qed.

(** C5, amended. A call of [toggleCubeSelection] on a cube that is being
    removed changes nothing and raises nothing. A tap on a cube that is
    being removed or is falling changes nothing either: the tap handler
    [_handleTap] returns before it calls [toggleCubeSelection]. *)
Theorem selection_ignored (w : World) (now : Q) (colIdx rowIdx : nat)
    (cube : Cube) :
  (colIdx < NUM_COLUMNS)%nat ->
  deref w (colIdx, rowIdx) = Some cube ->
  (removing cube = true ->
     toggleCubeSelection now colIdx rowIdx w = Ok (tt, w)) /\
  (removing cube = true \/ falling cube = true ->
     _handleTap now (Z.of_nat colIdx) (Z.of_nat rowIdx) w = Ok (tt, w)).
Proof.
  intros Hcol Hd. unfold deref in Hd. simpl in Hd.
  destruct (columns w !! colIdx) as [col|] eqn:Ecol; [|discriminate].
  simpl in Hd. split.
  - intros Hrem. unfold toggleCubeSelection, bind, get_world.
    rewrite Ecol. simpl. rewrite Hd, Hrem. reflexivity.
  - intros Hor. unfold _handleTap, bind, get_world.
    unfold NUM_COLUMNS in *.
    destruct (Z.ltb_spec (Z.of_nat colIdx) 0); [lia|].
    destruct (Z.leb_spec (Z.of_nat 4) (Z.of_nat colIdx)); [lia|]. simpl.
    rewrite Nat2Z.id, Ecol.
    assert (Hlt : (rowIdx < length col)%nat) by (eapply lookup_lt_Some; eauto).
    destruct (Nat.eqb_spec (length col) 0); [lia|].
    destruct (Z.ltb_spec (Z.of_nat rowIdx) 0); [lia|].
    destruct (Z.leb_spec (Z.of_nat (length col)) (Z.of_nat rowIdx)); [lia|].
    simpl. rewrite Nat2Z.id, Hd.
    destruct Hor as [-> | ->]; simpl; [|rewrite andb_false_r]; reflexivity.
Qed.

Lemma selection_ignored_witness :
  (0 < NUM_COLUMNS)%nat /\
  deref removing_world (0, 1)%nat = Some (set_removing true (resting 4 0 1)) /\
  (removing (set_removing true (resting 4 0 1)) = true ->
     toggleCubeSelection 0%Q 0 1 removing_world = Ok (tt, removing_world)) /\
  (removing (set_removing true (resting 4 0 1)) = true \/
   falling (set_removing true (resting 4 0 1)) = true ->
     _handleTap 0%Q (Z.of_nat 0) (Z.of_nat 1) removing_world
     = Ok (tt, removing_world)).
Proof.
  assert (H1 : (0 < NUM_COLUMNS)%nat) by (unfold NUM_COLUMNS; lia).
  assert (H2 : deref removing_world (0, 1)%nat
               = Some (set_removing true (resting 4 0 1))) by reflexivity.
  split; [exact H1|]. split; [exact H2|].
  exact (selection_ignored removing_world 0%Q 0 1 _ H1 H2).
Defined.

(** ** Planned cubes come first, in FIFO order *)

(** In a fresh game the first target generation plans 1 and 1 into columns
    1 and 3; the second one takes the fallback path again and plants 4 and
    6 into columns 1 and 3; the next value for column 1 is then the older
    planned cube 1, not 4. *)
Lemma planned_priority_counterexample :
  exists w1 w2 w3,
    generateTarget replant_world = Ok (5, w1) /\
    plannedCubes w1 = [[]; [1]; []; [1]] /\
    generateTarget w1 = Ok (10, w2) /\
    (exists wa wb,
        plannedCubes wa = plannedCubes w1 /\
        plan_values [1; 3; 2; 0]%nat [4; 6] 0 wa = Ok (tt, wb) /\
        plannedCubes wb = plannedCubes w2) /\
    plannedCubes w2 = [[]; [1; 4]; []; [1; 6]] /\
    generateNextCubeValue 1 w2 = Ok (1, w3) /\
    1 <> 4.
Proof.
  eexists _, _, _.
  split; [vm_compute; reflexivity|]. split; [reflexivity|].
  split; [vm_compute; reflexivity|].
  split.
  { exists (set_plannedCubes [[]; [1]; []; [1]] replant_world). eexists.
    split; [reflexivity|]. split; [vm_compute; reflexivity|]. reflexivity. }
  split; [reflexivity|]. split; [vm_compute; reflexivity|]. discriminate.
Qed.

Lemma generateNextCubeValue_planned (w : World) (colIndex : nat) (v : Z)
    (rest : list Z) :
  plannedCubes w !! colIndex = Some (v :: rest) ->
  generateNextCubeValue colIndex w =
  Ok (v, set_plannedCubes (<[colIndex := rest]> (plannedCubes w)) w).
Proof.
  intros H. unfold generateNextCubeValue, bind, get_world. rewrite H.
  reflexivity.
Qed.

(** C6, amended. When the planned-cube FIFO of a column is not empty,
    [generateNextCubeValue] on that column returns its head and removes it,
    and touches nothing else: no random draw is made, whatever the board,
    the targets and the level are. When values 4 and 6 are planted into
    columns 1 and 3 whose FIFOs were empty, the next
    [generateNextCubeValue(1)] returns 4 and the next
    [generateNextCubeValue(3)] returns 6, and both FIFOs are empty again;
    in a FIFO that was not empty the older planned cubes come out first. *)
Theorem planned_priority :
  (forall (w : World) (colIndex : nat) (v : Z) (rest : list Z),
      plannedCubes w !! colIndex = Some (v :: rest) ->
      generateNextCubeValue colIndex w =
      Ok (v, set_plannedCubes (<[colIndex := rest]> (plannedCubes w)) w)) /\
  (forall (w : World) (cols : list nat),
      plannedCubes w !! 1%nat = Some [] ->
      plannedCubes w !! 3%nat = Some [] ->
      exists w1 w2 w3,
        plan_values (1 :: 3 :: cols)%nat [4; 6] 0 w = Ok (tt, w1) /\
        generateNextCubeValue 1 w1 = Ok (4, w2) /\
        generateNextCubeValue 3 w2 = Ok (6, w3) /\
        w3 = set_plannedCubes (plannedCubes w3) w /\
        plannedCubes w3 !! 1%nat = Some [] /\
        plannedCubes w3 !! 3%nat = Some []) /\
  (forall (w : World) (old : list Z) (colIdx : nat) (val : Z),
      plannedCubes w !! colIdx = Some old ->
      exists w1, plan_cube colIdx val w = Ok (tt, w1) /\
                 plannedCubes w1 !! colIdx = Some (old ++ [val])).
Proof.
  split; [exact generateNextCubeValue_planned|]. split.
  - intros w cols H1 H3.
    assert (L1 : (1 < length (plannedCubes w))%nat) by (eapply lookup_lt_Some; eauto).
    assert (L3 : (3 < length (plannedCubes w))%nat) by (eapply lookup_lt_Some; eauto).
    eexists _, _, _. split.
    { unfold plan_values, plan_cube, bind, get_world, modify. simpl.
      rewrite H1. simpl. rewrite list_lookup_insert_ne by lia. rewrite H3.
      simpl. reflexivity. }
    split.
    { apply generateNextCubeValue_planned. simpl.
      rewrite list_lookup_insert_ne by lia.
      rewrite list_lookup_insert_eq by lia. reflexivity. }
    split.
    { apply generateNextCubeValue_planned. simpl.
      rewrite list_lookup_insert_ne by lia.
      rewrite list_lookup_insert_eq by (rewrite length_insert; lia). reflexivity. }
    simpl. split; [reflexivity|]. split.
    + rewrite list_lookup_insert_ne by lia.
      rewrite list_lookup_insert_eq by (rewrite !length_insert; lia). reflexivity.
    + rewrite list_lookup_insert_eq by (rewrite !length_insert; lia). reflexivity.
  - intros w old colIdx val H. eexists. split.
    + unfold plan_cube, bind, get_world, modify. rewrite H. simpl. reflexivity.
    + simpl. apply list_lookup_insert_eq. eapply lookup_lt_Some; eauto.
Qed.

Lemma planned_priority_witness :
  (plannedCubes replant_world !! 1%nat = Some [] /\
   plannedCubes replant_world !! 3%nat = Some []) /\
  exists w1 w2 w3,
    plan_values [1; 3; 2; 0]%nat [4; 6] 0 replant_world = Ok (tt, w1) /\
    generateNextCubeValue 1 w1 = Ok (4, w2) /\
    generateNextCubeValue 3 w2 = Ok (6, w3) /\
    w3 = set_plannedCubes (plannedCubes w3) replant_world /\
    plannedCubes w3 !! 1%nat = Some [] /\
    plannedCubes w3 !! 3%nat = Some [].
Proof.
  split; [split; reflexivity|].
  exact (proj1 (proj2 planned_priority) replant_world [2; 0]%nat
               eq_refl eq_refl).
Defined.

(** ** Fallback targets *)

(** C1. In a fresh game whose random draws are all 0, the first target
    generation takes the fallback path, plans the values 1 and 1 (sum 2) and
    returns the target 5, the sum clamped up to [MIN_TARGET]: no combination
    of the cubes on the board, queued or planned reaches 5. With draws that
    choose three cubes of value 6 (sum 18) the returned target is 15, the
    sum clamped down to the level's [maxTarget]. *)
Theorem fallback_target_clamped :
  (exists w1,
      generateTarget zero_world = Ok (5, w1) /\
      plannedCubes w1 = [[]; [1]; [1]; []] /\
      sum_list (concat (plannedCubes w1)) = 2 /\
      map_has 5 (findAllPossibleSums
                   (_getAllCubeValues w1 ++ _getUpcomingCubeValues w1)
                   MAX_CUBES_FOR_SUM) = false) /\
  (exists w1,
      generateTarget high_world = Ok (15, w1) /\
      plannedCubes w1 = [[]; [6]; [6]; [6]] /\
      sum_list (concat (plannedCubes w1)) = 18).
Proof.
  split.
  - eexists. split; [vm_compute; reflexivity|]. repeat split; reflexivity.
  - eexists. split; [vm_compute; reflexivity|]. repeat split; reflexivity.
Qed.

(** ** Choosing a sum by difficulty *)

(** Over the cubes 2, 3, 1, 4 the sum 6 is reached by two cubes (2 + 4) and
    by three (2 + 3 + 1): it sits in the 2-cube pool and in the 3-cube pool,
    and a roll of 1/2 can return it although its smallest combination has
    two cubes. Over the cubes 2, 2, 2, 2 the 2-cube pool is empty (4 is
    below the smallest target), and a roll of 1/10 draws from the 3-cube
    pool, not from the full valid set. *)
Lemma difficulty_pools_counterexample :
  (exists e, e ∈ by2 (valid_sums_of [2; 3; 1; 4]) /\
             e ∈ by3 (valid_sums_of [2; 3; 1; 4]) /\
             fst e = 6 /\ min_combo_size e = 2%nat) /\
  (exists w',
      _chooseSumByDifficulty (valid_sums_of [2; 3; 1; 4])
        (new_game (stream_of [mkRand 1 1])) = Ok (6, w')) /\
  choose_pool (5 # 10) (valid_sums_of [2; 3; 1; 4]) <>
  spec_choose_pool (5 # 10) (valid_sums_of [2; 3; 1; 4]) /\
  by2 (valid_sums_of [2; 2; 2; 2]) = [] /\
  fst <$> valid_sums_of [2; 2; 2; 2] = [6; 8] /\
  fst <$> choose_pool (1 # 10) (valid_sums_of [2; 2; 2; 2]) = [6] /\
  fst <$> spec_choose_pool (1 # 10) (valid_sums_of [2; 2; 2; 2]) = [6; 8].
Proof.
  split.
  { exists (6, [[0; 1; 2]; [0; 3]]%nat). vm_compute.
    repeat split; try reflexivity.
    - apply list_elem_of_In. simpl. tauto.
    - apply list_elem_of_In. simpl. tauto. }
  split; [eexists; vm_compute; reflexivity|].
  split; [vm_compute; discriminate|].
  repeat split; vm_compute; reflexivity.
Qed.

Lemma choose_pool_nonempty (roll : Q) (validSums : list SumEntry) :
  validSums <> [] -> choose_pool roll validSums <> [].
Proof.
  intros Hne. unfold choose_pool.
  destruct (Qltb roll (4 # 10)); simpl.
  - destruct (by2 validSums) eqn:E2; simpl; [|discriminate].
    destruct (Qltb roll (8 # 10)); simpl.
    + destruct (by3 validSums) eqn:E3; simpl; [|discriminate].
      destruct (by4 validSums) eqn:E4; simpl; [exact Hne | discriminate].
    + destruct (by4 validSums) eqn:E4; simpl; [exact Hne | discriminate].
  - destruct (Qltb roll (8 # 10)); simpl.
    + destruct (by3 validSums) eqn:E3; simpl; [|discriminate].
      destruct (by4 validSums) eqn:E4; simpl; [exact Hne | discriminate].
    + destruct (by4 validSums) eqn:E4; simpl; [exact Hne | discriminate].
Qed.

Lemma choose_pool_cases (roll : Q) (validSums : list SumEntry) :
  (Qltb roll (4 # 10) = true /\ by2 validSums <> [] /\
   choose_pool roll validSums = by2 validSums) \/
  ((Qltb roll (4 # 10) = false \/ by2 validSums = []) /\
   Qltb roll (8 # 10) = true /\ by3 validSums <> [] /\
   choose_pool roll validSums = by3 validSums) \/
  ((Qltb roll (4 # 10) = false \/ by2 validSums = []) /\
   (Qltb roll (8 # 10) = false \/ by3 validSums = []) /\
   by4 validSums <> [] /\ choose_pool roll validSums = by4 validSums) \/
  ((Qltb roll (4 # 10) = false \/ by2 validSums = []) /\
   (Qltb roll (8 # 10) = false \/ by3 validSums = []) /\
   by4 validSums = [] /\ choose_pool roll validSums = validSums).
Proof.
  unfold choose_pool.
  destruct (Qltb roll (4 # 10)), (Qltb roll (8 # 10));
    destruct (by2 validSums) eqn:E2, (by3 validSums) eqn:E3,
             (by4 validSums) eqn:E4; simpl;
    try (left; repeat split; (reflexivity || discriminate));
    try (right; left; repeat split; (auto || discriminate); fail);
    try (right; right; left; repeat split; (auto || discriminate); fail);
    try (right; right; right; repeat split; auto; fail).
Qed.

(** C4, amended. On the search path the valid sums are put into three pools
    that may overlap: the sums that have some combination of exactly 2
    cubes, of exactly 3 cubes, of at least 4 cubes. With the roll [r],
    [_chooseSumByDifficulty] draws from the 2-cube pool when [r < 0.4] and
    that pool is not empty; else from the 3-cube pool when [r < 0.8] and
    that pool is not empty; else from the 4-plus pool when it is not empty;
    else from the full valid set. It always returns, and the sum it returns
    belongs to the valid sums. *)
Theorem chooseSum_pools (validSums : list SumEntry) (w : World) :
  validSums <> [] ->
  exists e w',
    _chooseSumByDifficulty validSums w = Ok (fst e, w') /\
    e ∈ validSums /\
    e ∈ choose_pool (next_draw w) validSums /\
    (Qltb (next_draw w) (4 # 10) = true -> by2 validSums <> [] ->
       has_combo (Nat.eqb 2) e = true) /\
    (Qltb (next_draw w) (4 # 10) = false \/ by2 validSums = [] ->
     Qltb (next_draw w) (8 # 10) = true -> by3 validSums <> [] ->
       has_combo (Nat.eqb 3) e = true) /\
    (Qltb (next_draw w) (4 # 10) = false \/ by2 validSums = [] ->
     Qltb (next_draw w) (8 # 10) = false \/ by3 validSums = [] ->
     by4 validSums <> [] ->
       has_combo (Nat.leb 4) e = true) /\
    (Qltb (next_draw w) (4 # 10) = false \/ by2 validSums = [] ->
     Qltb (next_draw w) (8 # 10) = false \/ by3 validSums = [] ->
     by4 validSums = [] ->
       choose_pool (next_draw w) validSums = validSums).
Proof.
  intros Hne.
  assert (Hrun : total (_chooseSumByDifficulty validSums) w
            (fun s w' => exists e, s = fst e /\
                                   e ∈ choose_pool (next_draw w) validSums)).
  { unfold _chooseSumByDifficulty. apply total_bind, total_random.
    fold (next_draw w). apply total_bind, total_randomChoice.
    - apply choose_pool_nonempty, Hne.
    - intros x w' Hx _ _. apply total_bind.
      eapply total_defined; [reflexivity|]. apply total_ret. eauto. }
  apply total_run in Hrun. destruct Hrun as (s & w' & Hrun & e & -> & He).
  exists e, w'. split; [exact Hrun|].
  assert (Hin : e ∈ validSums).
  { destruct (choose_pool_cases (next_draw w) validSums)
      as [(_ & _ & E)|[(_ & _ & _ & E)|[(_ & _ & _ & E)|(_ & _ & _ & E)]]];
      rewrite E in He; auto;
      unfold by2, by3, by4 in He; apply list_elem_of_filter in He; tauto. }
  split; [exact Hin|]. split; [exact He|].
  destruct (choose_pool_cases (next_draw w) validSums)
    as [(A & B & E)|[(A & B & C & E)|[(A & B & C & E)|(A & B & C & E)]]];
    rewrite E in He; repeat split; intros;
    try (unfold by2, by3, by4 in He; apply list_elem_of_filter in He;
         tauto);
    try congruence; try (exfalso; intuition congruence).
  all: try (rewrite E; reflexivity).
Qed.

Lemma chooseSum_pools_witness :
  valid_sums_of [2; 2; 2; 2] <> [] /\
  exists e w',
    _chooseSumByDifficulty (valid_sums_of [2; 2; 2; 2]) zero_world
    = Ok (fst e, w') /\
    e ∈ valid_sums_of [2; 2; 2; 2] /\
    e ∈ choose_pool (next_draw zero_world) (valid_sums_of [2; 2; 2; 2]) /\
    (Qltb (next_draw zero_world) (4 # 10) = true ->
     by2 (valid_sums_of [2; 2; 2; 2]) <> [] ->
       has_combo (Nat.eqb 2) e = true) /\
    (Qltb (next_draw zero_world) (4 # 10) = false \/
     by2 (valid_sums_of [2; 2; 2; 2]) = [] ->
     Qltb (next_draw zero_world) (8 # 10) = true ->
     by3 (valid_sums_of [2; 2; 2; 2]) <> [] ->
       has_combo (Nat.eqb 3) e = true) /\
    (Qltb (next_draw zero_world) (4 # 10) = false \/
     by2 (valid_sums_of [2; 2; 2; 2]) = [] ->
     Qltb (next_draw zero_world) (8 # 10) = false \/
     by3 (valid_sums_of [2; 2; 2; 2]) = [] ->
     by4 (valid_sums_of [2; 2; 2; 2]) <> [] ->
       has_combo (Nat.leb 4) e = true) /\
    (Qltb (next_draw zero_world) (4 # 10) = false \/
     by2 (valid_sums_of [2; 2; 2; 2]) = [] ->
     Qltb (next_draw zero_world) (8 # 10) = false \/
     by3 (valid_sums_of [2; 2; 2; 2]) = [] ->
     by4 (valid_sums_of [2; 2; 2; 2]) = [] ->
       choose_pool (next_draw zero_world) (valid_sums_of [2; 2; 2; 2])
       = valid_sums_of [2; 2; 2; 2]).
Proof.
  assert (H : valid_sums_of [2; 2; 2; 2] <> []) by (vm_compute; discriminate).
  split; [exact H|].
  exact (chooseSum_pools (valid_sums_of [2; 2; 2; 2]) zero_world H).
Defined.

(** ** The generator always returns, and keeps its invariant *)

Lemma total_elim {A} (m : M A) w a w' (post : A -> World -> Prop) :
  total m w post -> m w = Ok (a, w') -> post a w'.
Proof. unfold total. intros H E. rewrite E in H. exact H. Qed.

Lemma getLevelConfig_bounds (lvl : Z) :
  exists c, getLevelConfig lvl = Some c /\
            6 <= maxNumber c <= 12 /\ 15 <= maxTarget c <= 35.
Proof.
  unfold getLevelConfig, clamp. simpl length.
  set (idx := Z.max 1 (Z.min (Z.of_nat 11 - 1) lvl)).
  assert (H : 1 <= idx <= 10) by (unfold idx; lia).
  assert (Hn : exists n, Z.to_nat idx = S n /\ (n < 10)%nat)
    by (exists (Z.to_nat idx - 1)%nat; lia).
  destruct Hn as (n & -> & Hn).
  do 10 (destruct n as [|n]; [eexists; split; [reflexivity|simpl; lia]|]).
  lia.
Qed.

Lemma swap_length {A} (a : list A) i j : length (swap a i j) = length a.
Proof.
  unfold swap. destruct (a !! i), (a !! j); rewrite ?length_insert; reflexivity.
Qed.

Lemma swap_Forall {A} (P : A -> Prop) (a : list A) i j :
  Forall P a -> Forall P (swap a i j).
Proof.
  intros H. unfold swap.
  destruct (a !! i) as [x|] eqn:Ei; [|exact H].
  destruct (a !! j) as [y|] eqn:Ej; [|exact H].
  apply Forall_insert; [apply Forall_insert; [exact H|]|].
  - eapply Forall_lookup_1; eauto.
  - eapply Forall_lookup_1; eauto.
Qed.

Lemma total_shuffle_from {A} (P : A -> Prop) i (a : list A) w
    (post : list A -> World -> Prop) :
  Forall P a ->
  (forall a' w', length a' = length a -> Forall P a' ->
                 game_part w' = game_part w ->
                 plannedCubes w' = plannedCubes w -> post a' w') ->
  total (shuffle_from i a) w post.
Proof.
  revert a w post. induction i as [|i IH]; intros a w post HP Hpost.
  - apply total_ret. apply Hpost; auto.
  - cbn [shuffle_from]. apply total_bind, total_random.
    apply IH; [apply swap_Forall, HP|].
    intros a' w' Hl HP' Hg Hp. apply Hpost; auto.
    rewrite Hl. apply swap_length.
Qed.

Lemma total_draw_values n maxN vals w (post : list Z -> World -> Prop) :
  1 <= maxN ->
  Forall (fun v => 1 <= v <= maxN) vals ->
  (forall vals' w', length vals' = (length vals + n)%nat ->
                    Forall (fun v => 1 <= v <= maxN) vals' ->
                    game_part w' = game_part w ->
                    plannedCubes w' = plannedCubes w -> post vals' w') ->
  total (draw_values n maxN vals) w post.
Proof.
  intros Hm. revert vals w post.
  induction n as [|n IH]; intros vals w post Hv Hpost.
  - apply total_ret. apply Hpost; auto.
  - cbn [draw_values]. apply total_bind, total_randomInt; [exact Hm|].
    intros v w1 Hr Hg1 Hp1. apply IH.
    + apply Forall_app. split; [exact Hv|]. repeat constructor; lia.
    + intros vals' w' Hl Hv' Hg Hp. apply Hpost; auto.
      * rewrite Hl, length_app. simpl. lia.
      * congruence.
      * congruence.
Qed.

Lemma planned_inv_push p colIdx fifo val :
  planned_inv p -> p !! colIdx = Some fifo -> 1 <= val ->
  planned_inv (<[colIdx := fifo ++ [val]]> p).
Proof.
  intros [Hl Hp] Hf Hv. split; [rewrite length_insert; exact Hl|].
  apply Forall_insert; [exact Hp|].
  apply Forall_app. split; [|repeat constructor; exact Hv].
  eapply Forall_lookup_1; eauto.
Qed.

Lemma sum_concat_insert (p : list (list Z)) i fifo v :
  p !! i = Some fifo ->
  sum_list (concat (<[i := fifo ++ [v]]> p)) = sum_list (concat p) + v.
Proof.
  intros H.
  assert (Hlt : (i < length p)%nat) by (eapply lookup_lt_Some; eauto).
  rewrite insert_take_drop by exact Hlt.
  rewrite <- (take_drop_middle p i fifo H) at 3.
  rewrite !concat_app, !concat_cons, !sum_list_app.
  unfold sum_list at 3. simpl. lia.
Qed.

Lemma total_plan_values cols values i w (post : unit -> World -> Prop) :
  length cols = 4%nat ->
  Forall (fun c => (c < NUM_COLUMNS)%nat) cols ->
  Forall (fun v => 1 <= v) values ->
  planned_inv (plannedCubes w) ->
  (forall w', game_part w' = game_part w -> rnd_next w' = rnd_next w ->
              planned_inv (plannedCubes w') ->
              sum_list (concat (plannedCubes w')) =
              sum_list (concat (plannedCubes w)) + sum_list values ->
              post tt w') ->
  total (plan_values cols values i) w post.
Proof.
  intros Hl Hc. revert i w post.
  induction values as [|val values IH]; intros i w post Hv Hinv Hpost.
  - apply total_ret. apply Hpost; auto. unfold sum_list at 3. simpl. lia.
  - cbn [plan_values]. inversion Hv as [|? ? Hval Hv']; subst.
    destruct (lookup_lt_is_Some_2 cols (i mod 4)%nat) as [colIdx Hci].
    { rewrite Hl. apply Nat.mod_upper_bound. lia. }
    apply total_bind. eapply total_defined; [exact Hci|].
    assert (Hlt : (colIdx < NUM_COLUMNS)%nat).
    { rewrite Forall_forall in Hc. apply Hc.
      eapply list_elem_of_lookup_2; eauto. }
    destruct (lookup_lt_is_Some_2 (plannedCubes w) colIdx) as [fifo Hf].
    { destruct Hinv as [-> _]. exact Hlt. }
    apply total_bind. unfold plan_cube.
    apply total_bind, total_get. apply total_bind.
    eapply total_defined; [exact Hf|]. apply total_modify.
    apply IH; [exact Hv'| |].
    + simpl. apply planned_inv_push; auto.
    + intros w' Hg Hr Hp Hsum. apply Hpost; auto.
      rewrite Hsum. simpl. rewrite (sum_concat_insert _ _ _ _ Hf).
      rewrite sum_list_cons. lia.
Qed.

Lemma draw_values_sum_range (values : list Z) (maxN : Z) :
  Forall (fun v => 1 <= v <= maxN) values ->
  Z.of_nat (length values) <= sum_list values <= Z.of_nat (length values) * maxN.
Proof.
  induction 1 as [|v values Hv _ IH].
  - unfold sum_list. simpl. lia.
  - rewrite sum_list_cons. simpl length. nia.
Qed.

Lemma total_fallback config c w (post : Z -> World -> Prop) :
  config = Some c -> 1 <= maxNumber c ->
  planned_inv (plannedCubes w) ->
  (forall t w', game_part w' = game_part w ->
                planned_inv (plannedCubes w') ->
                t = clamp (sum_list (concat (plannedCubes w')) -
                           sum_list (concat (plannedCubes w)))
                          MIN_TARGET (maxTarget c) ->
                2 <= sum_list (concat (plannedCubes w')) -
                     sum_list (concat (plannedCubes w)) <= 3 * maxNumber c ->
                post t w') ->
  total (_generateFallbackTarget config) w post.
Proof.
  intros -> Hm Hinv Hpost. unfold _generateFallbackTarget.
  apply total_bind, total_random.
  apply total_bind. unfold cfg_maxNumber. apply total_bind.
  eapply total_defined; [reflexivity|]. apply total_ret.
  apply total_bind, total_draw_values; [exact Hm|constructor|].
  intros values w1 Hlen Hvals Hg1 Hp1.
  apply total_bind. unfold shuffle.
  apply (total_shuffle_from (fun c => (c < NUM_COLUMNS)%nat)).
  { unfold NUM_COLUMNS. repeat constructor. }
  intros cols w2 Hl Hcols Hg2 Hp2.
  apply total_bind, total_plan_values.
  - exact Hl.
  - exact Hcols.
  - eapply Forall_impl; [exact Hvals|]. simpl. intros; lia.
  - rewrite Hp2, Hp1. exact Hinv.
  - intros w3 Hg3 Hr3 Hinv3 Hsum. unfold cfg_maxTarget.
    apply total_bind. apply total_bind.
    eapply total_defined; [reflexivity|]. apply total_ret. apply total_ret.
    rewrite Hp2, Hp1 in Hsum. simpl in Hsum.
    apply Hpost; [rewrite Hg3, Hg2, Hg1; reflexivity|exact Hinv3| |].
    + f_equal. lia.
    + pose proof (draw_values_sum_range values (maxNumber c) Hvals) as Hr.
      simpl in Hlen.
      destruct (Qltb _ _); simpl in Hlen; rewrite Hlen in Hr; nia.
Qed.

(** Whatever the draws, the fallback returns the clamped sum of the values
    it has just planned: the target is their sum exactly when that sum lies
    in [[MIN_TARGET, maxTarget]]. *)
Lemma fallback_target_is_clamped_sum (w : World) (c : LevelConfig) :
  1 <= maxNumber c ->
  planned_inv (plannedCubes w) ->
  exists t w',
    _generateFallbackTarget (Some c) w = Ok (t, w') /\
    t = clamp (sum_list (concat (plannedCubes w')) -
               sum_list (concat (plannedCubes w)))
              MIN_TARGET (maxTarget c) /\
    2 <= sum_list (concat (plannedCubes w')) -
         sum_list (concat (plannedCubes w)) <= 3 * maxNumber c.
Proof.
  intros Hm Hinv. apply total_run.
  eapply total_fallback; [reflexivity|exact Hm|exact Hinv|]. auto.
Qed.

Lemma total_chooseSum validSums w (post : Z -> World -> Prop) :
  validSums <> [] ->
  (forall e w', e ∈ validSums -> game_part w' = game_part w ->
                plannedCubes w' = plannedCubes w -> post (fst e) w') ->
  total (_chooseSumByDifficulty validSums) w post.
Proof.
  intros Hne Hpost. unfold _chooseSumByDifficulty.
  apply total_bind, total_random. fold (next_draw w).
  apply total_bind, total_randomChoice.
  - apply choose_pool_nonempty, Hne.
  - intros e w' He Hg Hp. apply total_bind.
    eapply total_defined; [reflexivity|]. apply total_ret.
    apply Hpost; auto.
    destruct (choose_pool_cases (next_draw w) validSums)
      as [(_ & _ & E)|[(_ & _ & _ & E)|[(_ & _ & _ & E)|(_ & _ & _ & E)]]];
      rewrite E in He; auto;
      unfold by2, by3, by4 in He; apply list_elem_of_filter in He; tauto.
Qed.

Lemma total_generateTarget w (post : Z -> World -> Prop) :
  planned_inv (plannedCubes w) ->
  (forall t w', game_part w' = game_part w ->
                planned_inv (plannedCubes w') -> post t w') ->
  total generateTarget w post.
Proof.
  intros Hinv Hpost. unfold generateTarget. apply total_bind, total_get.
  destruct (getLevelConfig_bounds (level w)) as (c & Hc & Hn & Ht).
  assert (Hfb : total (_generateFallbackTarget (getLevelConfig (level w))) w post).
  { eapply total_fallback; [exact Hc|lia|exact Hinv|].
    intros t w' Hg Hi _ _. apply Hpost; auto. }
  destruct (findAllPossibleSums _ _) as [|e0 sums] eqn:Es; [exact Hfb|].
  rewrite Hc. apply total_bind. unfold cfg_maxTarget. apply total_bind.
  eapply total_defined; [reflexivity|]. apply total_ret.
  rewrite <- Hc.
  match goal with |- total (match ?x with _ => _ end) _ _ =>
    destruct x as [|v0 vs] eqn:Ev end; [exact Hfb|].
  apply total_chooseSum; [discriminate|].
  intros e w' _ Hg Hp. apply Hpost; [exact Hg|]. rewrite Hp. exact Hinv.
Qed.

Lemma range_length lo n : length (range lo n) = n.
Proof. unfold range. rewrite length_fmap, length_seq. reflexivity. Qed.

Lemma range_elem lo n x : x ∈ range lo n -> lo <= x < lo + Z.of_nat n.
Proof.
  unfold range. intros H. apply list_elem_of_fmap in H.
  destruct H as (i & -> & Hi). apply elem_of_seq in Hi. lia.
Qed.

Lemma weighted_scan_range ws i r last :
  0 <= i -> i + Z.of_nat (length ws) = last + 1 -> 0 <= last ->
  0 <= weighted_scan ws i r last <= last.
Proof.
  revert i r. induction ws as [|wt ws IH]; intros i r Hi Hlen Hlast; simpl.
  - lia.
  - simpl in Hlen. destruct (Qle_bool _ _); [lia|].
    apply IH; lia.
Qed.

Lemma total_weightedRandom weights w (post : Z -> World -> Prop) :
  weights <> [] ->
  (forall idx w', 0 <= idx < Z.of_nat (length weights) ->
                  game_part w' = game_part w ->
                  plannedCubes w' = plannedCubes w -> post idx w') ->
  total (_weightedRandom weights) w post.
Proof.
  intros Hne Hpost. unfold _weightedRandom.
  apply total_bind, total_random, total_ret.
  apply Hpost; [|reflexivity|reflexivity].
  assert (0 < Z.of_nat (length weights)) by (destruct weights; [congruence|simpl; lia]).
  pose proof (weighted_scan_range weights 0
                (rand_val (rnd_source w (rnd_next w)) * inject_Z (sum_list weights))%Q
                (Z.of_nat (length weights) - 1)) as H'.
  lia.
Qed.

Lemma total_balanced config c w (post : Z -> World -> Prop) :
  config = Some c -> 1 <= maxNumber c ->
  (forall v w', 1 <= v <= maxNumber c -> game_part w' = game_part w ->
                plannedCubes w' = plannedCubes w -> post v w') ->
  total (_generateBalancedCube config) w post.
Proof.
  intros -> Hm Hpost. unfold _generateBalancedCube.
  apply total_bind, total_get. apply total_bind. unfold cfg_maxNumber.
  apply total_bind. eapply total_defined; [reflexivity|]. apply total_ret.
  apply total_bind, total_weightedRandom.
  - intros H. apply (f_equal length) in H.
    rewrite length_fmap, range_length in H. simpl in H. lia.
  - intros idx w' Hidx Hg Hp. apply total_ret.
    rewrite length_fmap, range_length in Hidx. apply Hpost; auto. lia.
Qed.

Lemma total_randomInt_cfg c w (post : Z -> World -> Prop) :
  1 <= maxNumber c ->
  (forall v w', 1 <= v <= maxNumber c -> game_part w' = game_part w ->
                plannedCubes w' = plannedCubes w -> post v w') ->
  total (let* maxN := cfg_maxNumber (Some c) in randomInt 1 maxN) w post.
Proof.
  intros Hm Hpost. apply total_bind. unfold cfg_maxNumber. apply total_bind.
  eapply total_defined; [reflexivity|]. apply total_ret.
  apply total_randomInt; [exact Hm|]. exact Hpost.
Qed.

Lemma total_helpful_search c currentTarget w (post : Z -> World -> Prop) :
  1 <= maxNumber c ->
  (forall v w', 1 <= v <= maxNumber c -> game_part w' = game_part w ->
                plannedCubes w' = plannedCubes w -> post v w') ->
  total (helpful_search (Some c) currentTarget) w post.
Proof.
  intros Hm Hpost. unfold helpful_search. apply total_bind, total_get.
  case_bool_decide; [apply total_randomInt_cfg; auto|].
  case_bool_decide; [apply total_randomInt_cfg; auto|].
  apply total_bind. unfold cfg_maxNumber at 1. apply total_bind.
  eapply total_defined; [reflexivity|]. apply total_ret.
  destruct (_findHelpfulValues _ _ _) as [|b0 bs] eqn:Eb;
    [apply total_randomInt_cfg; auto|].
  apply total_bind, total_randomChoice; [discriminate|].
  intros x w' Hx Hg Hp. eapply total_defined; [reflexivity|].
  apply Hpost; [|exact Hg|exact Hp].
  rewrite <- Eb in Hx. unfold _findHelpfulValues in Hx.
  apply list_elem_of_filter in Hx. destruct Hx as [_ Hx].
  apply range_elem in Hx. lia.
Qed.

Lemma total_helpful config c w (post : Z -> World -> Prop) :
  config = Some c -> 1 <= maxNumber c ->
  (forall v w', 1 <= v <= maxNumber c -> game_part w' = game_part w ->
                plannedCubes w' = plannedCubes w -> post v w') ->
  total (_generateHelpfulCube config) w post.
Proof.
  intros -> Hm Hpost. unfold _generateHelpfulCube.
  apply total_bind, total_get.
  destruct (targets w) as [|currentTarget ts];
    [apply total_randomInt_cfg; auto|].
  destruct (currentTarget =? 0); [apply total_randomInt_cfg; auto|].
  cbv zeta.
  destruct (Z.ltb_spec 0 (currentTarget - getSelectedSum w)) as [Hpos|Hneg];
    [|apply total_helpful_search; auto].
  apply total_bind. unfold cfg_maxNumber at 1. apply total_bind.
  eapply total_defined; [reflexivity|]. apply total_ret.
  destruct (Z.leb_spec (currentTarget - getSelectedSum w) (maxNumber c))
    as [Hle|Hgt]; [|apply total_helpful_search; auto].
  apply total_bind, total_random.
  destruct (Qltb _ _).
  - apply total_ret. apply Hpost; [lia|reflexivity|reflexivity].
  - apply total_helpful_search; [exact Hm|].
    intros v w' Hv Hg Hp. apply Hpost; auto.
Qed.

Lemma total_nextCube colIndex w (post : Z -> World -> Prop) :
  (colIndex < length (columns w))%nat ->
  planned_inv (plannedCubes w) ->
  (forall v w', 1 <= v -> game_part w' = game_part w ->
                planned_inv (plannedCubes w') -> post v w') ->
  total (generateNextCubeValue colIndex) w post.
Proof.
  intros Hcol Hinv Hpost. unfold generateNextCubeValue.
  apply total_bind, total_get.
  destruct (getLevelConfig_bounds (level w)) as (c & Hc & Hn & _).
  assert (Had : total (_generateAdaptiveCube colIndex (getLevelConfig (level w))) w post).
  { unfold _generateAdaptiveCube. apply total_bind, total_get.
    destruct (lookup_lt_is_Some_2 _ _ Hcol) as [col Ecol].
    apply total_bind. eapply total_defined; [exact Ecol|].
    destruct (DANGER_HEIGHT <=? length col)%nat.
    - eapply total_helpful; [exact Hc|lia|].
      intros v w' Hv Hg Hp. apply Hpost; [lia|exact Hg|]. rewrite Hp. exact Hinv.
    - eapply total_balanced; [exact Hc|lia|].
      intros v w' Hv Hg Hp. apply Hpost; [lia|exact Hg|]. rewrite Hp. exact Hinv. }
  destruct (plannedCubes w !! colIndex) as [[|v planned']|] eqn:Ep; try exact Had.
  apply total_bind, total_modify, total_ret.
  destruct Hinv as [Hl Hp].
  assert (Hf : Forall (fun v => 1 <= v) (v :: planned'))
    by (eapply Forall_lookup_1; eauto).
  inversion Hf; subst. apply Hpost; [assumption|reflexivity|].
  split; [simpl; rewrite length_insert; exact Hl|].
  simpl. apply Forall_insert; assumption.
Qed.

Lemma reset_planned_inv w w' :
  reset w = Ok (tt, w') -> planned_inv (plannedCubes w').
Proof.
  unfold reset, generator_reset, bind, modify. intros H. inversion H; subst.
  simpl. split; [reflexivity|]. repeat constructor.
Qed.

Lemma nextCube_keeps_inv colIndex w v w' :
  planned_inv (plannedCubes w) ->
  generateNextCubeValue colIndex w = Ok (v, w') ->
  planned_inv (plannedCubes w') /\ 1 <= v.
Proof.
  intros Hinv Hrun.
  destruct (decide (colIndex < length (columns w))%nat) as [Hlt|Hge].
  - eapply (total_elim _ _ _ _ (fun v w' => planned_inv (plannedCubes w') /\ 1 <= v));
      [|exact Hrun].
    apply total_nextCube; auto.
  - assert (Hnone : columns w !! colIndex = None)
      by (apply lookup_ge_None; lia).
    unfold generateNextCubeValue, bind, get_world in Hrun.
    destruct (plannedCubes w !! colIndex) as [[|x planned']|] eqn:Ep.
    + unfold _generateAdaptiveCube, bind, get_world in Hrun.
      rewrite Hnone in Hrun. discriminate.
    + simpl in Hrun. inversion Hrun; subst. simpl.
      destruct Hinv as [Hl Hp].
      assert (Hf : Forall (fun v => 1 <= v) (v :: planned'))
        by (eapply Forall_lookup_1; eauto).
      inversion Hf; subst. split; [|assumption].
      split; [rewrite length_insert; exact Hl|].
      apply Forall_insert; assumption.
    + unfold _generateAdaptiveCube, bind, get_world in Hrun.
      rewrite Hnone in Hrun. discriminate.
Qed.

Lemma gen_reachable_inv w : gen_reachable w -> planned_inv (plannedCubes w).
Proof.
  induction 1 as [w w' Hr | w t w' _ IH Hr | w col v w' _ IH Hr | w w' _ IH Hp].
  - eapply reset_planned_inv; eauto.
  - eapply (total_elim _ _ _ _ (fun _ w' => planned_inv (plannedCubes w')));
      [|exact Hr].
    apply total_generateTarget; auto.
  - eapply nextCube_keeps_inv; eauto.
  - rewrite Hp. exact IH.
Qed.

(** C9. In every world that the program can reach and for every column of
    the board, [generateNextCubeValue] returns, and the value it returns is
    an integer that is at least 1, whichever branch produces it (planned
    FIFO, rescue generation, balanced generation). Every level maps to a
    configuration whose [maxNumber] is at least 6
    ([getLevelConfig_bounds]). *)
Theorem generateNextCubeValue_positive (w : World) (colIndex : nat) :
  gen_reachable w ->
  (colIndex < length (columns w))%nat ->
  exists v w', generateNextCubeValue colIndex w = Ok (v, w') /\ 1 <= v.
Proof.
  intros Hreach Hcol.
  apply (total_run _ _ (fun v _ => 1 <= v)).
  apply total_nextCube; [exact Hcol|apply gen_reachable_inv, Hreach|].
  intros v w' Hv _ _. exact Hv.
Qed.

Lemma generateNextCubeValue_positive_witness :
  gen_reachable zero_world /\
  (0 < length (columns zero_world))%nat /\
  exists v w', generateNextCubeValue 0 zero_world = Ok (v, w') /\ 1 <= v.
Proof.
  assert (H1 : gen_reachable zero_world)
    by (apply (reach_reset zero_world zero_world); reflexivity).
  assert (H2 : (0 < length (columns zero_world))%nat) by (simpl; lia).
  split; [exact H1|]. split; [exact H2|].
  exact (generateNextCubeValue_positive zero_world 0 H1 H2).
Defined.

(** ** Counting the matched cubes per column *)

Lemma obj_incr_keys k o x :
  x ∈ (fst <$> obj_incr k o) -> x = k \/ x ∈ (fst <$> o).
Proof.
  induction o as [|[k' c] o IH]; simpl.
  - intros H. apply list_elem_of_singleton in H. auto.
  - destruct (k =? k') eqn:E1; [simpl; auto|].
    destruct (k <? k') eqn:E2; simpl.
    + rewrite !elem_of_cons. tauto.
    + rewrite !elem_of_cons. intros [H|H]; [auto|].
      destruct (IH H); auto.
Qed.

Lemma obj_incr_ok k o : tally_ok o -> tally_ok (obj_incr k o).
Proof.
  intros [Hs Hp]. induction o as [|[k' c] o IH]; simpl.
  - split; repeat constructor.
  - simpl in Hs. apply StronglySorted_inv in Hs. destruct Hs as [Hs Hlt].
    inversion Hp as [|? ? Hc Hp']; subst. simpl in Hc.
    destruct (Z.eqb_spec k k') as [->|Hne].
    + split; simpl; [constructor; assumption|constructor; [simpl; lia|assumption]].
    + destruct (Z.ltb_spec k k') as [Hlt'|Hge].
      * split; simpl.
        -- constructor; [constructor; assumption|].
           constructor; [exact Hlt'|].
           eapply Forall_impl; [exact Hlt|]. simpl. intros; lia.
        -- constructor; [simpl; lia|constructor; assumption].
      * destruct (IH Hs Hp') as [Hs' Hp'']. split; simpl.
        -- constructor; [exact Hs'|]. apply Forall_forall. intros x Hx.
           destruct (obj_incr_keys _ _ _ Hx) as [->|Hx']; [lia|].
           rewrite Forall_forall in Hlt. apply Hlt, Hx'.
        -- constructor; assumption.
Qed.

Lemma obj_get_absent k o :
  Forall (fun k' => k < k') (fst <$> o) -> obj_get k o = None.
Proof.
  unfold obj_get. induction o as [|[k' c] o IH]; simpl; intros H; [reflexivity|].
  inversion H; subst. destruct (Z.eqb_spec k' k); [lia|]. auto.
Qed.

Lemma obj_incr_get k k' o :
  tally_ok o ->
  obj_get k' (obj_incr k o) =
  if decide (k' = k) then Some (default 0 (obj_get k o) + 1) else obj_get k' o.
Proof.
  intros [Hs _]. induction o as [|[k0 c] o IH]; simpl.
  - unfold obj_get. simpl. destruct (Z.eqb_spec k k'); case_decide; try lia; reflexivity.
  - simpl in Hs. apply StronglySorted_inv in Hs. destruct Hs as [Hs Hlt].
    destruct (Z.eqb_spec k k0) as [->|Hne].
    + unfold obj_get. simpl. rewrite Z.eqb_refl.
      destruct (Z.eqb_spec k0 k'); case_decide; try lia; reflexivity.
    + destruct (Z.ltb_spec k k0) as [Hlt'|Hge].
      * assert (Hnone : obj_get k ((k0, c) :: o) = None).
        { apply obj_get_absent. simpl. constructor; [exact Hlt'|].
          eapply Forall_impl; [exact Hlt|]. simpl. intros; lia. }
        rewrite Hnone. unfold obj_get. simpl.
        destruct (Z.eqb_spec k k'); case_decide; try lia; reflexivity.
      * specialize (IH Hs). unfold obj_get in *. simpl.
        destruct (Z.eqb_spec k0 k'); destruct (Z.eqb_spec k0 k); try lia.
        -- case_decide; [lia|reflexivity].
        -- exact IH.
Qed.

Lemma tally_spec ks o :
  tally_ok o ->
  tally_ok (tally ks o) /\
  forall k, default 0 (obj_get k (tally ks o)) =
            default 0 (obj_get k o) + Z.of_nat (length (filter (fun x => x = k) ks)).
Proof.
  revert o. induction ks as [|k0 ks IH]; intros o Hok; simpl.
  - split; [exact Hok|]. intros; lia.
  - destruct (IH (obj_incr k0 o) (obj_incr_ok _ _ Hok)) as [Hok' Hget].
    split; [exact Hok'|]. intros k. unfold tally in *. rewrite Hget.
    rewrite obj_incr_get by exact Hok. rewrite filter_cons.
    repeat case_decide; try congruence; simpl; subst; lia.
Qed.

Lemma obj_get_elem o k c :
  tally_ok o -> ((k, c) ∈ o <-> obj_get k o = Some c).
Proof.
  intros [Hs _]. unfold obj_get. induction o as [|[k0 c0] o IH]; simpl.
  - split; [intros H; inversion H|discriminate].
  - simpl in Hs. apply StronglySorted_inv in Hs. destruct Hs as [Hs Hlt].
    rewrite elem_of_cons, (IH Hs).
    destruct (Z.eqb_spec k0 k) as [->|Hne]; simpl.
    + split; [|intros H; left; congruence].
      intros [H|H]; [congruence|]. exfalso.
      assert (Hin : k ∈ (fst <$> o)).
      { apply list_elem_of_fmap. exists (k, c). split; [reflexivity|].
        apply (IH Hs). exact H. }
      rewrite Forall_forall in Hlt. specialize (Hlt _ Hin). lia.
    + split; [intros [H|H]; [congruence|exact H]|auto].
Qed.

Lemma obj_get_pos o k c : tally_ok o -> obj_get k o = Some c -> 0 < c.
Proof.
  intros Hok H. apply (obj_get_elem _ _ _ Hok) in H.
  destruct Hok as [_ Hp]. rewrite Forall_forall in Hp. apply (Hp _ H).
Qed.

Lemma tally_elem ks k c :
  (k, c) ∈ tally ks [] <->
  c = Z.of_nat (length (filter (fun x => x = k) ks)) /\ 0 < c.
Proof.
  assert (Hnil : tally_ok []) by (split; constructor).
  destruct (tally_spec ks [] Hnil) as [Hok Hget]. specialize (Hget k).
  rewrite (obj_get_elem _ _ _ Hok). simpl in Hget. split.
  - intros H. rewrite H in Hget. simpl in Hget.
    split; [lia|]. eapply obj_get_pos; eauto.
  - intros [-> Hpos]. destruct (obj_get k (tally ks [])) as [c'|]; simpl in Hget.
    + f_equal. lia.
    + lia.
Qed.

Lemma selected_from_elem ci i0 col r :
  r ∈ selected_from ci i0 col <->
  exists i c, r = (ci, (i0 + i)%nat) /\ col !! i = Some c /\ is_matched c = true.
Proof.
  revert i0. induction col as [|x col IH]; intros i0; simpl.
  - split; [intros H; inversion H|]. intros (i & c & _ & H & _). destruct i; discriminate.
  - rewrite elem_of_app, IH. fold (is_matched x). split.
    + intros [H|(i & c & -> & Hc & Hm)].
      * destruct (is_matched x) eqn:E; [|inversion H].
        apply list_elem_of_singleton in H. subst r.
        exists 0%nat, x. rewrite Nat.add_0_r. auto.
      * exists (S i), c. split; [f_equal; lia|]. auto.
    + intros (i & c & -> & Hc & Hm). destruct i as [|i]; simpl in Hc.
      * inversion Hc; subst x. rewrite Hm. left. rewrite Nat.add_0_r.
        apply list_elem_of_singleton. reflexivity.
      * right. exists i, c. split; [f_equal; lia|]. auto.
Qed.

Lemma selected_cols_elem ci0 cols r :
  r ∈ selected_cols ci0 cols <->
  exists ci col, cols !! ci = Some col /\ r ∈ selected_from (ci0 + ci) 0 col.
Proof.
  revert ci0. induction cols as [|x cols IH]; intros ci0; simpl.
  - split; [intros H; inversion H|]. intros (ci & col & H & _). destruct ci; discriminate.
  - rewrite elem_of_app, IH. split.
    + intros [H|(ci & col & Hc & Hr)].
      * exists 0%nat, x. rewrite Nat.add_0_r. auto.
      * exists (S ci), col. replace (ci0 + S ci)%nat with (S ci0 + ci)%nat by lia. auto.
    + intros (ci & col & Hc & Hr). destruct ci as [|ci]; simpl in Hc.
      * inversion Hc; subst x. rewrite Nat.add_0_r in Hr. auto.
      * right. exists ci, col.
        replace (S ci0 + ci)%nat with (ci0 + S ci)%nat by lia. auto.
Qed.

Lemma getSelectedCubes_elem w ci i :
  (ci, i) ∈ getSelectedCubes w <->
  exists col c, columns w !! ci = Some col /\ col !! i = Some c /\
                is_matched c = true.
Proof.
  unfold getSelectedCubes. rewrite selected_cols_elem. split.
  - intros (ci' & col & Hc & Hr). apply selected_from_elem in Hr.
    destruct Hr as (i' & c & Heq & Hi & Hm). simpl in Heq.
    inversion Heq; subst. eauto.
  - intros (col & c & Hc & Hi & Hm). exists ci, col. split; [exact Hc|].
    apply selected_from_elem. exists i, c. auto.
Qed.

Lemma selected_from_length ci i0 col :
  length (selected_from ci i0 col) =
  length (filter (fun c => is_matched c = true) col).
Proof.
  revert i0. induction col as [|x col IH]; intros i0; simpl; [reflexivity|].
  rewrite length_app, IH, filter_cons. fold (is_matched x).
  destruct (is_matched x); case_decide; simpl; congruence.
Qed.

Lemma selected_from_fst ci cj i0 col :
  filter (fun r : CubeRef => fst r = ci) (selected_from cj i0 col) =
  if decide (cj = ci) then selected_from cj i0 col else [].
Proof.
  revert i0. induction col as [|x col IH]; intros i0; simpl.
  - case_decide; reflexivity.
  - rewrite filter_app, IH. destruct (selected x && negb (removing x)).
    + rewrite filter_cons, filter_nil. simpl. case_decide; reflexivity.
    + rewrite filter_nil. case_decide; reflexivity.
Qed.

Lemma selected_cols_fst ci ci0 cols :
  filter (fun r : CubeRef => fst r = ci) (selected_cols ci0 cols) =
  if decide (ci0 <= ci)%nat
  then match cols !! (ci - ci0)%nat with
       | Some col => selected_from ci 0 col
       | None => []
       end
  else [].
Proof.
  revert ci0. induction cols as [|x cols IH]; intros ci0; simpl.
  - case_decide; reflexivity.
  - rewrite filter_app, selected_from_fst, IH.
    destruct (decide (ci0 = ci)) as [->|Hne].
    + rewrite Nat.sub_diag. simpl.
      destruct (decide (S ci <= ci)%nat); [lia|].
      destruct (decide (ci <= ci)%nat); [|lia]. apply app_nil_r.
    + simpl. destruct (decide (S ci0 <= ci)%nat) as [Hle|Hgt].
      * destruct (decide (ci0 <= ci)%nat); [|lia].
        replace (ci - ci0)%nat with (S (ci - S ci0)) by lia. reflexivity.
      * destruct (decide (ci0 <= ci)%nat); [lia|]. reflexivity.
Qed.

Lemma filter_length_all {A} (P : A -> Prop) `{forall x, Decision (P x)}
    (l : list A) :
  (length (filter P l) <= length l)%nat /\
  (length (filter P l) = length l <-> Forall P l).
Proof.
  induction l as [|x l [IH1 IH2]]; simpl.
  - split; [lia|]. split; [constructor|reflexivity].
  - rewrite filter_cons. case_decide; simpl.
    + split; [lia|]. rewrite Forall_cons. split.
      * intros Hl. split; [assumption|]. apply IH2. lia.
      * intros [_ Hl]. f_equal. apply IH2, Hl.
    + split; [lia|]. rewrite Forall_cons. split; [lia|tauto].
Qed.

Lemma keys_filter_length ci (cubes : list CubeRef) :
  length (filter (fun x => x = Z.of_nat ci) ((fun r => Z.of_nat (fst r)) <$> cubes)) =
  length (filter (fun r : CubeRef => fst r = ci) cubes).
Proof.
  induction cubes as [|r cubes IH]; [reflexivity|].
  rewrite fmap_cons, !filter_cons.
  repeat case_decide; simpl; try lia.
Qed.

Lemma count_columns_tally w cubes o :
  board_ok w ->
  Forall (fun r => is_Some (deref w r)) cubes ->
  count_columns w cubes o =
  Some (tally ((fun r => Z.of_nat (fst r)) <$> cubes) o).
Proof.
  intros Hb Hv. revert o. induction Hv as [|r cubes [c Hc] _ IH]; intros o.
  - reflexivity.
  - simpl. rewrite Hc. unfold deref in Hc.
    destruct (columns w !! fst r) as [col|] eqn:Ecol; [|discriminate].
    simpl in Hc. rewrite (Hb _ _ _ _ Ecol Hc). apply IH.
Qed.

Lemma count_cleared_spec w entries n0 :
  Forall (fun e => is_Some (columns w !! Z.to_nat (fst e))) entries ->
  exists n, count_cleared w entries n0 = Some n /\ n0 <= n /\
    (n0 < n <-> exists e col, e ∈ entries /\
                  columns w !! Z.to_nat (fst e) = Some col /\
                  snd e = Z.of_nat (length col)).
Proof.
  intros Hv. revert n0. induction Hv as [|[k c] entries [col Hcol] _ IH]; intros n0.
  - exists n0. split; [reflexivity|]. split; [lia|]. split; [lia|].
    intros (e & _ & H & _). inversion H.
  - simpl in *. rewrite Hcol.
    destruct (Z.eqb_spec c (Z.of_nat (length col))) as [Heq|Hne].
    + destruct (IH (n0 + 1)) as (n & Hn & Hle & _). exists n.
      split; [exact Hn|]. split; [lia|]. split; [|lia].
      intros _. exists (k, c), col. split; [left|]. auto.
    + destruct (IH n0) as (n & Hn & Hle & Hiff). exists n.
      split; [exact Hn|]. split; [lia|]. rewrite Hiff. split.
      * intros (e & col' & He & H1 & H2). exists e, col'. split; [right; exact He|]. auto.
      * intros (e & col' & He & H1 & H2). apply elem_of_cons in He.
        destruct He as [->|He]; [|eauto]. simpl in *. congruence.
Qed.

Lemma selected_count w ci col :
  columns w !! ci = Some col ->
  length (filter (fun r : CubeRef => fst r = ci) (getSelectedCubes w)) =
  length (filter (fun c => is_matched c = true) col).
Proof.
  intros Hc. unfold getSelectedCubes. rewrite selected_cols_fst.
  destruct (decide (0 <= ci)%nat); [|lia].
  rewrite Nat.sub_0_r, Hc. apply selected_from_length.
Qed.

Lemma getSelectedCubes_valid w :
  Forall (fun r => is_Some (deref w r)) (getSelectedCubes w).
Proof.
  apply Forall_forall. intros [ci i] Hr.
  apply getSelectedCubes_elem in Hr. destruct Hr as (col & c & Hc & Hi & _).
  exists c. unfold deref. simpl. rewrite Hc. exact Hi.
Qed.

Lemma column_cleared_iff w ci col :
  columns w !! ci = Some col ->
  (column_cleared w (getSelectedCubes w) ci <->
   col <> [] /\ length (filter (fun c => is_matched c = true) col) = length col).
Proof.
  intros Hc. unfold column_cleared. split.
  - intros (col' & Hc' & Hne & Hall). rewrite Hc in Hc'. inversion Hc'; subst col'.
    split; [exact Hne|]. apply filter_length_all.
    apply Forall_lookup. intros i c Hi.
    assert (Hlt : (i < length col)%nat) by (eapply lookup_lt_Some; eauto).
    specialize (Hall i Hlt). apply getSelectedCubes_elem in Hall.
    destruct Hall as (col' & c' & Hc'' & Hi' & Hm). congruence.
  - intros [Hne Hlen]. exists col. split; [exact Hc|]. split; [exact Hne|].
    intros i Hlt. apply getSelectedCubes_elem.
    destruct (lookup_lt_is_Some_2 col i Hlt) as [c Hi].
    exists col, c. split; [exact Hc|]. split; [exact Hi|].
    apply filter_length_all in Hlen.
    eapply (Forall_lookup_1 _ _ _ _ Hlen Hi).
Qed.

(** On the cubes that a match takes, [_checkColumnClears] returns, and its
    count is positive exactly when the match clears some column. *)
Lemma checkColumnClears_selected w :
  board_ok w ->
  exists n, _checkColumnClears w (getSelectedCubes w) = Some n /\
            (0 < n <-> exists ci, column_cleared w (getSelectedCubes w) ci).
Proof.
  intros Hb. unfold _checkColumnClears.
  rewrite (count_columns_tally w _ [] Hb (getSelectedCubes_valid w)).
  set (keys := (fun r : CubeRef => Z.of_nat (fst r)) <$> getSelectedCubes w).
  assert (Hkey : forall k c, (k, c) ∈ tally keys [] ->
            exists ci col, k = Z.of_nat ci /\ columns w !! ci = Some col /\
              c = Z.of_nat (length (filter (fun c => is_matched c = true) col)) /\
              0 < c).
  { intros k c He. apply tally_elem in He. destruct He as [Hc Hpos].
    assert (Hex : exists ci i, k = Z.of_nat ci /\ (ci, i) ∈ getSelectedCubes w).
    { destruct (filter (fun x => x = k) keys) as [|k0 ks] eqn:Ef;
        [simpl in Hc; lia|].
      assert (Hin : k0 ∈ filter (fun x => x = k) keys) by (rewrite Ef; left).
      apply list_elem_of_filter in Hin. destruct Hin as [Hk Hin].
      unfold keys in Hin. apply list_elem_of_fmap in Hin.
      destruct Hin as ([ci i] & Hki & Hr). simpl in Hki.
      exists ci, i. split; [congruence|exact Hr]. }
    destruct Hex as (ci & i & -> & Hr).
    apply getSelectedCubes_elem in Hr.
    destruct Hr as (col & c0 & Hcol & _ & _).
    exists ci, col. split; [reflexivity|]. split; [exact Hcol|].
    split; [|exact Hpos]. rewrite Hc. unfold keys.
    rewrite keys_filter_length, (selected_count w ci col Hcol). reflexivity. }
  destruct (count_cleared_spec w (tally keys []) 0) as (n & Hn & _ & Hiff).
  { apply Forall_forall. intros [k c] He.
    destruct (Hkey k c He) as (ci & col & -> & Hcol & _).
    simpl. rewrite Nat2Z.id. eauto. }
  exists n. split; [exact Hn|]. rewrite Hiff. split.
  - intros ([k c] & col & He & Hcol & Hlen). simpl in *.
    destruct (Hkey k c He) as (ci & col' & -> & Hcol' & Hc & Hpos).
    rewrite Nat2Z.id in Hcol. assert (col' = col) by congruence. subst col'.
    exists ci. apply (column_cleared_iff w ci col Hcol). split.
    + intros ->. simpl in Hlen. lia.
    + lia.
  - intros (ci & Hcl). destruct Hcl as (col & Hcol & Hne & Hall).
    assert (Hcl : column_cleared w (getSelectedCubes w) ci)
      by (exists col; auto).
    apply (column_cleared_iff w ci col Hcol) in Hcl. destruct Hcl as [_ Hlen].
    exists (Z.of_nat ci, Z.of_nat (length col)), col. simpl.
    rewrite Nat2Z.id. split; [|auto].
    apply tally_elem. split.
    + unfold keys. rewrite keys_filter_length, (selected_count w ci col Hcol).
      lia.
    + destruct col; [congruence|simpl; lia].
Qed.

(** ** A match: combo, points, removal, next target *)

Lemma count_columns_ext w1 w cubes o :
  columns w1 = columns w -> count_columns w1 cubes o = count_columns w cubes o.
Proof.
  intros Hc. revert o. induction cubes as [|r cubes IH]; intros o; simpl.
  - reflexivity.
  - unfold deref. rewrite Hc. destruct (columns w !! fst r ≫= _); auto.
Qed.

Lemma count_cleared_ext w1 w entries n :
  columns w1 = columns w -> count_cleared w1 entries n = count_cleared w entries n.
Proof.
  intros Hc. revert n. induction entries as [|[k c] entries IH]; intros n; simpl.
  - reflexivity.
  - rewrite Hc. destruct (columns w !! Z.to_nat k); auto.
Qed.

Lemma checkColumnClears_ext w1 w cubes :
  columns w1 = columns w -> _checkColumnClears w1 cubes = _checkColumnClears w cubes.
Proof.
  intros Hc. unfold _checkColumnClears. rewrite (count_columns_ext _ _ _ _ Hc).
  destruct (count_columns w cubes []); [apply count_cleared_ext, Hc|reflexivity].
Qed.

Lemma total_for_each_modify {A} (l : list A) (f : A -> World -> World) w
    (post : unit -> World -> Prop) :
  post tt (fold_left (fun w x => f x w) l w) ->
  total (for_each l tt (fun _ x => modify (f x))) w post.
Proof.
  revert w. induction l as [|x l IH]; intros w H; simpl.
  - exact H.
  - apply total_bind, total_modify, IH, H.
Qed.

Lemma update_cubes_frame (g : Cube -> Cube) cubes w :
  off_board (fold_left (fun w r => update_cube r g w) cubes w) = off_board w.
Proof.
  revert w. induction cubes as [|r cubes IH]; intros w; simpl; [reflexivity|].
  rewrite IH. unfold update_cube. destruct (columns w !! fst r); reflexivity.
Qed.

Lemma half_lt (n : nat) : (0 < n)%nat -> (n / 2 < n)%nat.
Proof. intros H. apply Nat.div_lt; lia. Qed.

Lemma update_cubes_fields (g : Cube -> Cube) cubes w :
  plannedCubes (fold_left (fun w r => update_cube r g w) cubes w) = plannedCubes w /\
  comboCount (fold_left (fun w r => update_cube r g w) cubes w) = comboCount w /\
  lastMatchTime (fold_left (fun w r => update_cube r g w) cubes w) = lastMatchTime w /\
  score (fold_left (fun w r => update_cube r g w) cubes w) = score w.
Proof.
  pose proof (update_cubes_frame g cubes w) as H.
  repeat split.
  - exact (f_equal plannedCubes H).
  - exact (f_equal comboCount H).
  - exact (f_equal lastMatchTime H).
  - exact (f_equal score H).
Qed.

Lemma total_remove_matched cubes w (post : unit -> World -> Prop) :
  (forall w', plannedCubes w' = plannedCubes w -> comboCount w' = comboCount w ->
              lastMatchTime w' = lastMatchTime w -> score w' = score w ->
              post tt w') ->
  total (remove_matched cubes) w post.
Proof.
  intros H. unfold remove_matched. apply total_for_each_modify.
  destruct (update_cubes_fields
              (fun c => set_removeProgress 0%Q (set_removing true (set_selected false c)))
              cubes w) as (H1 & H2 & H3 & H4).
  apply H; assumption.
Qed.

Lemma total_advance_targets w (post : unit -> World -> Prop) :
  planned_inv (plannedCubes w) ->
  (forall w', comboCount w' = comboCount w ->
              lastMatchTime w' = lastMatchTime w -> score w' = score w ->
              post tt w') ->
  total advance_targets w post.
Proof.
  intros Hinv H. unfold advance_targets.
  apply total_bind, total_get. apply total_bind, total_modify.
  apply total_bind, total_generateTarget; [exact Hinv|].
  intros t' w4 Hg _.
  pose proof (f_equal comboCount Hg) as Hc.
  pose proof (f_equal lastMatchTime Hg) as Hl.
  pose proof (f_equal score Hg) as Hs.
  simpl in Hc, Hl, Hs.
  apply total_bind, total_get. apply total_bind, total_modify.
  apply total_bind, total_modify.
  unfold _checkLevelUp. apply total_bind, total_get.
  match goal with |- total (if ?c then _ else _) _ _ => destruct c end;
    [apply total_modify | apply total_ret]; apply H; simpl; assumption.
Qed.

Lemma onTargetMatch_run now w t ts cubes n :
  targets w = t :: ts ->
  planned_inv (plannedCubes w) ->
  cubes <> [] ->
  Forall (fun r => is_Some (deref w r)) cubes ->
  _checkColumnClears w cubes = Some n ->
  exists w',
    _onTargetMatch now cubes w = Ok (tt, w') /\
    comboCount w' = next_combo now w /\
    lastMatchTime w' = now /\
    score w' = score w +
      Qfloor (inject_Z t * inject_Z (Z.of_nat (length cubes)) *
              match_multiplier (next_combo now w) t n).
Proof.
  intros Ht Hinv Hne Hvalid Hclr.
  apply (total_run_unit _ _ (fun _ w' =>
    comboCount w' = next_combo now w /\ lastMatchTime w' = now /\
    score w' = score w +
      Qfloor (inject_Z t * inject_Z (Z.of_nat (length cubes)) *
              match_multiplier (next_combo now w) t n))).
  unfold _onTargetMatch. apply total_bind, total_get.
  apply total_bind. eapply total_defined; [rewrite Ht; reflexivity|].
  assert (Hlen : (0 < length cubes)%nat) by (destruct cubes; [congruence|simpl; lia]).
  destruct (lookup_lt_is_Some_2 cubes (length cubes / 2)%nat (half_lt _ Hlen))
    as [centerRef Hcenter].
  assert (Hcv : is_Some (deref w centerRef))
    by (eapply (Forall_lookup_1 _ _ _ _ Hvalid Hcenter)).
  destruct Hcv as [centerCube Hcc].
  unfold next_combo.
  destruct (Qltb (now - lastMatchTime w) COMBO_TIMEOUT && Qltb 0 (lastMatchTime w)).
  all: apply total_bind, total_modify.
  all: apply total_bind, total_modify.
  all: apply total_bind, total_get.
  all: apply total_bind.
  all: (eapply total_defined;
        [rewrite (checkColumnClears_ext _ w) by reflexivity; exact Hclr|]).
  all: apply total_bind, total_modify.
  all: apply total_bind.
  all: (eapply total_defined; [exact Hcenter|]).
  all: apply total_bind, total_get.
  all: apply total_bind.
  all: (eapply total_defined; [exact Hcc|]).
  all: apply total_bind, total_remove_matched.
  all: intros w3 Hp3 Hc3 Hl3 Hs3.
  all: apply total_advance_targets; [rewrite Hp3; exact Hinv|].
  all: intros w' Hc' Hl' Hs'.
  all: rewrite Hc', Hl', Hs', Hc3, Hl3, Hs3; simpl; auto.
Qed.

Lemma checkTarget_match now w t ts :
  targets w = t :: ts -> t <> 0 -> getSelectedSum w = t ->
  (MIN_CUBES_FOR_SUM <= length (getSelectedCubes w))%nat ->
  _checkTarget now w = _onTargetMatch now (getSelectedCubes w) w.
Proof.
  intros Ht Hnz Hsum Hlen. unfold _checkTarget at 1, bind at 1, get_world at 1.
  rewrite Ht. destruct (Z.eqb_spec t 0); [contradiction|].
  rewrite Hsum, Z.eqb_refl.
  destruct (Nat.leb_spec MIN_CUBES_FOR_SUM (length (getSelectedCubes w))); [|lia].
  reflexivity.
Qed.

Lemma match_multiplier_spec combo t n :
  (match_multiplier combo t n == spec_multiplier combo t (0 <? n))%Q.
Proof.
  unfold match_multiplier, spec_multiplier.
  destruct (2 <=? combo), (25 <=? t), (20 <=? t), (0 <? n); ring.
Qed.

Lemma match_points_spec combo t k n :
  Qfloor (inject_Z t * inject_Z k * match_multiplier combo t n) =
  spec_points t k combo (0 <? n).
Proof.
  unfold spec_points. apply Qfloor_comp.
  rewrite match_multiplier_spec. reflexivity.
Qed.

(** On a board where 12 and 8 are selected against the target 20, with no
    earlier match and no column cleared, the match gives 80 points, not 40:
    a target of 20 or more doubles the multiplier. *)
Lemma match20_counterexample :
  exists w',
    _checkTarget 0%Q match20_world = Ok (tt, w') /\
    targets match20_world = [20; 9; 11] /\
    length (getSelectedCubes match20_world) = 2%nat /\
    comboCount w' = 1 /\
    ~ (exists ci, column_cleared match20_world (getSelectedCubes match20_world) ci) /\
    score w' - score match20_world = 80 /\
    80 <> 40.
Proof.
  eexists. split; [vm_compute; reflexivity|].
  split; [reflexivity|]. split; [reflexivity|]. split; [reflexivity|].
  split; [|split; [reflexivity|discriminate]].
  intros Hcl.
  assert (Hb : board_ok match20_world).
  { intros ci col i c Hc Hi.
    do 4 (destruct ci as [|ci]; [inversion Hc; subst col;
          do 2 (destruct i as [|i]; [inversion Hi; reflexivity|]);
          try (destruct i; discriminate); try discriminate|]).
    discriminate. }
  destruct (checkColumnClears_selected match20_world Hb) as (n & Hn & Hiff).
  vm_compute in Hn. inversion Hn; subst n. apply Hiff in Hcl. lia.
Qed.

(** C3, amended. When the selected cubes match the target [t], the points
    added to the score are [floor(t * n * m)], with [n] the number of
    matched cubes and [m] the multiplier of the specification, computed
    from the combo counter that this match leaves and from whether the
    match clears a column (a column that holds cubes, all of them matched).
    Target 20 with 2 cubes, combo 1 and no cleared column gives 80 points
    (the multiplier is 2 from a target of 20 on); target 25 with 3 cubes,
    combo 3 and no cleared column gives 450. *)
Theorem match_points (w : World) (now : Q) (t : Z) (ts : list Z) :
  gen_reachable w -> board_ok w ->
  targets w = t :: ts -> t <> 0 -> getSelectedSum w = t ->
  (MIN_CUBES_FOR_SUM <= length (getSelectedCubes w))%nat ->
  (exists w' (cleared : bool),
      _checkTarget now w = Ok (tt, w') /\
      (cleared = true <-> exists ci, column_cleared w (getSelectedCubes w) ci) /\
      comboCount w' = next_combo now w /\
      score w' = score w +
        spec_points t (Z.of_nat (length (getSelectedCubes w)))
                    (comboCount w') cleared) /\
  spec_points 20 2 1 false = 80 /\
  spec_points 25 3 3 false = 450.
Proof.
  intros Hreach Hb Ht Hnz Hsum Hlen.
  split; [|split; vm_compute; reflexivity].
  destruct (checkColumnClears_selected w Hb) as (n & Hn & Hiff).
  destruct (onTargetMatch_run now w t ts (getSelectedCubes w) n Ht
              (gen_reachable_inv w Hreach)) as (w' & Hrun & Hc & _ & Hs).
  - intros E. rewrite E in Hlen. unfold MIN_CUBES_FOR_SUM in Hlen. simpl in Hlen. lia.
  - apply getSelectedCubes_valid.
  - exact Hn.
  - exists w', (0 <? n). split; [rewrite (checkTarget_match now w t ts); auto|].
    split; [rewrite <- Hiff; apply Z.ltb_lt|]. split; [exact Hc|].
    rewrite Hs, Hc. f_equal. apply match_points_spec.
Qed.

Lemma match20_reachable : gen_reachable match20_world.
Proof.
  apply (reach_game zero_world); [|reflexivity].
  apply (reach_reset zero_world). reflexivity.
Qed.

Lemma match20_board_ok : board_ok match20_world.
Proof.
  intros ci col i c Hc Hi.
  do 4 (destruct ci as [|ci]; [inversion Hc; subst col;
        do 2 (destruct i as [|i]; [inversion Hi; reflexivity|]);
        try (destruct i; discriminate); try discriminate|]).
  discriminate.
Qed.

Lemma match_points_witness :
  (gen_reachable match20_world /\ board_ok match20_world /\
   targets match20_world = 20 :: [9; 11] /\ 20 <> 0 /\
   getSelectedSum match20_world = 20 /\
   (MIN_CUBES_FOR_SUM <= length (getSelectedCubes match20_world))%nat) /\
  (exists w' (cleared : bool),
      _checkTarget 0%Q match20_world = Ok (tt, w') /\
      (cleared = true <->
       exists ci, column_cleared match20_world (getSelectedCubes match20_world) ci) /\
      comboCount w' = next_combo 0%Q match20_world /\
      score w' = score match20_world +
        spec_points 20 (Z.of_nat (length (getSelectedCubes match20_world)))
                    (comboCount w') cleared) /\
  spec_points 20 2 1 false = 80 /\
  spec_points 25 3 3 false = 450.
Proof.
  assert (H3 : targets match20_world = 20 :: [9; 11]) by reflexivity.
  assert (H4 : 20 <> 0) by discriminate.
  assert (H5 : getSelectedSum match20_world = 20) by reflexivity.
  assert (H6 : (MIN_CUBES_FOR_SUM <= length (getSelectedCubes match20_world))%nat)
    by (vm_compute; lia).
  split; [repeat split; auto using match20_reachable, match20_board_ok|].
  exact (match_points match20_world 0%Q 20 [9; 11] match20_reachable
                      match20_board_ok H3 H4 H5 H6).
Defined.

(** The two scenarios of the specification, run on the code. *)
Example match20_scores_80 :
  exists w', _checkTarget 0%Q match20_world = Ok (tt, w') /\
             score w' = 80 /\ comboCount w' = 1.
Proof. eexists. split; [vm_compute; reflexivity|]. split; reflexivity. Qed.

Example match25_scores_450 :
  exists w', _checkTarget 2000%Q match25_world = Ok (tt, w') /\
             score w' = 450 /\ comboCount w' = 3.
Proof. eexists. split; [vm_compute; reflexivity|]. split; reflexivity. Qed.

(** ** The first match after a reset *)

Lemma next_combo_fresh now w :
  (lastMatchTime w == 0)%Q -> next_combo now w = 1.
Proof.
  intros H. unfold next_combo, Qltb.
  assert (E : Qle_bool (lastMatchTime w) 0 = true).
  { apply Qle_bool_iff. rewrite H. apply Qle_refl. }
  rewrite E. simpl. rewrite andb_false_r. reflexivity.
Qed.

(** C10. [reset] leaves [lastMatchTime] at 0 and the combo counter at 0.
    As long as [lastMatchTime] is 0, a match handled by [_onTargetMatch]
    (called by [_checkTarget] on the selected cubes) returns with the combo
    counter at 1, whatever the timestamp [now] of the match is, also below
    the combo window of 5000 ms. *)
Theorem first_match_combo_one (w : World) (now : Q) (t : Z) (ts : list Z) :
  gen_reachable w -> board_ok w ->
  targets w = t :: ts -> getSelectedCubes w <> [] ->
  (lastMatchTime w == 0)%Q ->
  (exists w', _onTargetMatch now (getSelectedCubes w) w = Ok (tt, w') /\
              comboCount w' = 1 /\ lastMatchTime w' = now) /\
  (forall w0 wr, reset w0 = Ok (tt, wr) ->
                 lastMatchTime wr = 0%Q /\ comboCount wr = 0).
Proof.
  intros Hreach Hb Ht Hne Hlast. split.
  - destruct (checkColumnClears_selected w Hb) as (n & Hn & _).
    destruct (onTargetMatch_run now w t ts (getSelectedCubes w) n Ht
                (gen_reachable_inv w Hreach) Hne (getSelectedCubes_valid w) Hn)
      as (w' & Hrun & Hc & Hl & _).
    exists w'. split; [exact Hrun|]. split; [|exact Hl].
    rewrite Hc. apply next_combo_fresh, Hlast.
  - intros w0 wr Hr. unfold reset, generator_reset, bind, modify in Hr.
    inversion Hr; subst. split; reflexivity.
Qed.

Lemma first_match_combo_one_witness :
  (gen_reachable match20_world /\ board_ok match20_world /\
   targets match20_world = 20 :: [9; 11] /\
   getSelectedCubes match20_world <> [] /\
   (lastMatchTime match20_world == 0)%Q) /\
  (exists w', _onTargetMatch (100 # 1) (getSelectedCubes match20_world)
                             match20_world = Ok (tt, w') /\
              comboCount w' = 1 /\ lastMatchTime w' = (100 # 1)%Q) /\
  (forall w0 wr, reset w0 = Ok (tt, wr) ->
                 lastMatchTime wr = 0%Q /\ comboCount wr = 0).
Proof.
  assert (H3 : targets match20_world = 20 :: [9; 11]) by reflexivity.
  assert (H4 : getSelectedCubes match20_world <> []) by (vm_compute; discriminate).
  assert (H5 : (lastMatchTime match20_world == 0)%Q) by reflexivity.
  split; [repeat split; auto using match20_reachable, match20_board_ok|].
  exact (first_match_combo_one match20_world (100 # 1)%Q 20 [9; 11]
           match20_reachable match20_board_ok H3 H4 H5).
Defined.

(** * Further properties of the code *)

(** ** utils.js *)

(** X1. [getLevelConfig] never fails and clamps: a level of 1 or below gets
    the configuration of level 1, a level of 10 or above that of level 10.
    Difficulty is monotone in the level: a higher level never has a smaller
    [maxNumber] or [maxTarget], nor a longer [spawnInterval]. *)
Theorem getLevelConfig_monotone (l1 l2 : Z) :
  l1 <= l2 ->
  exists c1 c2,
    getLevelConfig l1 = Some c1 /\ getLevelConfig l2 = Some c2 /\
    maxNumber c1 <= maxNumber c2 /\ maxTarget c1 <= maxTarget c2 /\
    spawnInterval c2 <= spawnInterval c1 /\
    (l1 <= 1 -> c1 = mkLevel 6 15 3000) /\
    (10 <= l2 -> c2 = mkLevel 12 35 1400).
Proof.
  intros Hle. unfold getLevelConfig, clamp. simpl length.
  set (i1 := Z.to_nat (Z.max 1 (Z.min (Z.of_nat 11 - 1) l1))).
  set (i2 := Z.to_nat (Z.max 1 (Z.min (Z.of_nat 11 - 1) l2))).
  assert (H1 : (1 <= i1 /\ i1 <= i2 /\ i2 <= 10)%nat) by (unfold i1, i2; lia).
  assert (Hlo : l1 <= 1 -> i1 = 1%nat) by (unfold i1; lia).
  assert (Hhi : 10 <= l2 -> i2 = 10%nat) by (unfold i2; lia).
  clearbody i1 i2.
  assert (E1 : (i1 = 1 \/ i1 = 2 \/ i1 = 3 \/ i1 = 4 \/ i1 = 5 \/ i1 = 6 \/
                i1 = 7 \/ i1 = 8 \/ i1 = 9 \/ i1 = 10)%nat) by lia.
  assert (E2 : (i2 = 1 \/ i2 = 2 \/ i2 = 3 \/ i2 = 4 \/ i2 = 5 \/ i2 = 6 \/
                i2 = 7 \/ i2 = 8 \/ i2 = 9 \/ i2 = 10)%nat) by lia.
  repeat (destruct E1 as [E1|E1]); repeat (destruct E2 as [E2|E2]); subst i1 i2;
    try lia;
    (eexists _, _; split; [reflexivity|]; split; [reflexivity|];
     simpl; repeat split; try lia;
     try (intros Hx; first [specialize (Hlo Hx) | specialize (Hhi Hx)];
          first [reflexivity | discriminate])).
Qed.

Lemma getLevelConfig_monotone_witness :
  3 <= 8 /\
  exists c1 c2,
    getLevelConfig 3 = Some c1 /\ getLevelConfig 8 = Some c2 /\
    maxNumber c1 <= maxNumber c2 /\ maxTarget c1 <= maxTarget c2 /\
    spawnInterval c2 <= spawnInterval c1 /\
    (3 <= 1 -> c1 = mkLevel 6 15 3000) /\
    (10 <= 8 -> c2 = mkLevel 12 35 1400).
Proof.
  assert (H : 3 <= 8) by lia.
  split; [exact H|]. exact (getLevelConfig_monotone 3 8 H).
Defined.

(** X2. [randomInt(lo, hi)] with [lo <= hi] returns an integer of
    [[lo, hi]]; it reads one random draw and changes nothing else. *)
Theorem randomInt_in_range (lo hi : Z) (w : World) :
  lo <= hi ->
  exists v, randomInt lo hi w = Ok (v, set_rnd_next (S (rnd_next w)) w) /\
            lo <= v <= hi.
Proof.
  intros Hle. eexists. split; [reflexivity|].
  pose proof (floor_mul_range (rnd_source w (rnd_next w)) (hi - lo + 1)).
  lia.
Qed.

Lemma randomInt_in_range_witness :
  6 <= 10 /\
  exists v, randomInt 6 10 zero_world
            = Ok (v, set_rnd_next (S (rnd_next zero_world)) zero_world) /\
            6 <= v <= 10.
Proof.
  assert (H : 6 <= 10) by lia.
  split; [exact H|]. exact (randomInt_in_range 6 10 zero_world H).
Defined.

(** X3. [randomChoice] of an array that is not empty returns one of its
    elements; of an empty array it returns [undefined]. Either way it reads
    one random draw and changes nothing else. *)
Theorem randomChoice_member {A} (arr : list A) (w : World) :
  exists o, randomChoice arr w = Ok (o, set_rnd_next (S (rnd_next w)) w) /\
            (arr = [] -> o = None) /\
            (arr <> [] -> exists x, o = Some x /\ x ∈ arr).
Proof.
  eexists. split; [reflexivity|]. split.
  - intros ->. reflexivity.
  - intros Hne.
    set (r := rnd_source w (rnd_next w)).
    assert (Hlen : 0 < Z.of_nat (length arr))
      by (destruct arr; [congruence | simpl; lia]).
    pose proof (floor_mul_range r _ Hlen) as Hr.
    destruct (lookup_lt_is_Some_2 arr
                (Z.to_nat (floor_mul (rand_val r) (Z.of_nat (length arr)))))
      as [x Hx]; [lia|].
    exists x. split; [exact Hx|]. eapply list_elem_of_lookup_2; eauto.
Qed.

Lemma insert_head_Permutation {A} (t : list A) (k : nat) (u v : A) :
  t !! k = Some u -> u :: <[k:=v]> t ≡ₚ v :: t.
Proof.
  intros Hk.
  assert (Hlt : (k < length t)%nat) by (eapply lookup_lt_Some; eauto).
  assert (Hd : delete k (<[k:=v]> t) = delete k t).
  { rewrite !delete_take_drop. rewrite take_insert_ge by lia.
    rewrite drop_insert_lt by lia. reflexivity. }
  assert (H1 : <[k:=v]> t ≡ₚ v :: delete k t).
  { rewrite <- Hd. apply delete_Permutation.
    apply list_lookup_insert_eq. exact Hlt. }
  assert (H2 : t ≡ₚ u :: delete k t) by (apply delete_Permutation; exact Hk).
  etransitivity; [apply Permutation_skip; exact H1|].
  etransitivity; [apply Permutation_swap|].
  apply Permutation_skip. symmetry. exact H2.
Qed.

Lemma insert_insert_Permutation {A} (a : list A) (i j : nat) (x y : A) :
  a !! i = Some x -> a !! j = Some y -> <[j:=x]> (<[i:=y]> a) ≡ₚ a.
Proof.
  revert i j. induction a as [|h t IH]; intros i j Ei Ej; [reflexivity|].
  destruct i as [|i], j as [|j]; simpl in *.
  - inversion Ei; inversion Ej; subst. reflexivity.
  - inversion Ei; subst h. apply insert_head_Permutation. exact Ej.
  - inversion Ej; subst h. apply insert_head_Permutation. exact Ei.
  - apply Permutation_skip. apply IH; assumption.
Qed.

Lemma swap_Permutation {A} (a : list A) (i j : nat) : swap a i j ≡ₚ a.
Proof.
  unfold swap.
  destruct (a !! i) as [x|] eqn:Ei; [|reflexivity].
  destruct (a !! j) as [y|] eqn:Ej; [|reflexivity].
  apply insert_insert_Permutation; assumption.
Qed.

Lemma shuffle_from_spec {A} (i : nat) (a : list A) (w : World) :
  exists a', shuffle_from i a w = Ok (a', set_rnd_next (rnd_next w + i) w) /\
             a' ≡ₚ a.
Proof.
  revert a w. induction i as [|i IH]; intros a w.
  - exists a. split; [|reflexivity]. simpl. unfold ret.
    rewrite Nat.add_0_r. destruct w; reflexivity.
  - cbn [shuffle_from]. unfold bind at 1, Math_random.
    set (j := Z.to_nat _).
    destruct (IH (swap a (S i) j) (set_rnd_next (S (rnd_next w)) w))
      as (a' & Hrun & Hperm).
    exists a'. split.
    + rewrite Hrun. simpl. unfold set_rnd_next. simpl.
      do 3 f_equal. lia.
    + rewrite Hperm. apply swap_Permutation.
Qed.

(** X4. [shuffle] returns a permutation of its argument: no element is
    lost, added or duplicated. It reads [length - 1] random draws (none for
    an empty array) and changes nothing else. *)
Theorem shuffle_permutation {A} (arr : list A) (w : World) :
  exists a,
    shuffle arr w = Ok (a, set_rnd_next (rnd_next w + (length arr - 1)) w) /\
    a ≡ₚ arr.
Proof. unfold shuffle. apply shuffle_from_spec. Qed.

(** ** generator.js: the searches *)

Lemma good_ext_top_any (vals : list Z) (maxCubes : nat) (c : list nat) :
  good_ext maxCubes (length vals) 0 0 c <->
  is_combination vals MIN_CUBES_FOR_SUM maxCubes c.
Proof.
  unfold good_ext, is_combination. rewrite increasing_from_sorted. simpl.
  split.
  - intros ((_ & Hs) & Hall & Hlen). auto.
  - intros (Hs & Hall & Hlen). repeat split; auto; try lia.
    apply Forall_forall. intros; lia.
Qed.

Lemma combos_of_any (vals : list Z) (maxCubes : nat) (s : Z) (c : list nat) :
  c ∈ combos_of s (findAllPossibleSums vals maxCubes) <->
  is_combination vals MIN_CUBES_FOR_SUM maxCubes c /\ combo_sum vals c = s.
Proof.
  rewrite combos_of_findAllPossibleSums, list_elem_of_filter.
  rewrite (proj1 (exts_char_both maxCubes vals)), good_ext_top_any. tauto.
Qed.

(** The keys of the map of [findAllPossibleSums] are the sums of the
    combinations. *)
Lemma possible_sums_keys (vals : list Z) (maxCubes : nat) (s : Z) :
  map_has s (findAllPossibleSums vals maxCubes) = true <->
  exists c, is_combination vals MIN_CUBES_FOR_SUM maxCubes c /\
            combo_sum vals c = s.
Proof.
  destruct (findAllPossibleSums_ok vals maxCubes) as [Hk Hne].
  rewrite map_has_elem. split.
  - intros Hin. apply list_elem_of_fmap in Hin. destruct Hin as ([s' cs] & -> & Hin).
    simpl. pose proof Hin as Hget. apply (map_get_elem _ _ _ Hk) in Hget.
    rewrite Forall_forall in Hne. specialize (Hne _ Hin). simpl in Hne.
    destruct cs as [|c cs]; [congruence|]. exists c.
    apply combos_of_any. unfold combos_of. rewrite Hget. left.
  - intros (c & Hc & Hs). assert (Hin : c ∈ combos_of s (findAllPossibleSums vals maxCubes))
      by (apply combos_of_any; auto).
    unfold combos_of in Hin.
    destruct (map_get s (findAllPossibleSums vals maxCubes)) as [cs|] eqn:E;
      [|inversion Hin].
    apply (map_get_elem _ _ _ Hk) in E. apply list_elem_of_fmap.
    exists (s, cs). auto.
Qed.

(** X5. For every bound [maxCubes], a sum is a key of the map returned by
    [findAllPossibleSums] exactly when some strictly increasing list of
    2 to [maxCubes] positions has values that add up to it. *)
Theorem findAllPossibleSums_keys (vals : list Z) (maxCubes : nat) (s : Z) :
  map_has s (findAllPossibleSums vals maxCubes) = true <->
  exists c, is_combination vals MIN_CUBES_FOR_SUM maxCubes c /\
            combo_sum vals c = s.
Proof. exact (possible_sums_keys vals maxCubes s). Qed.

(** X6. [findAllPossibleSums] returns the empty map exactly when there are
    fewer than two values or the bound [maxCubes] is below 2: with two
    values and a bound of 2 or more, the first two positions are listed. *)
Theorem findAllPossibleSums_empty (vals : list Z) (maxCubes : nat) :
  findAllPossibleSums vals maxCubes = [] <->
  (length vals < 2)%nat \/ (maxCubes < 2)%nat.
Proof.
  split.
  - intros E.
    destruct (decide (length vals < 2)%nat) as [|Hv]; [auto|].
    destruct (decide (maxCubes < 2)%nat) as [|Hm]; [auto|]. exfalso.
    assert (Hc : is_combination vals MIN_CUBES_FOR_SUM maxCubes [0; 1]%nat).
    { unfold is_combination, MIN_CUBES_FOR_SUM. simpl. split; [|split].
      - repeat constructor.
      - repeat constructor; lia.
      - lia. }
    assert (H : map_has (combo_sum vals [0; 1]%nat)
                        (findAllPossibleSums vals maxCubes) = true)
      by (apply possible_sums_keys; eauto).
    rewrite E in H. discriminate.
  - intros Hor.
    destruct (findAllPossibleSums vals maxCubes) as [|[s cs] m] eqn:E;
      [reflexivity|]. exfalso.
    assert (H : map_has s (findAllPossibleSums vals maxCubes) = true).
    { rewrite E. unfold map_has. simpl. rewrite Z.eqb_refl. reflexivity. }
    apply possible_sums_keys in H. destruct H as (c & (Hs & Hall & Hlen) & _).
    unfold MIN_CUBES_FOR_SUM in Hlen. destruct Hor as [Hv|Hm]; [|lia].
    (* two distinct positions below [length vals] *)
    destruct c as [|i [|j c]]; simpl in Hlen; try lia.
    apply StronglySorted_inv in Hs. destruct Hs as [_ Hlt].
    inversion Hlt; subst. inversion Hall as [|? ? _ Hall']; subst.
    inversion Hall'; subst. unfold Nat.lt in *. lia.
Qed.

Lemma StronglySorted_filter_keep {A} (R : A -> A -> Prop) (P : A -> Prop)
    `{forall x, Decision (P x)} (l : list A) :
  StronglySorted R l -> StronglySorted R (filter P l).
Proof.
  induction 1 as [|x l Hs IH Hall]; [constructor|].
  rewrite filter_cons. case_decide; [|exact IH].
  constructor; [exact IH|]. apply Forall_forall. intros y Hy.
  apply list_elem_of_filter in Hy. rewrite Forall_forall in Hall.
  apply Hall, Hy.
Qed.

(** X7. [_findHelpfulValues] returns, in ascending order and without
    repetition, exactly the face values [x] of [[1, maxValue]] such that,
    with a cube [x] added after the existing ones, some 2 to 4 cubes add up
    to the target. *)
Theorem findHelpfulValues_exact (existing : list Z) (target maxValue : Z) :
  StronglySorted Z.lt (_findHelpfulValues existing target maxValue) /\
  forall x, x ∈ _findHelpfulValues existing target maxValue <->
    1 <= x <= maxValue /\
    exists c, is_combination (existing ++ [x]) MIN_CUBES_FOR_SUM 4 c /\
              combo_sum (existing ++ [x]) c = target.
Proof.
  unfold _findHelpfulValues. split.
  - apply StronglySorted_filter_keep. unfold range.
    generalize 0%nat as k. induction (Z.to_nat maxValue) as [|n IH]; intros k.
    + constructor.
    + simpl. constructor; [apply IH|].
      apply Forall_forall. intros y Hy. apply list_elem_of_fmap in Hy.
      destruct Hy as (i & -> & Hi). apply elem_of_seq in Hi. lia.
  - intros x. rewrite list_elem_of_filter, possible_sums_keys. split.
    + intros [Hc Hx]. apply range_elem in Hx. split; [lia|exact Hc].
    + intros [Hx Hc]. split; [exact Hc|]. unfold range.
      apply list_elem_of_fmap. exists (Z.to_nat (x - 1)). split; [lia|].
      apply elem_of_seq. lia.
Qed.

Lemma comb_search_unfold count rest remaining depth used results :
  comb_search count rest remaining depth used results =
  if (depth =? count)%nat
  then (if remaining =? 0 then results ++ [used] else results)
  else comb_loop count remaining depth used rest results.
Proof. destruct rest; reflexivity. Qed.

Lemma sum_list_nil : sum_list [] = 0.
Proof. reflexivity. Qed.

Lemma comb_search_char (count : nat) (rest : list Z) :
  (forall remaining depth used results r,
      r ∈ comb_search count rest remaining depth used results <->
      r ∈ results \/
      exists ext, r = used ++ ext /\ ext `sublist_of` rest /\
                  (depth + length ext = count)%nat /\
                  sum_list ext = remaining /\ pruned ext remaining) /\
  (forall remaining depth used res r,
      depth <> count ->
      r ∈ comb_loop count remaining depth used rest res <->
      r ∈ res \/
      exists ext, r = used ++ ext /\ ext `sublist_of` rest /\
                  (depth + length ext = count)%nat /\
                  sum_list ext = remaining /\ pruned ext remaining).
Proof.
  assert (Hstep : forall rest,
    (forall remaining depth used res r,
        depth <> count ->
        r ∈ comb_loop count remaining depth used rest res <->
        r ∈ res \/
        exists ext, r = used ++ ext /\ ext `sublist_of` rest /\
                    (depth + length ext = count)%nat /\
                    sum_list ext = remaining /\ pruned ext remaining) ->
    forall remaining depth used results r,
      r ∈ comb_search count rest remaining depth used results <->
      r ∈ results \/
      exists ext, r = used ++ ext /\ ext `sublist_of` rest /\
                  (depth + length ext = count)%nat /\
                  sum_list ext = remaining /\ pruned ext remaining).
  { intros l Hloop remaining depth used results r.
    rewrite comb_search_unfold.
    destruct (Nat.eqb_spec depth count) as [Heq|Hne]; [|apply Hloop, Hne].
    assert (Hext : forall ext : list Z,
               (depth + length ext = count)%nat -> ext = [])
      by (intros [|x e] H; [reflexivity | simpl in H; lia]).
    destruct (Z.eqb_spec remaining 0) as [Hz|Hnz].
    - rewrite elem_of_app, list_elem_of_singleton. split.
      + intros [H| ->]; [auto|]. right. exists []. rewrite app_nil_r.
        repeat split; auto; [apply sublist_nil_l | simpl; lia].
      + intros [H|(ext & -> & _ & Hl & _)]; [auto|].
        rewrite (Hext ext Hl), app_nil_r. auto.
    - split; [auto|]. intros [H|(ext & _ & _ & Hl & Hs & _)]; [exact H|].
      rewrite (Hext ext Hl) in Hs. rewrite sum_list_nil in Hs. congruence. }
  induction rest as [|v l' [IHs IHl]].
  - assert (Hloop : forall remaining depth used res r,
        depth <> count ->
        r ∈ comb_loop count remaining depth used [] res <->
        r ∈ res \/
        exists ext, r = used ++ ext /\ ext `sublist_of` [] /\
                    (depth + length ext = count)%nat /\
                    sum_list ext = remaining /\ pruned ext remaining).
    { intros remaining depth used res r Hne. simpl. split; [auto|].
      intros [H|(ext & _ & Hsub & Hl & _)]; [exact H|].
      apply sublist_nil_r in Hsub. subst ext. simpl in Hl. lia. }
    split; [apply Hstep|]; exact Hloop.
  - assert (Hloop : forall remaining depth used res r,
        depth <> count ->
        r ∈ comb_loop count remaining depth used (v :: l') res <->
        r ∈ res \/
        exists ext, r = used ++ ext /\ ext `sublist_of` v :: l' /\
                    (depth + length ext = count)%nat /\
                    sum_list ext = remaining /\ pruned ext remaining).
    { intros remaining depth used res r Hne. cbn [comb_loop].
      fold (comb_loop count remaining depth used).
      rewrite (IHl remaining depth used _ r Hne). split.
      - intros [Hres|(ext & -> & Hsub & Hl & Hs & Hp)].
        + destruct (Z.leb_spec v remaining) as [Hle|Hgt]; [|auto].
          apply IHs in Hres.
          destruct Hres as [H|(e' & -> & Hsub & Hl & Hs & Hp)]; [auto|].
          right. exists (v :: e'). rewrite <- app_assoc. simpl.
          split; [reflexivity|]. split; [apply sublist_skip, Hsub|].
          split; [lia|]. rewrite sum_list_cons. split; [lia|]. auto.
        + right. exists ext. split; [reflexivity|].
          split; [apply sublist_cons, Hsub|]. auto.
      - intros [H|(ext & -> & Hsub & Hl & Hs & Hp)].
        + left. destruct (v <=? remaining); [|exact H].
          apply IHs. auto.
        + apply sublist_cons_r in Hsub.
          destruct Hsub as [Hsub|(e' & -> & Hsub)].
          * right. exists ext. auto.
          * left. simpl in Hp. destruct Hp as [Hle Hp].
            destruct (Z.leb_spec v remaining) as [_|Hgt]; [|lia].
            apply IHs. right. exists e'. rewrite <- app_assoc. simpl.
            split; [reflexivity|]. split; [exact Hsub|].
            simpl in Hl. split; [lia|]. rewrite sum_list_cons in Hs.
            split; [lia|exact Hp]. }
    split; [apply Hstep|]; exact Hloop.
Qed.

Lemma sum_list_nonneg (l : list Z) : Forall (fun v => 0 <= v) l -> 0 <= sum_list l.
Proof.
  induction 1 as [|x l Hx _ IH]; [rewrite sum_list_nil; lia|].
  rewrite sum_list_cons. lia.
Qed.

Lemma pruned_nonneg (ext : list Z) (remaining : Z) :
  Forall (fun v => 0 <= v) ext -> sum_list ext = remaining -> pruned ext remaining.
Proof.
  intros Hall. revert remaining. induction Hall as [|v e Hv Hall IH]; intros rem Hs.
  - exact I.
  - rewrite sum_list_cons in Hs. pose proof (sum_list_nonneg e Hall).
    simpl. split; [lia|]. apply IH. lia.
Qed.

(** X8. Every list that [_findCombinations(values, target, count)] returns
    picks [count] of the values, in their order, and adds up to [target].
    When no value is negative the pruning loses nothing: every such pick is
    returned. *)
Theorem findCombinations_exact (values : list Z) (target : Z) (count : nat)
    (r : list Z) :
  (r ∈ _findCombinations values target count ->
   r `sublist_of` values /\ length r = count /\ sum_list r = target) /\
  (Forall (fun v => 0 <= v) values ->
   r `sublist_of` values -> length r = count -> sum_list r = target ->
   r ∈ _findCombinations values target count).
Proof.
  unfold _findCombinations.
  pose proof (proj1 (comb_search_char count values) target 0%nat [] [] r) as H.
  split.
  - intros Hin. apply H in Hin.
    destruct Hin as [Hin|(ext & -> & Hsub & Hl & Hs & _)]; [inversion Hin|].
    simpl. auto.
  - intros Hpos Hsub Hl Hs. apply H. right. exists r. simpl.
    repeat split; auto.
    apply pruned_nonneg; [|exact Hs].
    rewrite Forall_forall in *. intros x Hx. apply Hpos.
    eapply elem_of_sublist; eauto.
Qed.

Lemma findCombinations_exact_witness :
  (Forall (fun v => 0 <= v) [2; 3; 5] /\ [3; 5] `sublist_of` [2; 3; 5] /\
   length [3; 5] = 2%nat /\ sum_list [3; 5] = 8) /\
  [3; 5] ∈ _findCombinations [2; 3; 5] 8 2.
Proof.
  assert (H1 : Forall (fun v => 0 <= v) [2; 3; 5]) by (repeat constructor; lia).
  assert (H2 : [3; 5] `sublist_of` [2; 3; 5])
    by (apply sublist_cons; repeat apply sublist_skip; apply sublist_nil).
  split; [repeat split; auto|].
  exact (proj2 (findCombinations_exact [2; 3; 5] 8 2 [3; 5]) H1 H2 eq_refl eq_refl).
Defined.

Lemma achievable_search_unfold rest remaining count used results :
  achievable_search rest remaining count used results =
  if (remaining =? 0) && (MIN_CUBES_FOR_SUM <=? count)%nat
  then results ++ [used]
  else if (remaining <? 0) || (MAX_CUBES_FOR_SUM <=? count)%nat
  then results
  else achievable_loop remaining count used rest results.
Proof. destruct rest; reflexivity. Qed.

Lemma achievable_search_char (rest : list (CubeRef * Cube)) :
  (forall remaining count used results r,
      r ∈ achievable_search rest remaining count used results <->
      r ∈ results \/
      exists ext, r = used ++ (fst <$> ext) /\ ext `sublist_of` rest /\
                  path_ok ext remaining count) /\
  (forall remaining count used res r,
      ~ (remaining = 0 /\ (MIN_CUBES_FOR_SUM <= count)%nat) ->
      0 <= remaining -> (count < MAX_CUBES_FOR_SUM)%nat ->
      r ∈ achievable_loop remaining count used rest res <->
      r ∈ res \/
      exists ext, r = used ++ (fst <$> ext) /\ ext `sublist_of` rest /\
                  path_ok ext remaining count).
Proof.
  assert (Hstep : forall rest,
    (forall remaining count used res r,
        ~ (remaining = 0 /\ (MIN_CUBES_FOR_SUM <= count)%nat) ->
        0 <= remaining -> (count < MAX_CUBES_FOR_SUM)%nat ->
        r ∈ achievable_loop remaining count used rest res <->
        r ∈ res \/
        exists ext, r = used ++ (fst <$> ext) /\ ext `sublist_of` rest /\
                    path_ok ext remaining count) ->
    forall remaining count used results r,
      r ∈ achievable_search rest remaining count used results <->
      r ∈ results \/
      exists ext, r = used ++ (fst <$> ext) /\ ext `sublist_of` rest /\
                  path_ok ext remaining count).
  { intros l Hloop remaining count used results r.
    rewrite achievable_search_unfold.
    destruct (Z.eqb_spec remaining 0) as [Hz|Hnz];
      destruct (Nat.leb_spec MIN_CUBES_FOR_SUM count) as [Hc|Hc]; cbn [andb].
    - rewrite elem_of_app, list_elem_of_singleton. split.
      + intros [H| ->]; [auto|]. right. exists []. simpl. rewrite app_nil_r.
        repeat split; auto. apply sublist_nil_l.
      + intros [H|(ext & -> & _ & Hp)]; [auto|]. right.
        destruct ext as [|x e]; simpl in Hp; [simpl; rewrite app_nil_r; reflexivity|].
        destruct Hp as [Hn _]. exfalso. apply Hn. auto.
    - destruct (Z.ltb_spec remaining 0) as [Hneg|Hpos]; [lia|].
      destruct (Nat.leb_spec MAX_CUBES_FOR_SUM count) as [Hm|Hm]; cbn [orb].
      + unfold MAX_CUBES_FOR_SUM, MIN_CUBES_FOR_SUM in *. lia.
      + apply Hloop; [lia|lia|exact Hm].
    - destruct (Z.ltb_spec remaining 0) as [Hneg|Hpos]; cbn [orb].
      + split; [auto|]. intros [H|(ext & _ & _ & Hp)]; [exact H|].
        destruct ext; simpl in Hp; lia.
      + destruct (Nat.leb_spec MAX_CUBES_FOR_SUM count) as [Hm|Hm].
        * split; [auto|]. intros [H|(ext & _ & _ & Hp)]; [exact H|].
          destruct ext; simpl in Hp; lia.
        * apply Hloop; [lia|lia|exact Hm].
    - destruct (Z.ltb_spec remaining 0) as [Hneg|Hpos]; cbn [orb].
      + split; [auto|]. intros [H|(ext & _ & _ & Hp)]; [exact H|].
        destruct ext; simpl in Hp; lia.
      + destruct (Nat.leb_spec MAX_CUBES_FOR_SUM count) as [Hm|Hm].
        * split; [auto|]. intros [H|(ext & _ & _ & Hp)]; [exact H|].
          destruct ext; simpl in Hp; lia.
        * apply Hloop; [lia|lia|exact Hm]. }
  induction rest as [|x l' [IHs IHl]].
  - assert (Hloop : forall remaining count used res r,
        ~ (remaining = 0 /\ (MIN_CUBES_FOR_SUM <= count)%nat) ->
        0 <= remaining -> (count < MAX_CUBES_FOR_SUM)%nat ->
        r ∈ achievable_loop remaining count used [] res <->
        r ∈ res \/
        exists ext, r = used ++ (fst <$> ext) /\ ext `sublist_of` [] /\
                    path_ok ext remaining count).
    { intros remaining count used res r Hn Hr Hc. simpl. split; [auto|].
      intros [H|(ext & _ & Hsub & Hp)]; [exact H|].
      apply sublist_nil_r in Hsub. subst ext. simpl in Hp. tauto. }
    split; [apply Hstep|]; exact Hloop.
  - assert (Hloop : forall remaining count used res r,
        ~ (remaining = 0 /\ (MIN_CUBES_FOR_SUM <= count)%nat) ->
        0 <= remaining -> (count < MAX_CUBES_FOR_SUM)%nat ->
        r ∈ achievable_loop remaining count used (x :: l') res <->
        r ∈ res \/
        exists ext, r = used ++ (fst <$> ext) /\ ext `sublist_of` x :: l' /\
                    path_ok ext remaining count).
    { intros remaining count used res r Hn Hr Hc. cbn [achievable_loop].
      fold (achievable_loop remaining count used).
      rewrite (IHl remaining count used _ r Hn Hr Hc), IHs. split.
      - intros [[H|(e' & -> & Hsub & Hp)]|(ext & -> & Hsub & Hp)].
        + auto.
        + right. exists (x :: e'). rewrite <- app_assoc. simpl.
          split; [reflexivity|]. split; [apply sublist_skip, Hsub|].
          repeat split; auto.
        + right. exists ext. split; [reflexivity|].
          split; [apply sublist_cons, Hsub|]. exact Hp.
      - intros [H|(ext & -> & Hsub & Hp)]; [auto|].
        apply sublist_cons_r in Hsub.
        destruct Hsub as [Hsub|(e' & -> & Hsub)].
        + right. exists ext. auto.
        + left. right. exists e'. rewrite <- app_assoc. simpl.
          split; [reflexivity|]. split; [exact Hsub|].
          simpl in Hp. tauto. }
    split; [apply Hstep|]; exact Hloop.
Qed.

Lemma path_ok_sound ext remaining count :
  path_ok ext remaining count ->
  cubes_sum ext = remaining /\
  (MIN_CUBES_FOR_SUM <= count + length ext)%nat /\
  (ext <> [] -> (count + length ext <= MAX_CUBES_FOR_SUM)%nat).
Proof.
  revert remaining count. induction ext as [|x e IH]; intros rem cnt Hp; simpl in *.
  - destruct Hp as [-> Hc]. split; [reflexivity|]. split; [lia|congruence].
  - destruct Hp as (_ & _ & Hc & Hp). destruct (IH _ _ Hp) as (Hs & Hmin & Hmax).
    unfold cubes_sum in *. rewrite fmap_cons, sum_list_cons.
    split; [lia|]. split; [lia|]. intros _.
    destruct e as [|y e']; [simpl; lia|].
    specialize (Hmax ltac:(discriminate)). lia.
Qed.

Lemma path_ok_positive ext remaining count :
  Forall (fun x => 0 < value (snd x)) ext ->
  cubes_sum ext = remaining ->
  (MIN_CUBES_FOR_SUM <= count + length ext)%nat ->
  (count + length ext <= MAX_CUBES_FOR_SUM)%nat ->
  path_ok ext remaining count.
Proof.
  intros Hall. revert remaining count.
  induction Hall as [|x e Hx Hall IH]; intros rem cnt Hs Hmin Hmax; simpl in *.
  - unfold cubes_sum in Hs. simpl in Hs. rewrite sum_list_nil in Hs. split; lia.
  - unfold cubes_sum in Hs. rewrite fmap_cons, sum_list_cons in Hs.
    assert (0 <= cubes_sum e).
    { unfold cubes_sum. apply sum_list_nonneg. apply Forall_fmap.
      eapply Forall_impl; [exact Hall|]. simpl. intros; lia. }
    unfold cubes_sum in *.
    split; [lia|]. split; [lia|]. split; [lia|].
    apply IH; [lia|lia|lia].
Qed.

Lemma flat_from_elem ci i0 col x :
  x ∈ flat_from ci i0 col <->
  exists i c, x = ((ci, (i0 + i)%nat), c) /\ col !! i = Some c /\
              removing c = false.
Proof.
  revert i0. induction col as [|h col IH]; intros i0; simpl.
  - split; [intros H; inversion H|]. intros (i & c & _ & H & _). destruct i; discriminate.
  - rewrite elem_of_app, IH. split.
    + intros [H|(i & c & -> & Hc & Hr)].
      * destruct (removing h) eqn:E; [inversion H|].
        apply list_elem_of_singleton in H. subst x.
        exists 0%nat, h. rewrite Nat.add_0_r. auto.
      * exists (S i), c. split; [do 2 f_equal; lia|]. auto.
    + intros (i & c & -> & Hc & Hr). destruct i as [|i]; simpl in Hc.
      * inversion Hc; subst h. rewrite Hr. left. rewrite Nat.add_0_r.
        apply list_elem_of_singleton. reflexivity.
      * right. exists i, c. split; [do 2 f_equal; lia|]. auto.
Qed.

Lemma flat_cols_elem ci0 cols x :
  x ∈ flat_cols ci0 cols <->
  exists ci col, cols !! ci = Some col /\ x ∈ flat_from (ci0 + ci) 0 col.
Proof.
  revert ci0. induction cols as [|h cols IH]; intros ci0; simpl.
  - split; [intros H; inversion H|]. intros (ci & col & H & _). destruct ci; discriminate.
  - rewrite elem_of_app, IH. split.
    + intros [H|(ci & col & Hc & Hr)].
      * exists 0%nat, h. rewrite Nat.add_0_r. auto.
      * exists (S ci), col. replace (ci0 + S ci)%nat with (S ci0 + ci)%nat by lia. auto.
    + intros (ci & col & Hc & Hr). destruct ci as [|ci]; simpl in Hc.
      * inversion Hc; subst h. rewrite Nat.add_0_r in Hr. auto.
      * right. exists ci, col.
        replace (S ci0 + ci)%nat with (ci0 + S ci)%nat by lia. auto.
Qed.

Lemma getAllCubesFlat_elem w r c :
  (r, c) ∈ _getAllCubesFlat w <-> deref w r = Some c /\ removing c = false.
Proof.
  unfold _getAllCubesFlat, deref. rewrite flat_cols_elem. split.
  - intros (ci & col & Hc & Hx). apply flat_from_elem in Hx.
    destruct Hx as (i & c' & Heq & Hi & Hr). inversion Heq; subst. simpl.
    rewrite Hc. simpl. auto.
  - destruct r as [ci i]. simpl. intros [Hd Hr].
    destruct (columns w !! ci) as [col|] eqn:Ec; [|discriminate]. simpl in Hd.
    exists ci, col. split; [exact Ec|]. apply flat_from_elem.
    exists i, c. auto.
Qed.

Lemma flat_from_values ci i0 col :
  snd <$> flat_from ci i0 col = filter (fun c => removing c = false) col.
Proof.
  revert i0. induction col as [|h col IH]; intros i0; simpl; [reflexivity|].
  rewrite fmap_app, IH, filter_cons.
  destruct (removing h); case_decide; try congruence; reflexivity.
Qed.

Lemma flat_cols_values ci cols :
  snd <$> flat_cols ci cols = filter (fun c => removing c = false) (concat cols).
Proof.
  revert ci. induction cols as [|h cols IH]; intros ci; simpl; [reflexivity|].
  rewrite fmap_app, IH, flat_from_values, filter_app. reflexivity.
Qed.

Lemma getAllCubeValues_flat w :
  _getAllCubeValues w = (fun x => value (snd x)) <$> _getAllCubesFlat w.
Proof.
  unfold _getAllCubeValues, _getAllCubesFlat.
  rewrite <- (flat_cols_values 0), <- list_fmap_compose. reflexivity.
Qed.

(** The combinations listed by [checkTargetAchievable], soundly and, over
    positive values, completely. *)
Lemma target_achievable_char (w : World) (target : Z) :
  (forall r, r ∈ snd (checkTargetAchievable w target) ->
     exists ext, r = fst <$> ext /\ ext `sublist_of` _getAllCubesFlat w /\
                 (MIN_CUBES_FOR_SUM <= length ext <= MAX_CUBES_FOR_SUM)%nat /\
                 cubes_sum ext = target) /\
  (Forall (fun x => 0 < value (snd x)) (_getAllCubesFlat w) ->
   (forall ext, ext `sublist_of` _getAllCubesFlat w ->
      (MIN_CUBES_FOR_SUM <= length ext <= MAX_CUBES_FOR_SUM)%nat ->
      cubes_sum ext = target ->
      fst <$> ext ∈ snd (checkTargetAchievable w target)) /\
   (fst (checkTargetAchievable w target) = true <->
    exists ext, ext `sublist_of` _getAllCubesFlat w /\
                (MIN_CUBES_FOR_SUM <= length ext <= MAX_CUBES_FOR_SUM)%nat /\
                cubes_sum ext = target)).
Proof.
  unfold checkTargetAchievable. cbn [fst snd].
  pose proof (fun r => proj1 (achievable_search_char (_getAllCubesFlat w))
                             target 0%nat [] [] r) as Hchar.
  assert (Hsound : forall r,
    r ∈ achievable_search (_getAllCubesFlat w) target 0 [] [] ->
    exists ext, r = fst <$> ext /\ ext `sublist_of` _getAllCubesFlat w /\
                (MIN_CUBES_FOR_SUM <= length ext <= MAX_CUBES_FOR_SUM)%nat /\
                cubes_sum ext = target).
  { intros r Hin. apply Hchar in Hin.
    destruct Hin as [Hin|(ext & -> & Hsub & Hp)]; [inversion Hin|].
    exists ext. split; [reflexivity|]. split; [exact Hsub|].
    destruct (path_ok_sound _ _ _ Hp) as (Hs & Hmin & Hmax). simpl in *.
    split; [|exact Hs]. split; [exact Hmin|]. apply Hmax.
    intros ->. simpl in Hmin. unfold MIN_CUBES_FOR_SUM in Hmin. lia. }
  split; [exact Hsound|]. intros Hpos.
  assert (Hcomplete : forall ext, ext `sublist_of` _getAllCubesFlat w ->
    (MIN_CUBES_FOR_SUM <= length ext <= MAX_CUBES_FOR_SUM)%nat ->
    cubes_sum ext = target ->
    fst <$> ext ∈ achievable_search (_getAllCubesFlat w) target 0 [] []).
  { intros ext Hsub Hlen Hs. apply Hchar. right. exists ext.
    split; [reflexivity|]. split; [exact Hsub|].
    apply path_ok_positive; simpl; try lia; try exact Hs.
    rewrite Forall_forall in *. intros x Hx. apply Hpos.
    eapply elem_of_sublist; eauto. }
  split; [exact Hcomplete|].
  remember (achievable_search (_getAllCubesFlat w) target 0 [] []) as rs eqn:E.
  clear E Hchar. split.
  - intros Hne. destruct rs as [|r rs]; [discriminate|].
    destruct (Hsound r) as (ext & _ & H); [left|]. eauto.
  - intros (ext & Hsub & Hlen & Hs). specialize (Hcomplete ext Hsub Hlen Hs).
    destruct rs; [inversion Hcomplete|reflexivity].
Qed.

(** X9. Every combination that [checkTargetAchievable(target)] lists takes
    2 to 5 cubes of the board that are not being removed, in board order
    and each at most once, and their values add up to the target. When the
    values of those cubes are all positive, every such choice of cubes is
    listed, so [possible] is true exactly when one exists. *)
Theorem checkTargetAchievable_exact (w : World) (target : Z) :
  (forall r, r ∈ snd (checkTargetAchievable w target) ->
     exists ext, r = fst <$> ext /\ ext `sublist_of` _getAllCubesFlat w /\
                 (MIN_CUBES_FOR_SUM <= length ext <= MAX_CUBES_FOR_SUM)%nat /\
                 cubes_sum ext = target) /\
  (Forall (fun x => 0 < value (snd x)) (_getAllCubesFlat w) ->
   (forall ext, ext `sublist_of` _getAllCubesFlat w ->
      (MIN_CUBES_FOR_SUM <= length ext <= MAX_CUBES_FOR_SUM)%nat ->
      cubes_sum ext = target ->
      fst <$> ext ∈ snd (checkTargetAchievable w target)) /\
   (fst (checkTargetAchievable w target) = true <->
    exists ext, ext `sublist_of` _getAllCubesFlat w /\
                (MIN_CUBES_FOR_SUM <= length ext <= MAX_CUBES_FOR_SUM)%nat /\
                cubes_sum ext = target)).
Proof. exact (target_achievable_char w target). Qed.

Lemma checkTargetAchievable_exact_witness :
  Forall (fun x => 0 < value (snd x)) (_getAllCubesFlat match20_world) /\
  (forall ext, ext `sublist_of` _getAllCubesFlat match20_world ->
     (MIN_CUBES_FOR_SUM <= length ext <= MAX_CUBES_FOR_SUM)%nat ->
     cubes_sum ext = 20 ->
     fst <$> ext ∈ snd (checkTargetAchievable match20_world 20)) /\
  (fst (checkTargetAchievable match20_world 20) = true <->
   exists ext, ext `sublist_of` _getAllCubesFlat match20_world /\
               (MIN_CUBES_FOR_SUM <= length ext <= MAX_CUBES_FOR_SUM)%nat /\
               cubes_sum ext = 20).
Proof.
  assert (H : Forall (fun x => 0 < value (snd x)) (_getAllCubesFlat match20_world))
    by (repeat constructor).
  split; [exact H|].
  exact (proj2 (checkTargetAchievable_exact match20_world 20) H).
Defined.

Lemma increasing_from_ge lo c :
  increasing_from lo c -> Forall (fun j : nat => (lo <= j)%nat) c.
Proof. intros H. apply increasing_from_sorted in H. tauto. Qed.

Lemma increasing_from_weaken lo lo' c :
  (lo' <= lo)%nat -> increasing_from lo c -> increasing_from lo' c.
Proof. destruct c; simpl; [auto|]. intros ? [? ?]. split; [lia|auto]. Qed.

Lemma positions_sublist (vals : list Z) (lo : nat) (c : list nat) :
  increasing_from lo c ->
  Forall (fun j : nat => (j < lo + length vals)%nat) c ->
  ((fun i => default 0 (vals !! (i - lo)%nat)) <$> c) `sublist_of` vals.
Proof.
  revert lo c. induction vals as [|v t IH]; intros lo c Hinc Hall.
  - destruct c as [|i c]; [constructor|]. simpl in *.
    inversion Hall; subst. lia.
  - assert (Hshift : forall c', Forall (fun j : nat => (S lo <= j)%nat) c' ->
              (fun i => default 0 ((v :: t) !! (i - lo)%nat)) <$> c' =
              (fun i => default 0 (t !! (i - S lo)%nat)) <$> c').
    { intros c' Hge. apply list_fmap_ext. intros k j Hj.
      assert (S lo <= j)%nat.
      { rewrite Forall_forall in Hge. apply Hge.
        eapply list_elem_of_lookup_2; eauto. }
      replace (j - lo)%nat with (S (j - S lo)) by lia. reflexivity. }
    destruct c as [|i c]; [apply sublist_nil_l|].
    simpl in Hinc. destruct Hinc as [Hlo Hinc]. inversion Hall as [|? ? Hi Hall']; subst.
    destruct (decide (i = lo)) as [->|Hne].
    + rewrite fmap_cons, Nat.sub_diag. simpl.
      rewrite (Hshift c (increasing_from_ge _ _ Hinc)).
      apply sublist_skip, IH; [exact Hinc|].
      eapply Forall_impl; [exact Hall'|]. simpl. intros; lia.
    + assert (Hinc' : increasing_from (S lo) (i :: c)) by (simpl; split; [lia|exact Hinc]).
      rewrite (Hshift (i :: c) (increasing_from_ge _ _ Hinc')).
      apply sublist_cons, IH; [exact Hinc'|].
      eapply Forall_impl; [exact Hall|]. simpl. intros; lia.
Qed.

Lemma increasing_from_S lo c :
  increasing_from lo c -> increasing_from (S lo) (S <$> c).
Proof.
  revert lo. induction c as [|i c IH]; intros lo; simpl; [auto|].
  intros [Hlo Hinc]. split; [lia|]. apply IH, Hinc.
Qed.

Lemma sublist_positions (l vals : list Z) :
  l `sublist_of` vals ->
  exists c, increasing_from 0 c /\
            Forall (fun j : nat => (j < length vals)%nat) c /\
            l = (fun i => default 0 (vals !! i)) <$> c.
Proof.
  induction 1 as [|x l1 l2 _ (c & Hinc & Hall & ->)|x l1 l2 _ (c & Hinc & Hall & ->)].
  - exists []. repeat split; constructor.
  - exists (0%nat :: (S <$> c)). simpl. split; [split; [lia|]|split].
    + apply increasing_from_S, Hinc.
    + constructor; [lia|]. apply Forall_fmap.
      eapply Forall_impl; [exact Hall|]. simpl. intros; lia.
    + f_equal. rewrite <- list_fmap_compose. reflexivity.
  - exists (S <$> c). simpl. split; [|split].
    + apply (increasing_from_weaken 1); [lia|]. apply increasing_from_S, Hinc.
    + apply Forall_fmap. eapply Forall_impl; [exact Hall|]. simpl. intros; lia.
    + rewrite <- list_fmap_compose. reflexivity.
Qed.

(** Positions or picked values: the two ways of naming a combination. *)
Lemma combination_sublist (vals : list Z) (lo hi : nat) (s : Z) :
  (exists c, is_combination vals lo hi c /\ combo_sum vals c = s) <->
  (exists l, l `sublist_of` vals /\ (lo <= length l <= hi)%nat /\ sum_list l = s).
Proof.
  split.
  - intros (c & (Hs & Hall & Hlen) & Hsum).
    exists ((fun i => default 0 (vals !! i)) <$> c).
    split; [|split; [rewrite length_fmap; exact Hlen | exact Hsum]].
    assert (Hinc : increasing_from 0 c).
    { apply increasing_from_sorted. split; [|exact Hs].
      apply Forall_forall. intros; lia. }
    pose proof (positions_sublist vals 0 c Hinc Hall) as H.
    erewrite list_fmap_ext; [exact H|].
    intros k j Hk. simpl. rewrite Nat.sub_0_r. reflexivity.
  - intros (l & Hsub & Hlen & Hsum).
    destruct (sublist_positions l vals Hsub) as (c & Hinc & Hall & ->).
    exists c. rewrite length_fmap in Hlen. split; [|exact Hsum].
    apply increasing_from_sorted in Hinc. destruct Hinc as [_ Hs].
    split; [exact Hs|]. split; [exact Hall|exact Hlen].
Qed.

Lemma sublist_fmap_inv {A B} (f : A -> B) (l : list B) (k : list A) :
  l `sublist_of` (f <$> k) -> exists k', k' `sublist_of` k /\ l = f <$> k'.
Proof.
  revert l. induction k as [|x k IH]; intros l Hsub; simpl in Hsub.
  - apply sublist_nil_r in Hsub. subst. exists []. split; [constructor|reflexivity].
  - apply sublist_cons_r in Hsub. destruct Hsub as [Hsub|(l' & -> & Hsub)].
    + destruct (IH l Hsub) as (k' & Hk & ->). exists k'.
      split; [apply sublist_cons, Hk|reflexivity].
    + destruct (IH l' Hsub) as (k' & Hk & ->). exists (x :: k').
      split; [apply sublist_skip, Hk|reflexivity].
Qed.

(** X10. The two searches of the generator agree on a board whose cubes
    have positive values: [checkTargetAchievable(target).possible] is true
    exactly when [target] is a key of [findAllPossibleSums] over the cubes
    of the board that are not being removed. *)
Theorem achievable_iff_possible_sum (w : World) (target : Z) :
  Forall (fun x => 0 < value (snd x)) (_getAllCubesFlat w) ->
  (fst (checkTargetAchievable w target) = true <->
   map_has target
     (findAllPossibleSums (_getAllCubeValues w) MAX_CUBES_FOR_SUM) = true).
Proof.
  intros Hpos.
  rewrite (proj2 (proj2 (target_achievable_char w target) Hpos)).
  rewrite possible_sums_keys, combination_sublist, getAllCubeValues_flat.
  split.
  - intros (ext & Hsub & Hlen & Hs).
    exists ((fun x => value (snd x)) <$> ext). split; [|split].
    + apply fmap_sublist. exact Hsub.
    + rewrite length_fmap. exact Hlen.
    + exact Hs.
  - intros (l & Hsub & Hlen & Hs).
    destruct (sublist_fmap_inv _ _ _ Hsub) as (ext & Hext & ->).
    exists ext. rewrite length_fmap in Hlen. auto.
Qed.

Lemma achievable_iff_possible_sum_witness :
  Forall (fun x => 0 < value (snd x)) (_getAllCubesFlat match20_world) /\
  (fst (checkTargetAchievable match20_world 20) = true <->
   map_has 20
     (findAllPossibleSums (_getAllCubeValues match20_world) MAX_CUBES_FOR_SUM)
   = true).
Proof.
  assert (H : Forall (fun x => 0 < value (snd x)) (_getAllCubesFlat match20_world))
    by (repeat constructor).
  split; [exact H|]. exact (achievable_iff_possible_sum match20_world 20 H).
Defined.

(** ** generator.js: targets, cube values, columns *)

Lemma total_generateTarget_range w (post : Z -> World -> Prop) :
  planned_inv (plannedCubes w) ->
  (forall t w' c, getLevelConfig (level w) = Some c ->
                  game_part w' = game_part w ->
                  planned_inv (plannedCubes w') ->
                  MIN_TARGET <= t <= maxTarget c -> post t w') ->
  total generateTarget w post.
Proof.
  intros Hinv Hpost. unfold generateTarget. apply total_bind, total_get.
  destruct (getLevelConfig_bounds (level w)) as (c & Hc & Hn & Ht).
  assert (Hfb : total (_generateFallbackTarget (getLevelConfig (level w))) w post).
  { eapply total_fallback; [exact Hc|lia|exact Hinv|].
    intros t w' Hg Hi -> _. apply (Hpost _ _ c); auto.
    unfold clamp, MIN_TARGET. lia. }
  destruct (findAllPossibleSums _ _) as [|e0 sums] eqn:Es; [exact Hfb|].
  rewrite Hc. apply total_bind. unfold cfg_maxTarget. apply total_bind.
  eapply total_defined; [reflexivity|]. apply total_ret.
  rewrite <- Hc.
  match goal with |- total (match ?x with _ => _ end) _ _ =>
    destruct x as [|v0 vs] eqn:Ev end; [exact Hfb|].
  apply total_chooseSum; [discriminate|].
  intros e w' He Hg Hp. apply (Hpost _ _ c); [exact Hc|exact Hg| |].
  - rewrite Hp. exact Hinv.
  - rewrite <- Ev in He. apply list_elem_of_filter in He.
    destruct He as [He _]. apply andb_true_iff in He. lia.
Qed.

(** X11. In every reachable world [generateTarget] returns a target of
    [[MIN_TARGET, maxTarget]] for the current level, on either path, and it
    leaves the board, the queues, the targets, the score and the level as
    they were. *)
Theorem generateTarget_in_range (w : World) :
  gen_reachable w ->
  exists t w' c,
    generateTarget w = Ok (t, w') /\
    getLevelConfig (level w) = Some c /\
    MIN_TARGET <= t <= maxTarget c /\
    columns w' = columns w /\ queues w' = queues w /\
    targets w' = targets w /\ score w' = score w /\ level w' = level w.
Proof.
  intros Hreach.
  assert (H : total generateTarget w (fun t w' =>
            exists c, getLevelConfig (level w) = Some c /\
                      MIN_TARGET <= t <= maxTarget c /\
                      game_part w' = game_part w)).
  { apply total_generateTarget_range; [apply gen_reachable_inv, Hreach|].
    intros t w' c Hc Hg _ Ht. eauto. }
  apply total_run in H. destruct H as (t & w' & Hrun & c & Hc & Ht & Hg).
  exists t, w', c. split; [exact Hrun|]. split; [exact Hc|]. split; [exact Ht|].
  repeat split.
  - exact (f_equal columns Hg).
  - exact (f_equal queues Hg).
  - exact (f_equal targets Hg).
  - exact (f_equal score Hg).
  - exact (f_equal level Hg).
Qed.

Lemma generateTarget_in_range_witness :
  gen_reachable match20_world /\
  exists t w' c,
    generateTarget match20_world = Ok (t, w') /\
    getLevelConfig (level match20_world) = Some c /\
    MIN_TARGET <= t <= maxTarget c /\
    columns w' = columns match20_world /\ queues w' = queues match20_world /\
    targets w' = targets match20_world /\ score w' = score match20_world /\
    level w' = level match20_world.
Proof.
  split; [exact match20_reachable|].
  exact (generateTarget_in_range match20_world match20_reachable).
Defined.

Lemma chooseSum_run (validSums : list SumEntry) (w : World) :
  validSums <> [] ->
  exists e, _chooseSumByDifficulty validSums w
            = Ok (fst e, set_rnd_next (S (S (rnd_next w))) w) /\
            e ∈ validSums.
Proof.
  intros Hne. unfold _chooseSumByDifficulty, bind at 1, Math_random.
  fold (next_draw w).
  pose proof (choose_pool_nonempty (next_draw w) validSums Hne) as Hpool.
  set (pool := choose_pool (next_draw w) validSums) in *.
  set (w1 := set_rnd_next (S (rnd_next w)) w).
  assert (Hlen : 0 < Z.of_nat (length pool))
    by (destruct pool; [congruence | simpl; lia]).
  pose proof (floor_mul_range (rnd_source w1 (rnd_next w1)) _ Hlen) as Hr.
  destruct (lookup_lt_is_Some_2 pool
              (Z.to_nat (floor_mul (rand_val (rnd_source w1 (rnd_next w1)))
                                   (Z.of_nat (length pool)))))
    as [e He]; [lia|].
  exists e. split.
  - unfold bind, randomChoice, bind, Math_random, ret. rewrite He. reflexivity.
  - assert (Hin : e ∈ pool) by (eapply list_elem_of_lookup_2; eauto).
    unfold pool in Hin.
    destruct (choose_pool_cases (next_draw w) validSums)
      as [(_ & _ & E)|[(_ & _ & _ & E)|[(_ & _ & _ & E)|(_ & _ & _ & E)]]];
      rewrite E in Hin; auto;
      unfold by2, by3, by4 in Hin; apply list_elem_of_filter in Hin; tauto.
Qed.

Lemma valid_sums_nonempty (w : World) (maxT : Z) :
  filter (fun e : SumEntry => (MIN_TARGET <=? fst e) && (fst e <=? maxT) = true)
         (findAllPossibleSums (available w) MAX_CUBES_FOR_SUM) <> [] <->
  valid_sum_exists w maxT.
Proof.
  unfold valid_sum_exists. split.
  - intros Hne.
    destruct (filter _ _) as [|e vs] eqn:Ev; [congruence|].
    assert (He : e ∈ filter (fun e : SumEntry =>
                   (MIN_TARGET <=? fst e) && (fst e <=? maxT) = true)
                   (findAllPossibleSums (available w) MAX_CUBES_FOR_SUM))
      by (rewrite Ev; left).
    apply list_elem_of_filter in He. destruct He as [Hr He].
    apply andb_true_iff in Hr.
    assert (Hk : map_has (fst e)
                   (findAllPossibleSums (available w) MAX_CUBES_FOR_SUM) = true).
    { apply map_has_elem. apply list_elem_of_fmap. eauto. }
    apply possible_sums_keys in Hk. destruct Hk as (c & Hc & Hs).
    exists c. split; [exact Hc|]. rewrite Hs. lia.
  - intros (c & Hc & Hr) E.
    assert (Hk : map_has (combo_sum (available w) c)
                   (findAllPossibleSums (available w) MAX_CUBES_FOR_SUM) = true)
      by (apply possible_sums_keys; eauto).
    apply map_has_elem in Hk. apply list_elem_of_fmap in Hk.
    destruct Hk as (e & Hfe & He).
    assert (Hin : e ∈ filter (fun e : SumEntry =>
                   (MIN_TARGET <=? fst e) && (fst e <=? maxT) = true)
                   (findAllPossibleSums (available w) MAX_CUBES_FOR_SUM)).
    { apply list_elem_of_filter. split; [|exact He].
      rewrite <- Hfe. apply andb_true_iff. lia. }
    rewrite E in Hin. inversion Hin.
Qed.

(** X12. [generateTarget] takes the search path exactly when some 2 to 5
    of the available cubes (board, queues, planned) add up to a target
    allowed at the current level. It then returns such a sum, reads two
    random draws and plans nothing. Otherwise it does what
    [_generateFallbackTarget] does. *)
Theorem generateTarget_paths (w : World) (cfg : LevelConfig) :
  getLevelConfig (level w) = Some cfg ->
  (valid_sum_exists w (maxTarget cfg) ->
   exists t c,
     generateTarget w = Ok (t, set_rnd_next (S (S (rnd_next w))) w) /\
     is_combination (available w) MIN_CUBES_FOR_SUM MAX_CUBES_FOR_SUM c /\
     combo_sum (available w) c = t /\
     MIN_TARGET <= t <= maxTarget cfg) /\
  (~ valid_sum_exists w (maxTarget cfg) ->
   generateTarget w = _generateFallbackTarget (Some cfg) w).
Proof.
  intros Hc.
  pose proof (valid_sums_nonempty w (maxTarget cfg)) as Hiff.
  assert (Hgen : generateTarget w =
    match findAllPossibleSums (available w) MAX_CUBES_FOR_SUM with
    | [] => _generateFallbackTarget (Some cfg) w
    | _ :: _ =>
        match filter (fun e : SumEntry =>
                (MIN_TARGET <=? fst e) && (fst e <=? maxTarget cfg) = true)
                (findAllPossibleSums (available w) MAX_CUBES_FOR_SUM) with
        | [] => _generateFallbackTarget (Some cfg) w
        | vs => _chooseSumByDifficulty vs w
        end
    end).
  { unfold generateTarget, bind at 1, get_world at 1. rewrite Hc.
    fold (available w).
    destruct (findAllPossibleSums (available w) MAX_CUBES_FOR_SUM)
      as [|e0 sums']; [reflexivity|].
    unfold bind at 1, cfg_maxTarget, bind at 1, defined, ret at 1.
    change (ret (maxTarget cfg) w) with (Ok (maxTarget cfg, w)). cbv beta iota.
    match goal with |- ?L = ?R =>
      match L with context [match ?x with [] => _ | _ :: _ => _ end w] =>
        match R with context [match ?y with [] => _ | _ :: _ => _ end] =>
          change y with x; destruct x; reflexivity
        end
      end
    end. }
  rewrite Hgen. clear Hgen.
  remember (findAllPossibleSums (available w) MAX_CUBES_FOR_SUM) as sums eqn:Es.
  split.
  - intros Hv. apply Hiff in Hv.
    destruct sums as [|e0 sums']; [exfalso; apply Hv; reflexivity|].
    match goal with |- context [match ?x with [] => _ | _ :: _ => _ end] =>
      remember x as vs eqn:Ev end.
    destruct vs as [|v0 vs']; [exfalso; apply Hv; reflexivity|].
    destruct (chooseSum_run (v0 :: vs') w ltac:(discriminate)) as (e & Hrun & He).
    assert (Hin : e ∈ filter (fun e : SumEntry =>
                   (MIN_TARGET <=? fst e) && (fst e <=? maxTarget cfg) = true)
                   (e0 :: sums')) by (revert He; rewrite Ev; exact (fun H => H)).
    apply list_elem_of_filter in Hin. destruct Hin as [Hr Hin].
    apply andb_true_iff in Hr.
    assert (Hk : map_has (fst e)
                   (findAllPossibleSums (available w) MAX_CUBES_FOR_SUM) = true).
    { apply map_has_elem. apply list_elem_of_fmap. exists e.
      split; [reflexivity|]. rewrite <- Es. exact Hin. }
    apply possible_sums_keys in Hk. destruct Hk as (c & Hcomb & Hs).
    exists (fst e), c. split; [exact Hrun|]. split; [exact Hcomb|].
    split; [exact Hs|]. lia.
  - intros Hv.
    destruct sums as [|e0 sums']; [reflexivity|].
    match goal with |- context [match ?x with [] => _ | _ :: _ => _ end] =>
      remember x as vs eqn:Ev end.
    destruct vs as [|v0 vs']; [reflexivity|].
    exfalso. apply Hv, Hiff. discriminate.
Qed.

Lemma generateTarget_paths_witness :
  getLevelConfig (level zero_world) = Some (mkLevel 6 15 3000) /\
  ~ valid_sum_exists zero_world (maxTarget (mkLevel 6 15 3000)) /\
  generateTarget zero_world
  = _generateFallbackTarget (Some (mkLevel 6 15 3000)) zero_world.
Proof.
  assert (H1 : getLevelConfig (level zero_world) = Some (mkLevel 6 15 3000))
    by reflexivity.
  assert (H2 : ~ valid_sum_exists zero_world (maxTarget (mkLevel 6 15 3000))).
  { intros (c & (Hs & Hall & Hlen) & _). unfold MIN_CUBES_FOR_SUM in Hlen.
    destruct c as [|i c]; simpl in Hlen; [lia|].
    inversion Hall as [|? ? Hi _]; subst. simpl in Hi. lia. }
  split; [exact H1|]. split; [exact H2|].
  exact (proj2 (generateTarget_paths zero_world _ H1) H2).
Defined.

Lemma concat_imap_elem {A B} (f : nat -> A -> list B) (l : list A) (x : B) :
  x ∈ concat (imap f l) <-> exists i a, l !! i = Some a /\ x ∈ f i a.
Proof.
  revert f. induction l as [|a l IH]; intros f.
  - simpl. split; [intros H; inversion H|intros (i & b & H & _); destruct i; discriminate].
  - rewrite imap_cons. simpl. rewrite elem_of_app, IH. split.
    + intros [H|(i & b & Hi & H)]; [exists 0%nat, a; auto|exists (S i), b; auto].
    + intros (i & b & Hi & H). destruct i as [|i]; simpl in Hi.
      * injection Hi as ->. left. exact H.
      * right. exists i, b. auto.
Qed.

Lemma chooseColumn_candidates (w : World) (c : nat) :
  c ∈ concat (imap (fun i h =>
                      if (MAX_COLUMN_HEIGHT <=? h)%nat then []
                      else replicate (Nat.max 1 (MAX_COLUMN_HEIGHT - h)) i)
                   (length <$> columns w)) <->
  has_room w c.
Proof.
  rewrite concat_imap_elem. unfold has_room. split.
  - intros (i & h & Hi & Hc). rewrite list_lookup_fmap in Hi.
    destruct (columns w !! i) as [col|] eqn:Ecol; [|discriminate].
    simpl in Hi. injection Hi as <-.
    destruct (Nat.leb_spec MAX_COLUMN_HEIGHT (length col)) as [Hle|Hlt];
      [inversion Hc|].
    apply elem_of_replicate in Hc. destruct Hc as [-> _]. eauto.
  - intros (col & Hcol & Hlt). exists c, (length col). split.
    + rewrite list_lookup_fmap, Hcol. reflexivity.
    + destruct (Nat.leb_spec MAX_COLUMN_HEIGHT (length col)) as [Hle|_]; [lia|].
      apply elem_of_replicate. split; [reflexivity|lia].
Qed.

Lemma chooseColumn_run (w : World) :
  exists c, chooseColumn w = Ok (c, set_rnd_next (S (rnd_next w)) w) /\
            (has_room w c \/
             ((c < NUM_COLUMNS)%nat /\ forall i, ~ has_room w i)).
Proof.
  unfold chooseColumn, bind at 1, get_world at 1.
  pose proof (chooseColumn_candidates w) as Hcand.
  remember (concat (imap (fun i h =>
                      if (MAX_COLUMN_HEIGHT <=? h)%nat then []
                      else replicate (Nat.max 1 (MAX_COLUMN_HEIGHT - h)) i)
                   (length <$> columns w))) as cands eqn:Ec.
  destruct cands as [|c0 cands'].
  - unfold randomInt, Math_random, bind, ret, get_world.
    pose proof (floor_mul_range (rnd_source w (rnd_next w))
                  (Z.of_nat NUM_COLUMNS - 1 - 0 + 1) ltac:(unfold NUM_COLUMNS; lia))
      as Hr.
    eexists. split; [reflexivity|]. right. split.
    + unfold NUM_COLUMNS in *. lia.
    + intros i Hi. apply Hcand in Hi. inversion Hi.
  - set (cands := c0 :: cands') in *.
    assert (Hlen : 0 < Z.of_nat (length cands)) by (simpl; lia).
    pose proof (floor_mul_range (rnd_source w (rnd_next w)) _ Hlen) as Hr.
    destruct (lookup_lt_is_Some_2 cands
                (Z.to_nat (floor_mul (rand_val (rnd_source w (rnd_next w)))
                                     (Z.of_nat (length cands)))))
      as [c Hc]; [lia|].
    exists c. split.
    + unfold bind, randomChoice, bind, Math_random, ret, defined.
      rewrite Hc. reflexivity.
    + left. apply Hcand. eapply list_elem_of_lookup_2; eauto.
Qed.

(** X13. [chooseColumn] reads one random draw and changes nothing else.
    When some column is below [MAX_COLUMN_HEIGHT] the index it returns is
    that of a column with room: a full column is never chosen. Only when
    no column has room does it return an arbitrary index below
    [NUM_COLUMNS]. *)
Theorem chooseColumn_never_full (w : World) :
  exists c,
    chooseColumn w = Ok (c, set_rnd_next (S (rnd_next w)) w) /\
    ((exists i, has_room w i) -> has_room w c) /\
    ((forall i, ~ has_room w i) -> (c < NUM_COLUMNS)%nat).
Proof.
  destruct (chooseColumn_run w) as (c & Hrun & [Hroom|[Hlt Hnone]]);
    exists c; (split; [exact Hrun|]); split; auto.
  - intros Hnone. exfalso. exact (Hnone c Hroom).
  - intros (i & Hi). exfalso. exact (Hnone i Hi).
Qed.

Lemma first_free_full (cols : list nat) (w : World) :
  (forall i, i ∈ cols -> (i < length (columns w))%nat) ->
  (forall i, ~ has_room w i) ->
  first_free cols w = Ok (-1, w).
Proof.
  intros Hdef Hnone. induction cols as [|i cols IH]; [reflexivity|].
  simpl. unfold bind at 1, get_world at 1. unfold bind at 1.
  destruct (lookup_lt_is_Some_2 (columns w) i) as [col Hcol];
    [apply Hdef; left|].
  rewrite Hcol. simpl.
  destruct (Nat.ltb_spec (length col) MAX_COLUMN_HEIGHT) as [Hlt|Hge].
  - exfalso. apply (Hnone i). exists col. auto.
  - apply IH. intros j Hj. apply Hdef. right. exact Hj.
Qed.

Lemma chooseSpawnColumn_run (w : World) :
  length (columns w) = NUM_COLUMNS ->
  exists r,
    _chooseSpawnColumn w = Ok (r, set_rnd_next (S (rnd_next w)) w) /\
    ((r = -1 /\ forall i, ~ has_room w i) \/
     (0 <= r /\ has_room w (Z.to_nat r))).
Proof.
  intros Hlen. unfold _chooseSpawnColumn, bind at 1.
  destruct (chooseColumn_run w) as (c & -> & Hc).
  unfold bind at 1, get_world at 1. unfold bind at 1.
  set (w1 := set_rnd_next (S (rnd_next w)) w).
  assert (Hroom : forall i, has_room w1 i <-> has_room w i) by reflexivity.
  destruct Hc as [(col & Hcol & Hlt)|[Hlt Hnone]].
  - change (columns w1) with (columns w). rewrite Hcol. simpl.
    apply Nat.ltb_lt in Hlt. rewrite Hlt. unfold ret.
    eexists. split; [reflexivity|]. right. split; [lia|].
    rewrite Nat2Z.id. exists col. split; [exact Hcol|]. apply Nat.ltb_lt, Hlt.
  - destruct (lookup_lt_is_Some_2 (columns w) c) as [col Hcol]; [lia|].
    change (columns w1) with (columns w). rewrite Hcol.
    change (defined (Some col) w1) with (Ok (col, w1)). cbv beta iota.
    destruct (Nat.ltb_spec (length col) MAX_COLUMN_HEIGHT) as [Hl|Hge].
    + exfalso. apply (Hnone c). exists col. auto.
    + rewrite first_free_full.
      * eexists. split; [reflexivity|]. left. auto.
      * intros i Hi. apply elem_of_seq in Hi. simpl. lia.
      * intros i. rewrite Hroom. apply Hnone.
Qed.

(** X14. On a board of [NUM_COLUMNS] columns [_chooseSpawnColumn] reads one
    random draw and returns -1 exactly when every column is full; otherwise
    it returns the index of a column below [MAX_COLUMN_HEIGHT]. *)
Theorem chooseSpawnColumn_spec (w : World) :
  length (columns w) = NUM_COLUMNS ->
  exists r,
    _chooseSpawnColumn w = Ok (r, set_rnd_next (S (rnd_next w)) w) /\
    ((r = -1 /\ forall i, ~ has_room w i) \/
     (0 <= r /\ has_room w (Z.to_nat r))).
Proof. exact (chooseSpawnColumn_run w). Qed.

Lemma chooseSpawnColumn_spec_witness :
  length (columns full_world) = NUM_COLUMNS /\
  exists r,
    _chooseSpawnColumn full_world
    = Ok (r, set_rnd_next (S (rnd_next full_world)) full_world) /\
    ((r = -1 /\ forall i, ~ has_room full_world i) \/
     (0 <= r /\ has_room full_world (Z.to_nat r))).
Proof.
  split; [reflexivity|]. apply (chooseSpawnColumn_spec full_world). reflexivity.
Defined.

(** ** game.js: spawning *)

Lemma total_refill_queue n : forall col w q (post : unit -> World -> Prop),
  (col < length (columns w))%nat ->
  planned_inv (plannedCubes w) ->
  queues w !! col = Some q ->
  (forall vs w', length vs = n -> Forall (fun v => 1 <= v) vs ->
                 queues w' = <[col := q ++ vs]> (queues w) ->
                 spawn_frame w' = spawn_frame w ->
                 planned_inv (plannedCubes w') -> post tt w') ->
  total (refill_queue n col) w post.
Proof.
  induction n as [|n IH]; intros col w q post Hcol Hinv Hq Hpost.
  - simpl. apply total_ret. apply (Hpost []); auto.
    rewrite app_nil_r, list_insert_id; auto.
  - simpl. apply total_bind. apply total_nextCube; [exact Hcol|exact Hinv|].
    intros v w1 Hv Hg Hinv1.
    assert (Eq1 : queues w1 = queues w) by exact (f_equal queues Hg).
    assert (Ec1 : columns w1 = columns w) by exact (f_equal columns Hg).
    apply total_bind, total_get. apply total_bind.
    eapply total_defined; [rewrite Eq1; exact Hq|].
    apply total_bind, total_modify.
    apply (IH col _ (q ++ [v])).
    + simpl. rewrite Ec1. exact Hcol.
    + exact Hinv1.
    + simpl. apply list_lookup_insert_eq. rewrite Eq1.
      eapply lookup_lt_Some; eauto.
    + intros vs w' Hlen Hvs Hq' Hf Hinv'. apply (Hpost (v :: vs)).
      * simpl. congruence.
      * constructor; auto.
      * rewrite Hq'. simpl. rewrite list_insert_insert_eq, Eq1, <- app_assoc.
        reflexivity.
      * rewrite Hf. unfold spawn_frame.
        change (game_part (set_queues (<[col:=q ++ [v]]> (queues w1)) w1))
          with (set_queues (<[col:=q ++ [v]]> (queues w1)) (game_part w1)).
        rewrite Hg. reflexivity.
      * exact Hinv'.
Qed.

Lemma total_take_value col w q (post : Z -> World -> Prop) :
  (col < length (columns w))%nat ->
  planned_inv (plannedCubes w) ->
  queues w !! col = Some q ->
  (forall v vs w', (head q = Some v \/ q = [] /\ 1 <= v) ->
                   length vs = (QUEUE_SIZE - length (tail q))%nat ->
                   Forall (fun x => 1 <= x) vs ->
                   queues w' = <[col := tail q ++ vs]> (queues w) ->
                   spawn_frame w' = spawn_frame w ->
                   planned_inv (plannedCubes w') -> post v w') ->
  total (take_value col) w post.
Proof.
  intros Hcol Hinv Hq Hpost. unfold take_value.
  apply total_bind, total_get. apply total_bind.
  eapply total_defined; [exact Hq|].
  destruct q as [|v q'].
  - apply total_bind. apply total_nextCube; [exact Hcol|exact Hinv|].
    intros v w1 Hv Hg Hinv1.
    assert (Eq1 : queues w1 = queues w) by exact (f_equal queues Hg).
    assert (Ec1 : columns w1 = columns w) by exact (f_equal columns Hg).
    apply total_bind, total_get. apply total_bind.
    eapply total_defined; [rewrite Eq1; exact Hq|].
    apply total_bind.
    apply (total_refill_queue _ col w1 []);
      [rewrite Ec1; exact Hcol|exact Hinv1|rewrite Eq1; exact Hq|].
    intros vs w' Hlen Hvs Hq' Hf Hinv'. apply total_ret.
    apply (Hpost v vs); [auto|exact Hlen|exact Hvs| | |exact Hinv'].
    + rewrite Hq', Eq1. reflexivity.
    + rewrite Hf. unfold spawn_frame. rewrite Hg. reflexivity.
  - apply total_bind. apply total_bind, total_modify. apply total_ret.
    apply total_bind, total_get. apply total_bind.
    eapply total_defined.
    { simpl. apply list_lookup_insert_eq. eapply lookup_lt_Some; eauto. }
    apply total_bind.
    apply (total_refill_queue _ col _ q'); [exact Hcol|exact Hinv| |].
    { simpl. apply list_lookup_insert_eq. eapply lookup_lt_Some; eauto. }
    intros vs w' Hlen Hvs Hq' Hf Hinv'. apply total_ret.
    apply (Hpost v vs); [left; reflexivity|exact Hlen|exact Hvs| | |exact Hinv'].
    + rewrite Hq'. simpl. rewrite list_insert_insert_eq. reflexivity.
    + rewrite Hf. reflexivity.
Qed.

Lemma total_spawnCubeInColumn col w column q (post : unit -> World -> Prop) :
  planned_inv (plannedCubes w) ->
  columns w !! col = Some column ->
  queues w !! col = Some q ->
  (forall v vs w', (head q = Some v \/ q = [] /\ 1 <= v) ->
                   length vs = (QUEUE_SIZE - length (tail q))%nat ->
                   Forall (fun x => 1 <= x) vs ->
                   columns w' = <[col := column ++
                                   [spawned_cube v col (length column)]]> (columns w) ->
                   queues w' = <[col := tail q ++ vs]> (queues w) ->
                   board_frame w' = board_frame w ->
                   planned_inv (plannedCubes w') -> post tt w') ->
  total (_spawnCubeInColumn col) w post.
Proof.
  intros Hinv Hc Hq Hpost. unfold _spawnCubeInColumn.
  apply total_bind.
  apply (total_take_value col w q); [eapply lookup_lt_Some; eauto|exact Hinv|exact Hq|].
  intros v vs w1 Hv Hlen Hvs Hq1 Hf Hinv1.
  assert (Ec1 : columns w1 = columns w) by exact (f_equal columns Hf).
  apply total_bind, total_get. apply total_bind.
  eapply total_defined; [rewrite Ec1; exact Hc|].
  unfold push_cube. apply total_bind, total_get. apply total_bind.
  eapply total_defined; [rewrite Ec1; exact Hc|].
  apply total_modify.
  apply (Hpost v vs); [exact Hv|exact Hlen|exact Hvs| | | |exact Hinv1].
  - simpl. rewrite Ec1. reflexivity.
  - exact Hq1.
  - unfold board_frame.
    change (spawn_frame (set_columns ?x w1)) with (set_columns x (spawn_frame w1)).
    rewrite <- Hf. reflexivity.
Qed.

(** X15. [_spawnCubeInColumn(col)] on an existing column, in a world whose
    planned cubes are well formed: it returns, puts exactly one cube on top
    of column [col] (falling from two rows above the field to the old
    height, not selected, with the column index [col]), whose value is the
    old head of the column's queue when there was one and a fresh value of
    at least 1 otherwise; the queue loses its head and is filled up to
    [QUEUE_SIZE] with values of at least 1; the other columns and queues,
    the targets, the score and the level stay as they were. *)
Theorem spawnCubeInColumn_effect (w : World) (col : nat)
    (column : list Cube) (q : list Z) :
  planned_inv (plannedCubes w) ->
  columns w !! col = Some column ->
  queues w !! col = Some q ->
  exists v vs w',
    _spawnCubeInColumn col w = Ok (tt, w') /\
    (head q = Some v \/ q = [] /\ 1 <= v) /\
    columns w' = <[col := column ++ [spawned_cube v col (length column)]]>
                   (columns w) /\
    queues w' = <[col := tail q ++ vs]> (queues w) /\
    (QUEUE_SIZE <= length (tail q ++ vs))%nat /\
    Forall (fun x => 1 <= x) vs /\
    targets w' = targets w /\ score w' = score w /\ level w' = level w /\
    isPlaying w' = isPlaying w /\ events w' = events w.
Proof.
  intros Hinv Hc Hq.
  assert (H : total (_spawnCubeInColumn col) w (fun _ w' =>
    exists v vs,
      (head q = Some v \/ q = [] /\ 1 <= v) /\
      columns w' = <[col := column ++ [spawned_cube v col (length column)]]>
                     (columns w) /\
      queues w' = <[col := tail q ++ vs]> (queues w) /\
      (QUEUE_SIZE <= length (tail q ++ vs))%nat /\
      Forall (fun x => 1 <= x) vs /\
      board_frame w' = board_frame w)).
  { apply (total_spawnCubeInColumn col w column q); auto.
    intros v vs w' Hv Hlen Hvs Hc' Hq' Hf _. exists v, vs.
    repeat split; auto. rewrite length_app, Hlen. lia. }
  apply total_run_unit in H.
  destruct H as (w' & Hrun & v & vs & Hv & Hc' & Hq' & Hlen & Hvs & Hf).
  exists v, vs, w'. repeat split; auto.
  - exact (f_equal targets Hf).
  - exact (f_equal score Hf).
  - exact (f_equal level Hf).
  - exact (f_equal isPlaying Hf).
  - exact (f_equal events Hf).
Qed.

Lemma spawnCubeInColumn_effect_witness :
  planned_inv (plannedCubes zero_world) /\
  columns zero_world !! 0%nat = Some [] /\
  queues zero_world !! 0%nat = Some [] /\
  exists v vs w',
    _spawnCubeInColumn 0 zero_world = Ok (tt, w') /\
    (head [] = Some v \/ @nil Z = [] /\ 1 <= v) /\
    columns w' = <[0%nat := [] ++ [spawned_cube v 0 (@length Cube [])]]>
                   (columns zero_world) /\
    queues w' = <[0%nat := tail [] ++ vs]> (queues zero_world) /\
    (QUEUE_SIZE <= length (tail [] ++ vs))%nat /\
    Forall (fun x => 1 <= x) vs /\
    targets w' = targets zero_world /\ score w' = score zero_world /\
    level w' = level zero_world /\
    isPlaying w' = isPlaying zero_world /\ events w' = events zero_world.
Proof.
  assert (H1 : planned_inv (plannedCubes zero_world))
    by (split; [reflexivity|repeat constructor]).
  assert (H2 : columns zero_world !! 0%nat = Some []) by reflexivity.
  assert (H3 : queues zero_world !! 0%nat = Some []) by reflexivity.
  split; [exact H1|]. split; [exact H2|]. split; [exact H3|].
  exact (spawnCubeInColumn_effect zero_world 0 [] [] H1 H2 H3).
Defined.

Lemma concat_insert_snoc_length {A} (p : list (list A)) i l x :
  p !! i = Some l ->
  length (concat (<[i := l ++ [x]]> p)) = S (length (concat p)).
Proof.
  intros H.
  assert (Hlt : (i < length p)%nat) by (eapply lookup_lt_Some; eauto).
  rewrite insert_take_drop by exact Hlt.
  rewrite <- (take_drop_middle p i l H) at 3.
  rewrite !concat_app, !concat_cons, !length_app. simpl. lia.
Qed.

Lemma no_room_full (w : World) :
  (forall i, ~ has_room w i) -> _checkGameOver w = true.
Proof.
  intros Hnone. unfold _checkGameOver. apply forallb_forall.
  intros col Hin. apply Nat.leb_le.
  apply list_elem_of_In, list_elem_of_lookup_1 in Hin. destruct Hin as [i Hi].
  destruct (Nat.le_gt_cases MAX_COLUMN_HEIGHT (length col)) as [H|H]; [exact H|].
  exfalso. apply (Hnone i). exists col. auto.
Qed.

Lemma spawn_keeps_shape (w w' : World) col column q cube q' :
  shape_ok w -> heights_ok w ->
  columns w !! col = Some column ->
  (length column < MAX_COLUMN_HEIGHT)%nat ->
  columns w' = <[col := column ++ [cube]]> (columns w) ->
  queues w' = <[col := q']> (queues w) ->
  planned_inv (plannedCubes w') ->
  queues w !! col = Some q ->
  shape_ok w' /\ heights_ok w' /\ cube_count w' = S (cube_count w).
Proof.
  intros (Hc & Hq & _) Hh Hcol Hlt Ec Eq Hinv _. split; [|split].
  - unfold shape_ok. rewrite Ec, Eq, !length_insert. auto.
  - unfold heights_ok. rewrite Ec. apply Forall_insert; [exact Hh|].
    rewrite length_app. simpl. lia.
  - unfold cube_count. rewrite Ec. apply concat_insert_snoc_length. exact Hcol.
Qed.

Lemma total_spawnNextCube w (post : unit -> World -> Prop) :
  shape_ok w -> heights_ok w ->
  (forall w', shape_ok w' -> heights_ok w' ->
              shaking w' = shaking w -> pendingSpawnCol w' = pendingSpawnCol w ->
              level w' = level w ->
              ((forall i, ~ has_room w i) /\ columns w' = columns w /\
               queues w' = queues w /\ isPlaying w' = false) \/
              ((exists i, has_room w i) /\ cube_count w' = S (cube_count w) /\
               isPlaying w' = isPlaying w) ->
              post tt w') ->
  total _spawnNextCube w post.
Proof.
  intros Hshape Hh Hpost. unfold _spawnNextCube. apply total_bind.
  destruct (chooseColumn_run w) as (c & Hrun & Hc).
  eapply total_of_run; [exact Hrun|].
  set (w1 := set_rnd_next (S (rnd_next w)) w).
  apply total_bind, total_get.
  destruct Hshape as (Hlc & Hlq & Hinv).
  destruct Hc as [(col & Hcol & Hlt)|[Hlt Hnone]].
  - apply total_bind. eapply total_defined; [exact Hcol|].
    destruct (Nat.leb_spec MAX_COLUMN_HEIGHT (length col)) as [Hle|_]; [lia|].
    destruct (lookup_lt_is_Some_2 (queues w) c) as [q Hq].
    { rewrite Hlq, <- Hlc. eapply lookup_lt_Some; eauto. }
    apply (total_spawnCubeInColumn c w1 col q); [exact Hinv|exact Hcol|exact Hq|].
    intros v vs w' _ _ _ Ec Eq Hf Hinv'.
    destruct (spawn_keeps_shape w w' c col q _ _
                (conj Hlc (conj Hlq Hinv)) Hh Hcol Hlt Ec Eq Hinv' Hq)
      as (Hs' & Hh' & Hn).
    apply Hpost; auto.
    + exact (f_equal shaking Hf).
    + exact (f_equal pendingSpawnCol Hf).
    + exact (f_equal level Hf).
    + right. split; [exists c, col; auto|]. split; [exact Hn|].
      exact (f_equal isPlaying Hf).
  - destruct (lookup_lt_is_Some_2 (columns w) c) as [col Hcol]; [lia|].
    apply total_bind. eapply total_defined; [exact Hcol|].
    destruct (Nat.leb_spec MAX_COLUMN_HEIGHT (length col)) as [_|Hl].
    2:{ exfalso. apply (Hnone c). exists col. auto. }
    rewrite (no_room_full w1) by exact Hnone.
    unfold gameOver. apply total_bind, total_modify. apply total_modify.
    apply Hpost; try reflexivity.
    + split; [exact Hlc|]. split; [exact Hlq|exact Hinv].
    + exact Hh.
    + left. auto.
Qed.

(** X16. [_spawnNextCube] on a board of [NUM_COLUMNS] columns none of which
    is higher than [MAX_COLUMN_HEIGHT]: it returns, no column is higher than
    [MAX_COLUMN_HEIGHT] afterwards, and either no column had room, the
    board is unchanged and the game is over, or some column had room and
    the board holds exactly one cube more while the game goes on as
    before. *)
Theorem spawnNextCube_keeps_heights (w : World) :
  shape_ok w -> heights_ok w ->
  exists w',
    _spawnNextCube w = Ok (tt, w') /\
    shape_ok w' /\ heights_ok w' /\
    (((forall i, ~ has_room w i) /\ columns w' = columns w /\
      queues w' = queues w /\ isPlaying w' = false) \/
     ((exists i, has_room w i) /\ cube_count w' = S (cube_count w) /\
      isPlaying w' = isPlaying w)).
Proof.
  intros Hs Hh.
  assert (H : total _spawnNextCube w (fun _ w' =>
    shape_ok w' /\ heights_ok w' /\
    (((forall i, ~ has_room w i) /\ columns w' = columns w /\
      queues w' = queues w /\ isPlaying w' = false) \/
     ((exists i, has_room w i) /\ cube_count w' = S (cube_count w) /\
      isPlaying w' = isPlaying w)))).
  { apply total_spawnNextCube; auto. }
  apply total_run_unit in H. destruct H as (w' & Hrun & H). eauto.
Qed.

Lemma spawnNextCube_keeps_heights_witness :
  shape_ok zero_world /\ heights_ok zero_world /\
  exists w',
    _spawnNextCube zero_world = Ok (tt, w') /\
    shape_ok w' /\ heights_ok w' /\
    (((forall i, ~ has_room zero_world i) /\ columns w' = columns zero_world /\
      queues w' = queues zero_world /\ isPlaying w' = false) \/
     ((exists i, has_room zero_world i) /\
      cube_count w' = S (cube_count zero_world) /\
      isPlaying w' = isPlaying zero_world)).
Proof.
  assert (Hs : shape_ok zero_world).
  { split; [reflexivity|]. split; [reflexivity|].
    split; [reflexivity|repeat constructor]. }
  assert (Hh : heights_ok zero_world).
  { unfold heights_ok. simpl. repeat constructor; simpl; unfold MAX_COLUMN_HEIGHT; lia. }
  split; [exact Hs|]. split; [exact Hh|].
  exact (spawnNextCube_keeps_heights zero_world Hs Hh).
Defined.





(** ** game.js: what a match does to the board and the targets *)

Lemma update_cube_deref (r r' : CubeRef) (g : Cube -> Cube) (w : World) :
  deref (update_cube r g w) r'
  = if decide (r = r') then g <$> deref w r' else deref w r'.
Proof.
  destruct r as [ci i], r' as [ci' i']. unfold update_cube, deref. simpl.
  destruct (columns w !! ci) as [col|] eqn:Ecol.
  - simpl. destruct (decide (ci = ci')) as [<-|Hne].
    + rewrite list_lookup_insert_eq by (eapply lookup_lt_Some; eauto).
      rewrite Ecol. simpl.
      destruct (decide (i = i')) as [<-|Hni].
      * rewrite decide_True by reflexivity. apply list_lookup_alter_eq.
      * rewrite decide_False by congruence. apply list_lookup_alter_ne, Hni.
    + rewrite list_lookup_insert_ne by exact Hne.
      rewrite decide_False by congruence. reflexivity.
  - case_decide as E; [|reflexivity].
    injection E as <- <-. rewrite Ecol. reflexivity.
Qed.

Lemma update_cubes_deref (g : Cube -> Cube) (cubes : list CubeRef) :
  (forall c, g (g c) = g c) ->
  forall (w : World) (r' : CubeRef),
    deref (fold_left (fun w r => update_cube r g w) cubes w) r'
    = if decide (r' ∈ cubes) then g <$> deref w r' else deref w r'.
Proof.
  intros Hg. induction cubes as [|r cubes IH]; intros w r'; cbn [fold_left].
  - rewrite decide_False; [reflexivity|]. intros H. inversion H.
  - rewrite IH, update_cube_deref.
    destruct (decide (r' ∈ cubes)) as [Hin|Hnin].
    + rewrite (decide_True (P := r' ∈ r :: cubes))
        by (apply elem_of_cons; right; exact Hin).
      destruct (decide (r = r')); [|reflexivity].
      destruct (deref w r'); simpl; [rewrite Hg|]; reflexivity.
    + destruct (decide (r = r')) as [->|Hne].
      * rewrite decide_True by (apply elem_of_cons; left; reflexivity).
        reflexivity.
      * rewrite (decide_False (P := r' ∈ r :: cubes)); [reflexivity|].
        intros H. apply elem_of_cons in H. destruct H; congruence.
Qed.

Lemma update_cube_columns_ext r g w1 w :
  columns w1 = columns w ->
  columns (update_cube r g w1) = columns (update_cube r g w).
Proof.
  intros E. unfold update_cube. rewrite E.
  destruct (columns w !! fst r); simpl; congruence.
Qed.

Lemma update_cubes_columns_ext g cubes : forall w1 w,
  columns w1 = columns w ->
  columns (fold_left (fun w r => update_cube r g w) cubes w1)
  = columns (fold_left (fun w r => update_cube r g w) cubes w).
Proof.
  induction cubes as [|r cubes IH]; intros w1 w E; simpl; [exact E|].
  apply IH, update_cube_columns_ext, E.
Qed.

Lemma deref_columns_ext w1 w r :
  columns w1 = columns w -> deref w1 r = deref w r.
Proof. intros E. unfold deref. rewrite E. reflexivity. Qed.

Lemma getSelectedCubes_ext w1 w :
  columns w1 = columns w -> getSelectedCubes w1 = getSelectedCubes w.
Proof. intros E. unfold getSelectedCubes. rewrite E. reflexivity. Qed.

Lemma mark_removing_idem (c : Cube) :
  mark_removing (mark_removing c) = mark_removing c.
Proof. reflexivity. Qed.

Lemma total_advance_targets_full w (post : unit -> World -> Prop) :
  planned_inv (plannedCubes w) ->
  (forall w' t' cfg,
      getLevelConfig (level w) = Some cfg ->
      MIN_TARGET <= t' <= maxTarget cfg ->
      targets w' = tail (targets w) ++ [t'] ->
      targetsCleared w' = targetsCleared w + 1 ->
      columns w' = columns w -> queues w' = queues w ->
      score w' = score w -> comboCount w' = comboCount w ->
      level w' = level_after w ->
      planned_inv (plannedCubes w') -> post tt w') ->
  total advance_targets w post.
Proof.
  intros Hinv H. unfold advance_targets.
  apply total_bind, total_get. apply total_bind, total_modify.
  apply total_bind, total_generateTarget_range; [exact Hinv|].
  intros t' w4 cfg Hcfg Hg Hinv4 Ht.
  pose proof (f_equal targets Hg) as Etg.
  pose proof (f_equal targetsCleared Hg) as Etc.
  pose proof (f_equal columns Hg) as Ecol.
  pose proof (f_equal queues Hg) as Eq.
  pose proof (f_equal score Hg) as Esc.
  pose proof (f_equal comboCount Hg) as Ecc.
  pose proof (f_equal level Hg) as Elev.
  simpl in Etg, Etc, Ecol, Eq, Esc, Ecc, Elev.
  apply total_bind, total_get. apply total_bind, total_modify.
  apply total_bind, total_modify.
  unfold _checkLevelUp. apply total_bind, total_get.
  set (w5 := set_targetsCleared _ _).
  assert (Hlvl : (if (POINTS_PER_LEVEL * level w5 <=? score w5)
                     && (level w5 <? Z.of_nat (length LEVEL_CONFIG) - 1)
                  then level w5 + 1 else level w5) = level_after w).
  { unfold level_after. change (level w5) with (level w4).
    change (score w5) with (score w4). rewrite Elev, Esc. reflexivity. }
  match goal with |- total (if ?c then _ else _) _ _ => destruct c end;
    [apply total_modify | apply total_ret].
  all: apply (H _ t' cfg); [exact Hcfg|exact Ht| | | | | | | |exact Hinv4].
  all: try exact Hlvl.
  all: simpl; congruence.
Qed.

Lemma total_onTargetMatch now w t ts cubes n (post : unit -> World -> Prop) :
  targets w = t :: ts ->
  planned_inv (plannedCubes w) ->
  cubes <> [] ->
  Forall (fun r => is_Some (deref w r)) cubes ->
  _checkColumnClears w cubes = Some n ->
  (forall w' t' cfg,
      getLevelConfig (level w) = Some cfg ->
      MIN_TARGET <= t' <= maxTarget cfg ->
      targets w' = ts ++ [t'] ->
      targetsCleared w' = targetsCleared w + 1 ->
      columns w' = columns (fold_left (fun w r => update_cube r mark_removing w)
                                      cubes w) ->
      queues w' = queues w ->
      level w <= level w' <= level w + 1 ->
      (level w <= 10 -> level w' <= 10) ->
      planned_inv (plannedCubes w') ->
      post tt w') ->
  total (_onTargetMatch now cubes) w post.
Proof.
  intros Ht Hinv Hne Hvalid Hclr Hpost.
  unfold _onTargetMatch. apply total_bind, total_get.
  apply total_bind. eapply total_defined; [rewrite Ht; reflexivity|].
  assert (Hlen : (0 < length cubes)%nat) by (destruct cubes; [congruence|simpl; lia]).
  destruct (lookup_lt_is_Some_2 cubes (length cubes / 2)%nat (half_lt _ Hlen))
    as [centerRef Hcenter].
  assert (Hcv : is_Some (deref w centerRef))
    by (eapply (Forall_lookup_1 _ _ _ _ Hvalid Hcenter)).
  destruct Hcv as [centerCube Hcc].
  apply total_bind.
  apply (total_mono _ _ (fun _ w1 => off_board (set_comboCount 0 w1)
                                     = off_board (set_comboCount 0 w) /\
                                     columns w1 = columns w)).
  { destruct (Qltb (now - lastMatchTime w) COMBO_TIMEOUT && Qltb 0 (lastMatchTime w));
      apply total_modify; split; reflexivity. }
  intros [] w1 [Hf1 Hc1].
  apply total_bind, total_modify.
  apply total_bind, total_get.
  apply total_bind.
  eapply total_defined;
    [rewrite (checkColumnClears_ext _ w) by exact Hc1; exact Hclr|].
  apply total_bind, total_modify.
  apply total_bind.
  eapply total_defined; [exact Hcenter|].
  apply total_bind, total_get.
  apply total_bind.
  eapply total_defined; [rewrite (deref_columns_ext _ w) by exact Hc1; exact Hcc|].
  set (w2 := set_score _ _).
  assert (Hw2 : planned_inv (plannedCubes w2) /\ targets w2 = targets w /\
                targetsCleared w2 = targetsCleared w /\ queues w2 = queues w /\
                level w2 = level w /\ columns w2 = columns w).
  { unfold w2. simpl.
    pose proof (f_equal plannedCubes Hf1) as E1.
    pose proof (f_equal targets Hf1) as E2.
    pose proof (f_equal targetsCleared Hf1) as E3.
    pose proof (f_equal queues Hf1) as E4.
    pose proof (f_equal level Hf1) as E5. simpl in E1, E2, E3, E4, E5.
    rewrite E1. auto 10. }
  destruct Hw2 as (Hp2 & Ht2 & Htc2 & Hq2 & Hl2 & Hc2).
  apply total_bind. unfold remove_matched. apply total_for_each_modify.
  set (w3 := fold_left _ cubes w2).
  pose proof (update_cubes_frame
                (fun c => set_removeProgress 0%Q (set_removing true (set_selected false c)))
                cubes w2) as Hf3.
  fold w3 in Hf3.
  apply total_advance_targets_full.
  { rewrite (f_equal plannedCubes Hf3 : plannedCubes w3 = plannedCubes w2). exact Hp2. }
  intros w' t' cfg Hcfg Ht' Etg Etc Ecol Eq _ _ Elv Hinv'.
  rewrite (f_equal level Hf3 : level w3 = level w2), Hl2 in Hcfg.
  assert (Elv' : level w' = level w \/ level w' = level w + 1 /\ level w < 10).
  { rewrite Elv. unfold level_after.
    rewrite (f_equal level Hf3 : level w3 = level w2), Hl2.
    destruct (POINTS_PER_LEVEL * level w <=? score w3); simpl; auto.
    destruct (Z.ltb_spec (level w) 10); auto. }
  apply (Hpost w' t' cfg); [exact Hcfg|exact Ht'| | | | | | |exact Hinv'].
  - rewrite Etg, (f_equal targets Hf3 : targets w3 = targets w2), Ht2, Ht.
    reflexivity.
  - rewrite Etc, (f_equal targetsCleared Hf3 : targetsCleared w3 = targetsCleared w2).
    rewrite Htc2. reflexivity.
  - rewrite Ecol. unfold w3. apply update_cubes_columns_ext, Hc2.
  - rewrite Eq, (f_equal queues Hf3 : queues w3 = queues w2). exact Hq2.
  - lia.
  - lia.
Qed.

Lemma deref_Some (w : World) (ci i : nat) (c : Cube) :
  deref w (ci, i) = Some c <->
  exists col, columns w !! ci = Some col /\ col !! i = Some c.
Proof.
  unfold deref. simpl. destruct (columns w !! ci) as [col|]; simpl.
  - split; [eauto|]. intros (col' & E & H). congruence.
  - split; [discriminate|]. intros (col' & E & _). discriminate.
Qed.

Lemma selected_iff_matched (w : World) (r : CubeRef) (c : Cube) :
  deref w r = Some c -> (r ∈ getSelectedCubes w <-> is_matched c = true).
Proof.
  destruct r as [ci i]. intros Hd. rewrite getSelectedCubes_elem.
  apply deref_Some in Hd. destruct Hd as (col & Hcol & Hc). split.
  - intros (col' & c' & Hcol' & Hc' & Hm). congruence.
  - intros Hm. eauto.
Qed.

Lemma remove_matched_deref (w : World) (r : CubeRef) :
  deref (fold_left (fun w r => update_cube r mark_removing w)
                   (getSelectedCubes w) w) r
  = (fun c => if is_matched c then mark_removing c else c) <$> deref w r.
Proof.
  rewrite (update_cubes_deref mark_removing _ mark_removing_idem).
  destruct (deref w r) as [c|] eqn:Hd.
  - pose proof (selected_iff_matched w r c Hd) as Hiff.
    destruct (decide (r ∈ getSelectedCubes w)) as [Hin|Hnin]; simpl.
    + rewrite (proj1 Hiff Hin). reflexivity.
    + destruct (is_matched c) eqn:Em; [|reflexivity].
      exfalso. apply Hnin, Hiff. reflexivity.
  - destruct (decide (r ∈ getSelectedCubes w)); reflexivity.
Qed.

Lemma nothing_selected (w w' : World) :
  (forall r, deref w' r
             = (fun c => if is_matched c then mark_removing c else c) <$> deref w r) ->
  getSelectedCubes w' = [].
Proof.
  intros Hd. destruct (getSelectedCubes w') as [|[ci i] l] eqn:E; [reflexivity|].
  exfalso.
  assert (Hin : (ci, i) ∈ getSelectedCubes w') by (rewrite E; left).
  apply getSelectedCubes_elem in Hin. destruct Hin as (col & c & Hcol & Hc & Hm).
  assert (Hd' : deref w' (ci, i) = Some c) by (apply deref_Some; eauto).
  rewrite Hd in Hd'. destruct (deref w (ci, i)) as [c0|]; [|discriminate].
  simpl in Hd'. injection Hd' as <-.
  destruct (is_matched c0) eqn:E0; [discriminate Hm|congruence].
Qed.

(** X18. A match, as [_checkTarget] runs it when the selected cubes (at
    least [MIN_CUBES_FOR_SUM] of them) add up to the current target: every
    cube that was selected and not yet being removed is now deselected and
    being removed, every other cube is as it was and no cube appears or
    disappears, so nothing is selected afterwards; the matched target leaves
    the head of the list and one new target, at least [MIN_TARGET] and at
    most the level's [maxTarget], is appended; [targetsCleared] grows by
    one, the queues are untouched, and the level stays or grows by one
    without passing 10. *)
Theorem match_clears_selection (now : Q) (w : World) (t : Z) (ts : list Z) :
  targets w = t :: ts -> t <> 0 -> getSelectedSum w = t ->
  (MIN_CUBES_FOR_SUM <= length (getSelectedCubes w))%nat ->
  planned_inv (plannedCubes w) -> board_ok w ->
  exists w' t' cfg,
    _checkTarget now w = Ok (tt, w') /\
    (forall r, deref w' r
               = (fun c => if is_matched c then mark_removing c else c)
                 <$> deref w r) /\
    getSelectedCubes w' = [] /\
    targets w' = ts ++ [t'] /\
    getLevelConfig (level w) = Some cfg /\ MIN_TARGET <= t' <= maxTarget cfg /\
    targetsCleared w' = targetsCleared w + 1 /\
    queues w' = queues w /\
    level w <= level w' <= level w + 1 /\
    (level w <= 10 -> level w' <= 10).
Proof.
  intros Ht Hnz Hsum Hlen Hinv Hboard.
  rewrite (checkTarget_match now w t ts Ht Hnz Hsum Hlen).
  destruct (checkColumnClears_selected w Hboard) as (n & Hclr & _).
  assert (Hne : getSelectedCubes w <> []).
  { intros E. rewrite E in Hlen. unfold MIN_CUBES_FOR_SUM in Hlen. simpl in Hlen. lia. }
  assert (H : total (_onTargetMatch now (getSelectedCubes w)) w (fun _ w' =>
    exists t' cfg,
      (forall r, deref w' r
                 = (fun c => if is_matched c then mark_removing c else c)
                   <$> deref w r) /\
      getSelectedCubes w' = [] /\
      targets w' = ts ++ [t'] /\
      getLevelConfig (level w) = Some cfg /\ MIN_TARGET <= t' <= maxTarget cfg /\
      targetsCleared w' = targetsCleared w + 1 /\
      queues w' = queues w /\
      level w <= level w' <= level w + 1 /\
      (level w <= 10 -> level w' <= 10))).
  { apply (total_onTargetMatch now w t ts _ n);
      [exact Ht|exact Hinv|exact Hne|apply getSelectedCubes_valid|exact Hclr|].
    intros w' t' cfg Hcfg Ht' Etg Etc Ecol Eq Hl Hl10 _.
    assert (Hd : forall r, deref w' r
               = (fun c => if is_matched c then mark_removing c else c)
                 <$> deref w r).
    { intros r. rewrite (deref_columns_ext _ _ r Ecol).
      apply remove_matched_deref. }
    exists t', cfg. split; [exact Hd|]. split; [exact (nothing_selected w w' Hd)|].
    auto 10. }
  apply total_run_unit in H. destruct H as (w' & Hrun & t' & cfg & H).
  exists w', t', cfg. split; [exact Hrun|exact H].
Qed.

Lemma match_clears_selection_witness :
  (targets match20_world = 20 :: [9; 11] /\ 20 <> 0 /\
   getSelectedSum match20_world = 20 /\
   (MIN_CUBES_FOR_SUM <= length (getSelectedCubes match20_world))%nat /\
   planned_inv (plannedCubes match20_world) /\ board_ok match20_world) /\
  exists w' t' cfg,
    _checkTarget 0%Q match20_world = Ok (tt, w') /\
    (forall r, deref w' r
               = (fun c => if is_matched c then mark_removing c else c)
                 <$> deref match20_world r) /\
    getSelectedCubes w' = [] /\
    targets w' = [9; 11] ++ [t'] /\
    getLevelConfig (level match20_world) = Some cfg /\
    MIN_TARGET <= t' <= maxTarget cfg /\
    targetsCleared w' = targetsCleared match20_world + 1 /\
    queues w' = queues match20_world /\
    level match20_world <= level w' <= level match20_world + 1 /\
    (level match20_world <= 10 -> level w' <= 10).
Proof.
  assert (H1 : targets match20_world = 20 :: [9; 11]) by reflexivity.
  assert (H2 : 20 <> 0) by discriminate.
  assert (H3 : getSelectedSum match20_world = 20) by reflexivity.
  assert (H4 : (MIN_CUBES_FOR_SUM <= length (getSelectedCubes match20_world))%nat)
    by (vm_compute; lia).
  assert (H5 : planned_inv (plannedCubes match20_world))
    by (split; [reflexivity|repeat constructor]).
  split; [exact (conj H1 (conj H2 (conj H3 (conj H4 (conj H5 match20_board_ok)))))|].
  exact (match_clears_selection 0%Q match20_world 20 [9; 11] H1 H2 H3 H4 H5
           match20_board_ok).
Defined.

(** ** game.js: the start of a game *)

Lemma total_push_targets n : forall w (post : unit -> World -> Prop),
  planned_inv (plannedCubes w) ->
  (forall ts w' cfg,
      getLevelConfig (level w) = Some cfg ->
      length ts = n ->
      Forall (fun t => MIN_TARGET <= t <= maxTarget cfg) ts ->
      targets w' = targets w ++ ts ->
      set_targets [] (game_part w') = set_targets [] (game_part w) ->
      planned_inv (plannedCubes w') -> post tt w') ->
  total (push_targets n) w post.
Proof.
  induction n as [|n IH]; intros w post Hinv Hpost.
  - destruct (getLevelConfig_bounds (level w)) as (cfg & Hcfg & _).
    simpl. apply total_ret. apply (Hpost [] w cfg); auto.
    rewrite app_nil_r. reflexivity.
  - simpl. apply total_bind, total_generateTarget_range; [exact Hinv|].
    intros t w1 cfg Hcfg Hg Hinv1 Ht.
    apply total_bind, total_modify. apply IH; [exact Hinv1|].
    intros ts w' cfg' Hcfg' Hlen Hts Etg Hf Hinv'.
    assert (El : level w1 = level w) by exact (f_equal level Hg).
    simpl in Hcfg'. rewrite El, Hcfg in Hcfg'. injection Hcfg' as <-.
    apply (Hpost (t :: ts) w' cfg); auto.
    + simpl. congruence.
    + rewrite Etg. simpl.
      rewrite (f_equal targets Hg : targets w1 = targets w), <- app_assoc.
      reflexivity.
    + rewrite Hf.
      change (set_targets [] (game_part (set_targets (targets w1 ++ [t]) w1)))
        with (set_targets [] (game_part w1)).
      rewrite Hg. reflexivity.
Qed.

Lemma total_fill_queues cols : forall w (post : unit -> World -> Prop),
  Forall (fun c => (c < NUM_COLUMNS)%nat) cols ->
  shape_ok w -> queues_ok w ->
  (forall w',
      shape_ok w' -> queues_ok w' -> spawn_frame w' = spawn_frame w ->
      (forall c q, queues w !! c = Some q ->
                   exists q', queues w' !! c = Some q' /\
                              length q' = if decide (c ∈ cols)
                                          then Nat.max (length q) QUEUE_SIZE
                                          else length q) ->
      post tt w') ->
  total (fill_queues cols) w post.
Proof.
  induction cols as [|col cols IH]; intros w post Hcols Hs Hq Hpost.
  - simpl. apply total_ret. apply Hpost; auto.
    intros c q Hc. exists q. split; [exact Hc|].
    rewrite decide_False; [reflexivity|]. intros H. inversion H.
  - inversion Hcols as [|? ? Hcol Hcols']; subst.
    destruct Hs as (Hlc & Hlq & Hinv).
    destruct (lookup_lt_is_Some_2 (queues w) col) as [q0 Hq0]; [lia|].
    simpl. apply total_bind, total_get. apply total_bind.
    eapply total_defined; [exact Hq0|]. apply total_bind.
    apply (total_refill_queue _ col w q0); [lia|exact Hinv|exact Hq0|].
    intros vs w1 Hlen Hvs Eq1 Hf1 Hinv1.
    assert (Ec1 : columns w1 = columns w) by exact (f_equal columns Hf1).
    assert (Hq1 : queues_ok w1).
    { unfold queues_ok. rewrite Eq1. apply Forall_insert; [exact Hq|].
      apply Forall_app. split; [|exact Hvs].
      eapply (Forall_lookup_1 _ _ _ _ Hq Hq0). }
    apply IH; [exact Hcols'| |exact Hq1|].
    { unfold shape_ok. rewrite Ec1, Eq1, length_insert. auto. }
    intros w' Hs' Hq' Hf' Hlens. apply Hpost; [exact Hs'|exact Hq'| |].
    { rewrite Hf'. exact Hf1. }
    intros c q Hc.
    destruct (decide (c = col)) as [->|Hne].
    + assert (q = q0) by congruence. subst q.
      destruct (Hlens col (q0 ++ vs)) as (q' & Hq'c & Hl').
      { rewrite Eq1. apply list_lookup_insert_eq. lia. }
      exists q'. split; [exact Hq'c|].
      rewrite decide_True by (apply elem_of_cons; left; reflexivity).
      rewrite Hl', length_app, Hlen. destruct (decide (col ∈ cols)); lia.
    + destruct (Hlens c q) as (q' & Hq'c & Hl').
      { rewrite Eq1, list_lookup_insert_ne by congruence. exact Hc. }
      exists q'. split; [exact Hq'c|]. rewrite Hl'.
      destruct (decide (c ∈ cols)) as [Hin|Hnin].
      * rewrite decide_True by (apply elem_of_cons; right; exact Hin).
        reflexivity.
      * rewrite decide_False; [reflexivity|].
        intros H. apply elem_of_cons in H. destruct H; congruence.
Qed.

Lemma rests_at_snoc ci col v :
  rests_at ci col -> 1 <= v ->
  rests_at ci (col ++ [resting v ci (Z.of_nat (length col))]).
Proof.
  intros Hc Hv i c Hi.
  destruct (decide (i < length col)%nat) as [Hlt|Hge].
  - rewrite lookup_app_l in Hi by exact Hlt. apply Hc, Hi.
  - rewrite lookup_app_r in Hi by lia.
    destruct (i - length col)%nat as [|k] eqn:E; simpl in Hi; [|discriminate].
    injection Hi as <-. exists v. split; [exact Hv|].
    replace i with (length col) by lia. reflexivity.
Qed.

Lemma total_spawnCubeImmediate col w column q (post : unit -> World -> Prop) :
  start_inv w ->
  columns w !! col = Some column ->
  queues w !! col = Some q ->
  (length column < MAX_COLUMN_HEIGHT)%nat ->
  (forall v w',
      1 <= v ->
      columns w' = <[col := column ++ [resting v col (Z.of_nat (length column))]]>
                     (columns w) ->
      start_inv w' -> board_frame w' = board_frame w -> post tt w') ->
  total (_spawnCubeImmediate col) w post.
Proof.
  intros (Hs & Hq & Hfull & Hrest) Hc Hq0 Hlt Hpost.
  destruct Hs as (Hlc & Hlq & Hinv).
  unfold _spawnCubeImmediate. apply total_bind, total_get. apply total_bind.
  eapply total_defined; [exact Hc|].
  destruct (Nat.leb_spec MAX_COLUMN_HEIGHT (length column)) as [Hle|_]; [lia|].
  apply total_bind.
  apply (total_take_value col w q); [eapply lookup_lt_Some; eauto|exact Hinv|exact Hq0|].
  intros v vs w1 Hv Hlen Hvs Eq1 Hf Hinv1.
  assert (Ec1 : columns w1 = columns w) by exact (f_equal columns Hf).
  assert (Hqv : Forall (fun x => 1 <= x) q)
    by exact (Forall_lookup_1 _ _ _ _ Hq Hq0).
  assert (Hql : length q = QUEUE_SIZE)
    by exact (Forall_lookup_1 _ _ _ _ Hfull Hq0).
  assert (Hv1 : 1 <= v).
  { destruct Hv as [Hh|[_ Hv]]; [|exact Hv].
    destruct q as [|x q']; [discriminate|]. simpl in Hh. injection Hh as <-.
    inversion Hqv; auto. }
  apply total_bind, total_get. apply total_bind.
  eapply total_defined; [rewrite Ec1; exact Hc|].
  unfold push_cube. apply total_bind, total_get. apply total_bind.
  eapply total_defined; [rewrite Ec1; exact Hc|].
  apply total_modify. apply (Hpost v); [exact Hv1| | |].
  - simpl. rewrite Ec1. reflexivity.
  - split; [|split; [|split]].
    + unfold shape_ok. simpl. rewrite Ec1, Eq1, !length_insert. auto.
    + unfold queues_ok. simpl. rewrite Eq1. apply Forall_insert; [exact Hq|].
      apply Forall_app. split; [|exact Hvs].
      destruct q; [constructor|inversion Hqv; auto].
    + unfold queues_full. simpl. rewrite Eq1. apply Forall_insert; [exact Hfull|].
      rewrite length_app, Hlen. unfold QUEUE_SIZE in *.
      destruct q as [|x q']; simpl in Hql |- *; lia.
    + intros ci col' Hci. simpl in Hci. rewrite Ec1 in Hci.
      destruct (decide (ci = col)) as [->|Hne].
      * rewrite list_lookup_insert_eq in Hci by (eapply lookup_lt_Some; eauto).
        injection Hci as <-. apply rests_at_snoc; [|exact Hv1].
        apply (Hrest col column Hc).
      * rewrite list_lookup_insert_ne in Hci by congruence.
        apply (Hrest ci col' Hci).
  - unfold board_frame.
    change (spawn_frame (set_columns ?x w1)) with (set_columns x (spawn_frame w1)).
    rewrite <- Hf. reflexivity.
Qed.

Lemma spawns_into_cons c i idxs :
  spawns_into c (i :: idxs)
  = ((if decide ((i mod NUM_COLUMNS)%nat = c) then 1 else 0)
     + spawns_into c idxs)%nat.
Proof.
  unfold spawns_into. rewrite filter_cons.
  destruct (decide ((i mod NUM_COLUMNS)%nat = c)); reflexivity.
Qed.

Lemma total_spawn_initial idxs : forall w (post : unit -> World -> Prop),
  start_inv w ->
  (forall c col, columns w !! c = Some col ->
                 (length col + spawns_into c idxs <= MAX_COLUMN_HEIGHT)%nat) ->
  (forall w',
      start_inv w' -> board_frame w' = board_frame w ->
      (forall c col, columns w !! c = Some col ->
                     exists col', columns w' !! c = Some col' /\
                                  length col' = (length col + spawns_into c idxs)%nat) ->
      post tt w') ->
  total (spawn_initial idxs) w post.
Proof.
  induction idxs as [|i idxs IH]; intros w post Hinv Hroom Hpost.
  - simpl. apply total_ret. apply Hpost; auto.
    intros c col Hc. exists col. split; [exact Hc|]. unfold spawns_into. simpl. lia.
  - simpl. apply total_bind.
    set (c0 := (i mod NUM_COLUMNS)%nat).
    assert (Hc0 : (c0 < NUM_COLUMNS)%nat)
      by (apply Nat.mod_upper_bound; discriminate).
    pose proof Hinv as ((Hlc & Hlq & _) & _).
    destruct (lookup_lt_is_Some_2 (columns w) c0) as [col0 Hcol0]; [lia|].
    destruct (lookup_lt_is_Some_2 (queues w) c0) as [q0 Hq0]; [lia|].
    pose proof (Hroom c0 col0 Hcol0) as Hr0.
    rewrite spawns_into_cons in Hr0. fold c0 in Hr0.
    rewrite decide_True in Hr0 by reflexivity.
    apply (total_spawnCubeImmediate c0 w col0 q0);
      [exact Hinv|exact Hcol0|exact Hq0|lia|].
    intros v w1 Hv Ec1 Hinv1 Hf1.
    apply IH; [exact Hinv1| |].
    + intros c col Hc. rewrite Ec1 in Hc.
      destruct (decide (c = c0)) as [->|Hne].
      * rewrite list_lookup_insert_eq in Hc by lia. injection Hc as <-.
        rewrite length_app. simpl. lia.
      * rewrite list_lookup_insert_ne in Hc by congruence.
        pose proof (Hroom c col Hc) as Hr. rewrite spawns_into_cons in Hr.
        fold c0 in Hr. lia.
    + intros w' Hinv' Hf' Hlens. apply Hpost; [exact Hinv'| |].
      { rewrite Hf'. exact Hf1. }
      intros c col Hc. rewrite spawns_into_cons. fold c0.
      destruct (decide (c0 = c)) as [<-|Hne].
      * assert (col = col0) by congruence. subst col.
        destruct (Hlens c0 (col0 ++ [resting v c0 (Z.of_nat (length col0))]))
          as (col' & Hc' & Hl').
        { rewrite Ec1. apply list_lookup_insert_eq. lia. }
        exists col'. split; [exact Hc'|]. rewrite Hl', length_app. simpl. lia.
      * destruct (Hlens c col) as (col' & Hc' & Hl').
        { rewrite Ec1, list_lookup_insert_ne by congruence. exact Hc. }
        exists col'. split; [exact Hc'|]. rewrite Hl'. lia.
Qed.

Lemma total_start w (post : unit -> World -> Prop) :
  shape_ok w -> targets w = [] ->
  Forall (fun col : list Cube => col = []) (columns w) ->
  Forall (fun q : list Z => q = []) (queues w) ->
  (forall w' cfg (n : nat),
      getLevelConfig (level w) = Some cfg ->
      start_inv w' ->
      meta_part w' = meta_part (set_isPaused false (set_isPlaying true w)) ->
      length (targets w') = S TARGETS_AHEAD ->
      Forall (fun t => MIN_TARGET <= t <= maxTarget cfg) (targets w') ->
      (6 <= n <= 10)%nat ->
      (forall c col, columns w' !! c = Some col ->
                     length col = spawns_into c (seq 0 n)) ->
      post tt w') ->
  total start w post.
Proof.
  intros (Hlc & Hlq & Hinv) Htg Hcols Hqs Hpost. unfold start.
  apply total_bind, total_modify. apply total_bind, total_modify.
  set (w1 := set_isPaused false (set_isPlaying true w)) in *.
  apply total_bind. apply total_push_targets; [exact Hinv|].
  intros ts w2 cfg Hcfg Hlen Hts Etg Hf2 Hinv2.
  assert (Ec2 : columns w2 = columns w) by exact (f_equal columns Hf2).
  assert (Eq2 : queues w2 = queues w) by exact (f_equal queues Hf2).
  apply total_bind. apply total_fill_queues.
  { apply Forall_forall. intros c Hc. apply elem_of_seq in Hc. lia. }
  { unfold shape_ok. rewrite Ec2, Eq2. auto. }
  { unfold queues_ok. rewrite Eq2. eapply Forall_impl; [exact Hqs|].
    simpl. intros q ->. constructor. }
  intros w3 (Hlc3 & Hlq3 & Hinv3) Hq3 Hf3 Hlens.
  assert (Ec3 : columns w3 = columns w)
    by (rewrite <- Ec2; exact (f_equal columns Hf3)).
  apply total_bind. apply total_randomInt; [lia|].
  intros v w4 Hv Hg4 Hp4.
  assert (Ec4 : columns w4 = columns w)
    by (rewrite <- Ec3; exact (f_equal columns Hg4)).
  assert (Eq4 : queues w4 = queues w3) by exact (f_equal queues Hg4).
  assert (Hinv4 : start_inv w4).
  { split; [|split; [|split]].
    - unfold shape_ok. rewrite Ec4, Eq4, Hp4. auto.
    - unfold queues_ok. rewrite Eq4. exact Hq3.
    - unfold queues_full. rewrite Eq4. apply Forall_forall.
      intros q Hq. apply list_elem_of_lookup_1 in Hq. destruct Hq as [c Hc].
      assert (Hclt : (c < NUM_COLUMNS)%nat)
        by (rewrite <- Hlq3; eapply lookup_lt_Some; eauto).
      destruct (lookup_lt_is_Some_2 (queues w2) c) as [q0 Hq0];
        [rewrite Eq2; lia|].
      destruct (Hlens c q0 Hq0) as (q' & Hq' & Hl').
      assert (q' = q) by congruence. subst q'.
      rewrite decide_True in Hl' by (apply elem_of_seq; lia).
      assert (q0 = []).
      { rewrite Eq2 in Hq0. eapply (Forall_lookup_1 _ _ _ _ Hqs Hq0). }
      subst q0. rewrite Hl'. reflexivity.
    - intros ci col Hci i c Hi. rewrite Ec4 in Hci.
      rewrite (Forall_lookup_1 _ _ _ _ Hcols Hci) in Hi. discriminate. }
  apply total_spawn_initial; [exact Hinv4| |].
  { intros c col Hc. rewrite Ec4 in Hc.
    rewrite (Forall_lookup_1 _ _ _ _ Hcols Hc). simpl.
    assert (Hclt : (c < NUM_COLUMNS)%nat)
      by (rewrite <- Hlc; eapply lookup_lt_Some; eauto).
    assert (Hn : (Z.to_nat v = 6 \/ Z.to_nat v = 7 \/ Z.to_nat v = 8 \/
                  Z.to_nat v = 9 \/ Z.to_nat v = 10)%nat) by lia.
    unfold NUM_COLUMNS in Hclt.
    do 4 (destruct c as [|c]; [repeat (destruct Hn as [Hn|Hn]); rewrite Hn;
                               vm_compute; lia|]).
    lia. }
  intros w5 Hinv5 Hf5 Hh5.
  apply (Hpost w5 cfg (Z.to_nat v)); [exact Hcfg|exact Hinv5| | | |lia|].
  - unfold meta_part. rewrite Hf5.
    change (set_targets [] (board_frame w4))
      with (set_columns [] (set_queues [] (set_targets [] (game_part w4)))).
    rewrite Hg4.
    change (set_columns [] (set_queues [] (set_targets [] (game_part w3))))
      with (set_targets [] (set_columns [] (spawn_frame w3))).
    rewrite Hf3.
    change (set_targets [] (set_columns [] (spawn_frame w2)))
      with (set_columns [] (set_queues [] (set_targets [] (game_part w2)))).
    rewrite Hf2. reflexivity.
  - rewrite (f_equal targets Hf5 : targets w5 = targets w4).
    rewrite (f_equal targets Hg4 : targets w4 = targets w3).
    rewrite (f_equal targets Hf3 : targets w3 = targets w2).
    rewrite Etg. simpl. rewrite Htg. simpl. exact Hlen.
  - rewrite (f_equal targets Hf5 : targets w5 = targets w4).
    rewrite (f_equal targets Hg4 : targets w4 = targets w3).
    rewrite (f_equal targets Hf3 : targets w3 = targets w2).
    rewrite Etg. simpl. rewrite Htg. simpl. exact Hts.
  - intros c col Hc.
    assert (Hclt : (c < NUM_COLUMNS)%nat).
    { destruct Hinv5 as ((Hlc5 & _) & _). rewrite <- Hlc5.
      eapply lookup_lt_Some; eauto. }
    destruct (lookup_lt_is_Some_2 (columns w4) c) as [col4 Hc4];
      [rewrite Ec4; lia|].
    destruct (Hh5 c col4 Hc4) as (col' & Hc' & Hl').
    assert (col' = col) by congruence. subst col'.
    rewrite Hl'. rewrite Ec4 in Hc4.
    rewrite (Forall_lookup_1 _ _ _ _ Hcols Hc4). reflexivity.
Qed.

(** X19. A new game, as [_startGame] starts it with [reset()] followed by
    [start()], whatever the state before: both calls return; the game is
    playing and not paused, with score 0 at level 1; there are
    [TARGETS_AHEAD + 1] targets, each in [[MIN_TARGET, 15]]; each of the
    [NUM_COLUMNS] queues holds [QUEUE_SIZE] values of at least 1; each of
    the [NUM_COLUMNS] columns holds 1 to 3 cubes, all at rest in rows
    0, 1, ... without a gap and with values of at least 1; and the board
    holds between 6 and 10 cubes. *)
Theorem start_after_reset (w : World) :
  exists w',
    (reset ;; start) w = Ok (tt, w') /\
    isPlaying w' = true /\ isPaused w' = false /\
    score w' = 0 /\ level w' = 1 /\ comboCount w' = 0 /\
    length (targets w') = S TARGETS_AHEAD /\
    Forall (fun t => MIN_TARGET <= t <= 15) (targets w') /\
    length (queues w') = NUM_COLUMNS /\
    Forall (fun q => length q = QUEUE_SIZE /\ Forall (fun v => 1 <= v) q)
           (queues w') /\
    length (columns w') = NUM_COLUMNS /\
    (forall ci col, columns w' !! ci = Some col ->
                    (1 <= length col <= 3)%nat /\ rests_at ci col) /\
    (6 <= cube_count w' <= 10)%nat.
Proof.
  unfold bind at 1.
  destruct (reset w) as [[[] w0]|] eqn:Er; [|discriminate Er].
  assert (E0 : columns w0 = [[]; []; []; []] /\ queues w0 = [[]; []; []; []] /\
               targets w0 = [] /\ score w0 = 0 /\ level w0 = 1 /\
               comboCount w0 = 0 /\ plannedCubes w0 = [[]; []; []; []]).
  { unfold reset, generator_reset, bind, modify in Er. injection Er as <-.
    repeat split; reflexivity. }
  destruct E0 as (Ec0 & Eq0 & Et0 & Es0 & El0 & Ecc0 & Ep0).
  apply (total_run_unit start w0 (fun _ w' =>
    isPlaying w' = true /\ isPaused w' = false /\
    score w' = 0 /\ level w' = 1 /\ comboCount w' = 0 /\
    length (targets w') = S TARGETS_AHEAD /\
    Forall (fun t => MIN_TARGET <= t <= 15) (targets w') /\
    length (queues w') = NUM_COLUMNS /\
    Forall (fun q => length q = QUEUE_SIZE /\ Forall (fun v => 1 <= v) q)
           (queues w') /\
    length (columns w') = NUM_COLUMNS /\
    (forall ci col, columns w' !! ci = Some col ->
                    (1 <= length col <= 3)%nat /\ rests_at ci col) /\
    (6 <= cube_count w' <= 10)%nat)).
  apply total_start.
  - unfold shape_ok, planned_inv. rewrite Ec0, Eq0, Ep0.
    repeat split; try reflexivity. repeat constructor.
  - exact Et0.
  - rewrite Ec0. repeat constructor.
  - rewrite Eq0. repeat constructor.
  - intros w' cfg n Hcfg (Hs & Hq & Hfull & Hrest) Hm Hlen Hts Hn Hh.
    rewrite El0 in Hcfg. vm_compute in Hcfg. injection Hcfg as <-.
    destruct Hs as (Hlc & Hlq & _).
    assert (Hn' : (n = 6 \/ n = 7 \/ n = 8 \/ n = 9 \/ n = 10)%nat) by lia.
    split; [exact (f_equal isPlaying Hm)|].
    split; [exact (f_equal isPaused Hm)|].
    split; [rewrite <- Es0; exact (f_equal score Hm)|].
    split; [rewrite <- El0; exact (f_equal level Hm)|].
    split; [rewrite <- Ecc0; exact (f_equal comboCount Hm)|].
    split; [exact Hlen|]. split; [exact Hts|]. split; [exact Hlq|].
    split.
    { apply Forall_forall. intros q Hin. split.
      - unfold queues_full in Hfull. rewrite Forall_forall in Hfull.
        apply Hfull, Hin.
      - unfold queues_ok in Hq. rewrite Forall_forall in Hq. apply Hq, Hin. }
    split; [exact Hlc|]. split.
    + intros ci col Hci. split; [|apply (Hrest ci col Hci)].
      rewrite (Hh ci col Hci).
      assert (Hclt : (ci < 4)%nat)
        by (change 4%nat with NUM_COLUMNS; rewrite <- Hlc;
            eapply lookup_lt_Some; eauto).
      do 4 (destruct ci as [|ci];
            [repeat (destruct Hn' as [Hn'|Hn']); rewrite Hn'; vm_compute; lia|]).
      lia.
    + unfold cube_count.
      destruct (columns w') as [|c0 [|c1 [|c2 [|c3 [|c4 cs]]]]] eqn:Ecols;
        try discriminate Hlc.
      pose proof (Hh 0%nat c0 eq_refl) as H0.
      pose proof (Hh 1%nat c1 eq_refl) as H1.
      pose proof (Hh 2%nat c2 eq_refl) as H2.
      pose proof (Hh 3%nat c3 eq_refl) as H3.
      simpl. rewrite !length_app, H0, H1, H2, H3. simpl.
      repeat (destruct Hn' as [Hn'|Hn']); rewrite Hn'; vm_compute; lia.
Qed.

(** ** game.js: selection *)

Lemma fold_matched_shift (l : list Cube) (a : Z) :
  fold_left (fun s c => if selected c && negb (removing c) then s + value c else s)
            l a
  = a + fold_left (fun s c => if selected c && negb (removing c)
                              then s + value c else s) l 0.
Proof.
  revert a. induction l as [|c l IH]; intros a; simpl; [lia|].
  rewrite IH. rewrite (IH (if selected c && negb (removing c) then 0 + value c else 0)).
  destruct (selected c && negb (removing c)); lia.
Qed.

Lemma fold_matched_app (l1 l2 : list Cube) :
  fold_left (fun s c => if selected c && negb (removing c) then s + value c else s)
            (l1 ++ l2) 0
  = fold_left (fun s c => if selected c && negb (removing c) then s + value c else s)
              l1 0
    + fold_left (fun s c => if selected c && negb (removing c) then s + value c else s)
                l2 0.
Proof. rewrite fold_left_app. apply fold_matched_shift. Qed.

Lemma selected_from_sum (w : World) (ci : nat) (col : list Cube) :
  forall pre, columns w !! ci = Some (pre ++ col) ->
  sum_list (ref_value w <$> selected_from ci (length pre) col)
  = fold_left (fun s c => if selected c && negb (removing c) then s + value c else s)
              col 0.
Proof.
  induction col as [|c col IH]; intros pre Hc; [reflexivity|].
  cbn [selected_from fold_left]. rewrite fmap_app, sum_list_app.
  rewrite fold_matched_shift.
  specialize (IH (pre ++ [c])). rewrite length_app in IH. simpl in IH.
  rewrite Nat.add_1_r in IH. rewrite IH by (rewrite <- app_assoc; exact Hc).
  f_equal.
  destruct (selected c && negb (removing c)); [|reflexivity].
  simpl. rewrite sum_list_cons, sum_list_nil.
  unfold ref_value, deref. simpl. rewrite Hc. simpl.
  rewrite list_lookup_middle by reflexivity. simpl. lia.
Qed.

Lemma selected_cols_sum (w : World) (cols : list (list Cube)) :
  forall pre, columns w = pre ++ cols ->
  sum_list (ref_value w <$> selected_cols (length pre) cols)
  = fold_left (fun s c => if selected c && negb (removing c) then s + value c else s)
              (concat cols) 0.
Proof.
  induction cols as [|col cols IH]; intros pre Hc; [reflexivity|].
  cbn [selected_cols concat]. rewrite fmap_app, sum_list_app, fold_matched_app.
  f_equal.
  - apply (selected_from_sum w (length pre) col []). simpl.
    rewrite Hc. apply list_lookup_middle. reflexivity.
  - specialize (IH (pre ++ [col])). rewrite length_app in IH. simpl in IH.
    rewrite Nat.add_1_r in IH. apply IH. rewrite <- app_assoc. exact Hc.
Qed.

(** X20. The two readers of the selection agree: [getSelectedSum] is the
    sum of the values of the cubes that [getSelectedCubes] returns, on every
    board. [_checkTarget] compares the one with the target and hands the
    other to [_onTargetMatch]. *)
Theorem getSelectedSum_of_selected (w : World) :
  getSelectedSum w = sum_list (ref_value w <$> getSelectedCubes w).
Proof.
  unfold getSelectedSum, getSelectedCubes. symmetry.
  apply (selected_cols_sum w (columns w) []). reflexivity.
Qed.

Lemma same_cubes_board_ok (w' w : World) :
  same_cubes w' w -> board_ok w -> board_ok w'.
Proof.
  intros Hs Hb ci col i c Hc Hi.
  assert (Hd : deref w' (ci, i) = Some c) by (apply deref_Some; eauto).
  pose proof (Hs (ci, i)) as H. rewrite Hd in H. simpl in H.
  destruct (deref w (ci, i)) as [c0|] eqn:Hd0; [|discriminate].
  simpl in H. injection H as _ Hcol _.
  apply deref_Some in Hd0. destruct Hd0 as (col0 & Hc0 & Hi0).
  rewrite Hcol. apply (Hb ci col0 i c0 Hc0 Hi0).
Qed.

Lemma same_cubes_trans (w1 w2 w3 : World) :
  same_cubes w1 w2 -> same_cubes w2 w3 -> same_cubes w1 w3.
Proof. intros H1 H2 r. rewrite H1. apply H2. Qed.

Lemma same_cubes_update (r : CubeRef) (g : Cube -> Cube) (w : World) :
  (forall c, cube_key (g c) = cube_key c) ->
  same_cubes (update_cube r g w) w.
Proof.
  intros Hg r'. rewrite update_cube_deref.
  destruct (decide (r = r')); [|reflexivity].
  destruct (deref w r'); simpl; [rewrite Hg|]; reflexivity.
Qed.

Lemma total_checkTarget now w (post : unit -> World -> Prop) :
  planned_inv (plannedCubes w) -> board_ok w ->
  (forall w', same_cubes w' w -> planned_inv (plannedCubes w') ->
              queues w' = queues w -> post tt w') ->
  total (_checkTarget now) w post.
Proof.
  intros Hinv Hb Hpost.
  assert (Hsame : post tt w) by (apply Hpost; [intros r|..]; auto).
  unfold _checkTarget. apply total_bind, total_get.
  destruct (targets w) as [|t ts] eqn:Ht; [exact Hsame|].
  destruct (t =? 0); [exact Hsame|].
  destruct ((getSelectedSum w =? t)
            && (MIN_CUBES_FOR_SUM <=? length (getSelectedCubes w))%nat) eqn:Ec;
    [|exact Hsame].
  apply andb_true_iff in Ec. destruct Ec as [_ Hlen]. apply Nat.leb_le in Hlen.
  destruct (checkColumnClears_selected w Hb) as (n & Hclr & _).
  apply (total_onTargetMatch now w t ts _ n);
    [exact Ht|exact Hinv| |apply getSelectedCubes_valid|exact Hclr|].
  { intros E. rewrite E in Hlen. unfold MIN_CUBES_FOR_SUM in Hlen. simpl in Hlen. lia. }
  intros w' t' cfg _ _ _ _ Ecol Eq _ _ Hinv'.
  apply Hpost; [|exact Hinv'|exact Eq].
  intros r. rewrite (deref_columns_ext _ _ r Ecol), remove_matched_deref.
  destruct (deref w r) as [c|]; [|reflexivity]. simpl.
  destruct (is_matched c); reflexivity.
Qed.

Lemma total_toggle now ci ri w (post : unit -> World -> Prop) :
  planned_inv (plannedCubes w) -> board_ok w ->
  is_Some (columns w !! ci) ->
  (forall w', same_cubes w' w -> planned_inv (plannedCubes w') ->
              queues w' = queues w -> post tt w') ->
  total (toggleCubeSelection now ci ri) w post.
Proof.
  intros Hinv Hb [col Hcol] Hpost.
  assert (Hsame : post tt w) by (apply Hpost; [intros r|..]; auto).
  unfold toggleCubeSelection. apply total_bind, total_get. apply total_bind.
  eapply total_defined; [exact Hcol|].
  destruct (col !! ri) as [cube|]; [|exact Hsame].
  destruct (removing cube); [exact Hsame|].
  apply total_bind, total_modify.
  set (w1 := update_cube (ci, ri) _ w).
  assert (Hs1 : same_cubes w1 w) by (apply same_cubes_update; reflexivity).
  assert (Ef : off_board w1 = off_board w).
  { unfold w1, update_cube. simpl. rewrite Hcol. reflexivity. }
  apply total_checkTarget.
  - rewrite (f_equal plannedCubes Ef : plannedCubes w1 = plannedCubes w). exact Hinv.
  - exact (same_cubes_board_ok w1 w Hs1 Hb).
  - intros w' Hs' Hinv' Eq. apply Hpost; [|exact Hinv'|].
    + exact (same_cubes_trans _ _ _ Hs' Hs1).
    + rewrite Eq. exact (f_equal queues Ef).
Qed.

(** X21. A tap never fails and never moves a cube. On a board whose cubes
    record their column, and with well-formed planned cubes, [_handleTap]
    returns for every cell, on or off the board; afterwards every position
    holds a cube exactly when it did before, with the same value, column
    and row (only the selection and removal marks may have changed), the
    queues are untouched, and both facts about the board still hold. *)
Theorem handleTap_safe (now : Q) (colIndex clickRow : Z) (w : World) :
  planned_inv (plannedCubes w) -> board_ok w ->
  exists w',
    _handleTap now colIndex clickRow w = Ok (tt, w') /\
    same_cubes w' w /\ queues w' = queues w /\
    planned_inv (plannedCubes w') /\ board_ok w'.
Proof.
  intros Hinv Hb.
  apply (total_run_unit _ w (fun _ w' =>
    same_cubes w' w /\ queues w' = queues w /\
    planned_inv (plannedCubes w') /\ board_ok w')).
  assert (Hsame : same_cubes w w /\ queues w = queues w /\
                  planned_inv (plannedCubes w) /\ board_ok w).
  { split; [intros r; reflexivity|]. auto. }
  unfold _handleTap. apply total_bind, total_get.
  destruct ((colIndex <? 0) || (Z.of_nat NUM_COLUMNS <=? colIndex)); [exact Hsame|].
  destruct (columns w !! Z.to_nat colIndex) as [column|] eqn:Hcol; [|exact Hsame].
  destruct (length column =? 0)%nat; [exact Hsame|].
  destruct ((clickRow <? 0) || (Z.of_nat (length column) <=? clickRow));
    [exact Hsame|].
  destruct (column !! Z.to_nat clickRow) as [cube|]; [|exact Hsame].
  destruct (negb (removing cube) && negb (falling cube)); [|exact Hsame].
  apply total_toggle; [exact Hinv|exact Hb|rewrite Hcol; eauto|].
  intros w' Hs' Hinv' Eq. split; [exact Hs'|]. split; [exact Eq|].
  split; [exact Hinv'|]. exact (same_cubes_board_ok w' w Hs' Hb).
Qed.

Lemma handleTap_safe_witness :
  planned_inv (plannedCubes match20_world) /\ board_ok match20_world /\
  exists w',
    _handleTap 0%Q 0 1 match20_world = Ok (tt, w') /\
    same_cubes w' match20_world /\ queues w' = queues match20_world /\
    planned_inv (plannedCubes w') /\ board_ok w'.
Proof.
  assert (H1 : planned_inv (plannedCubes match20_world))
    by (split; [reflexivity|repeat constructor]).
  split; [exact H1|]. split; [exact match20_board_ok|].
  exact (handleTap_safe 0%Q 0 1 match20_world H1 match20_board_ok).
Defined.

Lemma checkTarget_no_match (now : Q) (w : World) :
  match_fires w = false -> _checkTarget now w = Ok (tt, w).
Proof.
  unfold match_fires, _checkTarget, bind, get_world.
  destruct (targets w) as [|t ts]; [reflexivity|].
  destruct (t =? 0); [reflexivity|]. simpl. intros ->. reflexivity.
Qed.

Lemma toggle_run (now : Q) (ci ri : nat) (w : World) col c :
  columns w !! ci = Some col -> col !! ri = Some c -> removing c = false ->
  toggleCubeSelection now ci ri w
  = _checkTarget now (update_cube (ci, ri) flip_selected w).
Proof.
  intros Hcol Hc Hr. unfold toggleCubeSelection, bind at 1, get_world at 1.
  unfold bind at 1. rewrite Hcol. simpl. rewrite Hc, Hr. reflexivity.
Qed.

Lemma flip_selected_twice (c : Cube) : flip_selected (flip_selected c) = c.
Proof. destruct c. unfold flip_selected. simpl. rewrite negb_involutive. reflexivity. Qed.

Lemma update_flip_twice (ci ri : nat) (w : World) :
  update_cube (ci, ri) flip_selected (update_cube (ci, ri) flip_selected w) = w.
Proof.
  unfold update_cube. simpl.
  destruct (columns w !! ci) as [col|] eqn:Hcol; simpl.
  - rewrite list_lookup_insert_eq by (eapply lookup_lt_Some; eauto).
    rewrite list_insert_insert_eq, list_alter_alter_eq.
    rewrite (list_alter_id _ col) by (intros x; apply flip_selected_twice).
    rewrite list_insert_id by exact Hcol. destruct w; reflexivity.
  - rewrite Hcol. reflexivity.
Qed.

(** X22. Tapping the same cube twice restores the game: when neither the
    board with the cube's selection flipped nor the board itself has a
    matching selection, two calls of [toggleCubeSelection] on a cube that is
    not being removed return and leave the whole state as it was. *)
Theorem toggle_twice_restores (now1 now2 : Q) (ci ri : nat) (w : World)
    (col : list Cube) (c : Cube) :
  columns w !! ci = Some col -> col !! ri = Some c -> removing c = false ->
  match_fires (update_cube (ci, ri) flip_selected w) = false ->
  match_fires w = false ->
  (toggleCubeSelection now1 ci ri ;; toggleCubeSelection now2 ci ri) w
  = Ok (tt, w).
Proof.
  intros Hcol Hc Hr Hm1 Hm. unfold bind.
  rewrite (toggle_run now1 ci ri w col c Hcol Hc Hr).
  rewrite (checkTarget_no_match now1 _ Hm1).
  assert (Hcol1 : columns (update_cube (ci, ri) flip_selected w) !! ci
                  = Some (alter flip_selected ri col)).
  { unfold update_cube. simpl. rewrite Hcol. simpl.
    apply list_lookup_insert_eq. eapply lookup_lt_Some; eauto. }
  assert (Hc1 : alter flip_selected ri col !! ri = Some (flip_selected c)).
  { rewrite list_lookup_alter_eq, Hc. reflexivity. }
  rewrite (toggle_run now2 ci ri _ _ _ Hcol1 Hc1 Hr).
  rewrite update_flip_twice. apply checkTarget_no_match, Hm.
Qed.

Lemma toggle_twice_restores_witness :
  columns falling_world !! 0%nat = Some [resting 2 0 0; dropping 4 0 1] /\
  [resting 2 0 0; dropping 4 0 1] !! 0%nat = Some (resting 2 0 0) /\
  removing (resting 2 0 0) = false /\
  match_fires (update_cube (0%nat, 0%nat) flip_selected falling_world) = false /\
  match_fires falling_world = false /\
  (toggleCubeSelection 0%Q 0 0 ;; toggleCubeSelection 1%Q 0 0) falling_world
  = Ok (tt, falling_world).
Proof.
  assert (H1 : columns falling_world !! 0%nat
               = Some [resting 2 0 0; dropping 4 0 1]) by reflexivity.
  assert (H2 : [resting 2 0 0; dropping 4 0 1] !! 0%nat = Some (resting 2 0 0))
    by reflexivity.
  assert (H3 : removing (resting 2 0 0) = false) by reflexivity.
  assert (H4 : match_fires (update_cube (0%nat, 0%nat) flip_selected falling_world)
               = false) by reflexivity.
  assert (H5 : match_fires falling_world = false) by reflexivity.
  split; [exact H1|]. split; [exact H2|]. split; [exact H3|].
  split; [exact H4|]. split; [exact H5|].
  exact (toggle_twice_restores 0%Q 1%Q 0 0 falling_world _ _ H1 H2 H3 H4 H5).
Defined.

(** ** game.js: settling and the combo timer *)

Lemma settle_from_idem (col : list Cube) : forall i,
  settle_from i (settle_from i col) = settle_from i col.
Proof.
  induction col as [|c col IH]; intros i; [reflexivity|].
  cbn [settle_from]. rewrite IH. f_equal.
  destruct (Z.eqb_spec (row c) (Z.of_nat i)) as [E|E].
  - rewrite E, Z.eqb_refl. reflexivity.
  - cbn [row set_row]. rewrite Z.eqb_refl. reflexivity.
Qed.

(** X23. [_settleColumn] is idempotent: settling a column a second time
    changes nothing more, and on a column that does not exist both the
    single and the double call fail alike. *)
Theorem settleColumn_idempotent (colIdx : nat) (w : World) :
  (_settleColumn colIdx ;; _settleColumn colIdx) w = _settleColumn colIdx w.
Proof.
  unfold _settleColumn, bind, get_world, modify.
  destruct (columns w !! colIdx) as [col|] eqn:Hcol; simpl; [|reflexivity].
  rewrite list_lookup_insert_eq by (eapply lookup_lt_Some; eauto). simpl.
  rewrite settle_from_idem, list_insert_insert_eq. reflexivity.
Qed.

(** X24. [_updateCombo] only ever clears the combo counter: it returns,
    writes no field but [comboCount], leaves the counter as it was or sets
    it to 0, and afterwards a positive counter means that the last match is
    at most [COMBO_TIMEOUT] old; a second call at the same time changes
    nothing. *)
Theorem updateCombo_expires (timestamp : Q) (w : World) :
  exists w',
    _updateCombo timestamp w = Ok (tt, w') /\
    w' = set_comboCount (comboCount w') w /\
    (comboCount w' = comboCount w \/ comboCount w' = 0) /\
    (0 < comboCount w' -> (timestamp - lastMatchTime w' <= COMBO_TIMEOUT)%Q) /\
    _updateCombo timestamp w' = Ok (tt, w').
Proof.
  unfold _updateCombo, bind, get_world, modify, ret.
  destruct (Z.ltb_spec 0 (comboCount w)) as [Hpos|Hneg]; simpl.
  - destruct (Qltb COMBO_TIMEOUT (timestamp - lastMatchTime w)) eqn:Eq.
    + eexists. split; [reflexivity|]. simpl. repeat split; auto. lia.
    + eexists. split; [reflexivity|]. repeat split; auto.
      * destruct w; reflexivity.
      * intros _. unfold Qltb in Eq. apply negb_false_iff in Eq.
        apply Qle_bool_iff in Eq. exact Eq.
      * destruct (Z.ltb_spec 0 (comboCount w)); [|lia]. simpl. rewrite Eq.
        reflexivity.
  - eexists. split; [reflexivity|]. repeat split; auto.
    + destruct w; reflexivity.
    + lia.
    + destruct (Z.ltb_spec 0 (comboCount w)); [lia|]. reflexivity.
Qed.

(** ** generator.js: cube values *)

(** X25. When nothing is planned for the column, [generateNextCubeValue]
    on an existing column returns a value between 1 and the level's
    [maxNumber], through the rescue or the balanced branch alike, and it
    leaves the planned cubes, the board, the queues and the targets as they
    were. *)
Theorem nextCube_adaptive_range (colIndex : nat) (w : World) (cfg : LevelConfig) :
  getLevelConfig (level w) = Some cfg ->
  (colIndex < length (columns w))%nat ->
  (forall v p, plannedCubes w !! colIndex <> Some (v :: p)) ->
  exists v w',
    generateNextCubeValue colIndex w = Ok (v, w') /\
    1 <= v <= maxNumber cfg /\
    plannedCubes w' = plannedCubes w /\ columns w' = columns w /\
    queues w' = queues w /\ targets w' = targets w.
Proof.
  intros Hcfg Hcol Hnone.
  destruct (getLevelConfig_bounds (level w)) as (c & Hc & Hn & _).
  assert (c = cfg) by congruence. subst c.
  apply (total_run _ w (fun v w' =>
    1 <= v <= maxNumber cfg /\
    plannedCubes w' = plannedCubes w /\ columns w' = columns w /\
    queues w' = queues w /\ targets w' = targets w)).
  assert (Hpost : forall v w', 1 <= v <= maxNumber cfg ->
            game_part w' = game_part w -> plannedCubes w' = plannedCubes w ->
            1 <= v <= maxNumber cfg /\
            plannedCubes w' = plannedCubes w /\ columns w' = columns w /\
            queues w' = queues w /\ targets w' = targets w).
  { intros v w' Hv Hg Hp. split; [exact Hv|]. split; [exact Hp|].
    split; [exact (f_equal columns Hg)|].
    split; [exact (f_equal queues Hg)|exact (f_equal targets Hg)]. }
  unfold generateNextCubeValue. apply total_bind, total_get.
  assert (Had : total (_generateAdaptiveCube colIndex (getLevelConfig (level w))) w
                  (fun v w' =>
                     1 <= v <= maxNumber cfg /\
                     plannedCubes w' = plannedCubes w /\ columns w' = columns w /\
                     queues w' = queues w /\ targets w' = targets w)).
  { unfold _generateAdaptiveCube. apply total_bind, total_get.
    destruct (lookup_lt_is_Some_2 _ _ Hcol) as [col Ecol].
    apply total_bind. eapply total_defined; [exact Ecol|].
    destruct (DANGER_HEIGHT <=? length col)%nat.
    - eapply total_helpful; [exact Hcfg|lia|exact Hpost].
    - eapply total_balanced; [exact Hcfg|lia|exact Hpost]. }
  destruct (plannedCubes w !! colIndex) as [[|v planned']|] eqn:Ep; try exact Had.
  exfalso. exact (Hnone v planned' eq_refl).
Qed.

Lemma nextCube_adaptive_range_witness :
  getLevelConfig (level zero_world) = Some (mkLevel 6 15 3000) /\
  (0 < length (columns zero_world))%nat /\
  (forall v p, plannedCubes zero_world !! 0%nat <> Some (v :: p)) /\
  exists v w',
    generateNextCubeValue 0 zero_world = Ok (v, w') /\
    1 <= v <= maxNumber (mkLevel 6 15 3000) /\
    plannedCubes w' = plannedCubes zero_world /\
    columns w' = columns zero_world /\
    queues w' = queues zero_world /\ targets w' = targets zero_world.
Proof.
  assert (H1 : getLevelConfig (level zero_world) = Some (mkLevel 6 15 3000))
    by reflexivity.
  assert (H2 : (0 < length (columns zero_world))%nat) by (simpl; lia).
  assert (H3 : forall v p, plannedCubes zero_world !! 0%nat <> Some (v :: p))
    by (intros v p H; discriminate H).
  split; [exact H1|]. split; [exact H2|]. split; [exact H3|].
  exact (nextCube_adaptive_range 0 zero_world _ H1 H2 H3).
Defined.

(** X26. [_weightedRandom] reads one draw and returns an index of
    [weights], for weights of any sign; on an empty list it returns -1. *)
Theorem weightedRandom_index (weights : list Z) (w : World) :
  exists idx,
    _weightedRandom weights w = Ok (idx, set_rnd_next (S (rnd_next w)) w) /\
    (weights = [] -> idx = -1) /\
    (weights <> [] -> 0 <= idx < Z.of_nat (length weights)).
Proof.
  unfold _weightedRandom, bind, Math_random, ret.
  eexists. split; [reflexivity|]. split.
  - intros ->. reflexivity.
  - intros Hne.
    assert (0 < Z.of_nat (length weights))
      by (destruct weights; [congruence|simpl; lia]).
    pose proof (weighted_scan_range weights 0
                  (rand_val (rnd_source w (rnd_next w)) * inject_Z (sum_list weights))%Q
                  (Z.of_nat (length weights) - 1)) as H'.
    lia.
Qed.

Lemma distribution_tally (l : list Cube) (o : list (Z * Z)) :
  fold_left (fun dist c => obj_incr (value c) dist) l o = tally (value <$> l) o.
Proof.
  revert o. induction l as [|c l IH]; intros o; [reflexivity|].
  simpl. rewrite IH. reflexivity.
Qed.

(** X27. [_getNumberDistribution] counts every cube of the board once,
    those being removed included: the entry read for a value is the number
    of cubes that carry it, and a value without an entry reads as 0. *)
Theorem getNumberDistribution_counts (w : World) (k : Z) :
  default 0 (obj_get k (_getNumberDistribution w))
  = Z.of_nat (length (filter (fun c => value c = k) (concat (columns w)))).
Proof.
  unfold _getNumberDistribution. rewrite distribution_tally.
  assert (Hnil : tally_ok []) by (split; constructor).
  destruct (tally_spec (value <$> concat (columns w)) [] Hnil) as [_ Hget].
  rewrite Hget. simpl.
  generalize (concat (columns w)). intros l.
  induction l as [|c l IH]; [reflexivity|].
  rewrite fmap_cons, !filter_cons.
  destruct (decide (value c = k)); [|exact IH].
  cbn [length]. lia.
Qed.

(** X28. [_generateFallbackTarget] for the level's own configuration, in a
    world with well-formed planned cubes: it returns, plans values whose
    sum lies between 2 and three times [maxNumber], and returns that sum
    clamped into [[MIN_TARGET, maxTarget]]; the target is the planned sum
    itself exactly when that sum lies in the range. The planned cubes stay
    well formed, and the board, the queues, the targets and the score are
    not touched. *)
Theorem fallback_plans_clamped_sum (w : World) (c : LevelConfig) :
  getLevelConfig (level w) = Some c ->
  planned_inv (plannedCubes w) ->
  exists t w',
    _generateFallbackTarget (Some c) w = Ok (t, w') /\
    t = clamp (sum_list (concat (plannedCubes w')) -
               sum_list (concat (plannedCubes w)))
              MIN_TARGET (maxTarget c) /\
    2 <= sum_list (concat (plannedCubes w')) -
         sum_list (concat (plannedCubes w)) <= 3 * maxNumber c /\
    MIN_TARGET <= t <= maxTarget c /\
    (t = sum_list (concat (plannedCubes w')) - sum_list (concat (plannedCubes w))
     <-> MIN_TARGET <= sum_list (concat (plannedCubes w')) -
                       sum_list (concat (plannedCubes w)) <= maxTarget c) /\
    planned_inv (plannedCubes w') /\
    columns w' = columns w /\ queues w' = queues w /\
    targets w' = targets w /\ score w' = score w.
Proof.
  intros Hcfg Hinv.
  destruct (getLevelConfig_bounds (level w)) as (c' & Hc' & Hn & Ht).
  assert (c' = c) by congruence. subst c'.
  apply total_run.
  eapply total_fallback; [reflexivity|lia|exact Hinv|].
  intros t w' Hg Hinv' Et Hsum.
  split; [exact Et|]. split; [exact Hsum|].
  assert (Hrange : MIN_TARGET <= t <= maxTarget c)
    by (rewrite Et; unfold clamp, MIN_TARGET; lia).
  split; [exact Hrange|]. split.
  { rewrite Et. unfold clamp, MIN_TARGET. lia. }
  split; [exact Hinv'|].
  split; [exact (f_equal columns Hg)|]. split; [exact (f_equal queues Hg)|].
  split; [exact (f_equal targets Hg)|exact (f_equal score Hg)].
Qed.

Lemma fallback_plans_clamped_sum_witness :
  getLevelConfig (level zero_world) = Some (mkLevel 6 15 3000) /\
  planned_inv (plannedCubes zero_world) /\
  exists t w',
    _generateFallbackTarget (Some (mkLevel 6 15 3000)) zero_world = Ok (t, w') /\
    t = clamp (sum_list (concat (plannedCubes w')) -
               sum_list (concat (plannedCubes zero_world)))
              MIN_TARGET (maxTarget (mkLevel 6 15 3000)) /\
    2 <= sum_list (concat (plannedCubes w')) -
         sum_list (concat (plannedCubes zero_world))
      <= 3 * maxNumber (mkLevel 6 15 3000) /\
    MIN_TARGET <= t <= maxTarget (mkLevel 6 15 3000) /\
    (t = sum_list (concat (plannedCubes w')) -
         sum_list (concat (plannedCubes zero_world))
     <-> MIN_TARGET <= sum_list (concat (plannedCubes w')) -
                       sum_list (concat (plannedCubes zero_world))
                    <= maxTarget (mkLevel 6 15 3000)) /\
    planned_inv (plannedCubes w') /\
    columns w' = columns zero_world /\ queues w' = queues zero_world /\
    targets w' = targets zero_world /\ score w' = score zero_world.
Proof.
  assert (H1 : getLevelConfig (level zero_world) = Some (mkLevel 6 15 3000))
    by reflexivity.
  assert (H2 : planned_inv (plannedCubes zero_world))
    by (split; [reflexivity|repeat constructor]).
  split; [exact H1|]. split; [exact H2|].
  exact (fallback_plans_clamped_sum zero_world _ H1 H2).
Defined.

(** ** storage.js: records and achievements *)

Lemma ach_get_set_same key v o :
  is_Some (ach_get key o) -> ach_get key (ach_set key v o) = Some v.
Proof.
  induction o as [|[k x] o IH]; simpl; intros [b Hb]; [discriminate|].
  destruct (String.eqb k key) eqn:E; simpl; rewrite E; [reflexivity|].
  apply IH. eauto.
Qed.

Lemma ach_get_set_other key k' v o :
  k' <> key -> ach_get k' (ach_set key v o) = ach_get k' o.
Proof.
  intros Hne. induction o as [|[k x] o IH]; simpl; [reflexivity|].
  destruct (String.eqb k key) eqn:E; simpl.
  - apply String.eqb_eq in E. subst k.
    destruct (String.eqb key k') eqn:E'; [|reflexivity].
    apply String.eqb_eq in E'. congruence.
  - rewrite IH. reflexivity.
Qed.

Lemma ach_set_keys key v o : fst <$> ach_set key v o = fst <$> o.
Proof.
  induction o as [|[k x] o IH]; simpl; [reflexivity|].
  destruct (String.eqb k key); simpl; [reflexivity|]. f_equal. exact IH.
Qed.

Lemma unlockAchievement_spec key d :
  (fst (unlockAchievement key d) = true <->
   ach_get key (achievements d) = Some false) /\
  (is_Some (ach_get key (achievements d)) ->
   ach_get key (achievements (snd (unlockAchievement key d))) = Some true) /\
  (forall k, k <> key ->
     ach_get k (achievements (snd (unlockAchievement key d)))
     = ach_get k (achievements d)) /\
  fst <$> achievements (snd (unlockAchievement key d)) = fst <$> achievements d /\
  set_achievements [] (snd (unlockAchievement key d)) = set_achievements [] d.
Proof.
  unfold unlockAchievement.
  destruct (ach_get key (achievements d)) as [[|]|] eqn:E; simpl.
  - split; [split; discriminate|]. split; [intros _; exact E|]. auto.
  - split; [split; reflexivity|].
    split; [intros _; apply ach_get_set_same; rewrite E; eauto|].
    split; [intros k Hk; apply ach_get_set_other, Hk|].
    split; [apply ach_set_keys|reflexivity].
  - split; [split; discriminate|].
    split; [intros [b Hb]; discriminate|]. auto.
Qed.

(** X29. [unlockAchievement(key)] reports an achievement at most once: it
    returns true exactly when the key is present with the value false; a
    key that is present reads true afterwards; every other key, the list of
    keys and the records are untouched (an unknown key is never created);
    and a second call for the same key returns false and changes
    nothing. *)
Theorem unlockAchievement_once (key : String.string) (d : StorageData) :
  (fst (unlockAchievement key d) = true <->
   ach_get key (achievements d) = Some false) /\
  (is_Some (ach_get key (achievements d)) ->
   ach_get key (achievements (snd (unlockAchievement key d))) = Some true) /\
  (forall k, k <> key ->
     ach_get k (achievements (snd (unlockAchievement key d)))
     = ach_get k (achievements d)) /\
  fst <$> achievements (snd (unlockAchievement key d)) = fst <$> achievements d /\
  set_achievements [] (snd (unlockAchievement key d)) = set_achievements [] d /\
  unlockAchievement key (snd (unlockAchievement key d))
  = (false, snd (unlockAchievement key d)).
Proof.
  destruct (unlockAchievement_spec key d) as (H1 & H2 & H3 & H4 & H5).
  repeat (split; [assumption|]).
  unfold unlockAchievement at 1.
  destruct (ach_get key (achievements d)) as [b|] eqn:E.
  - rewrite H2 by eauto. reflexivity.
  - unfold unlockAchievement. rewrite E. simpl. rewrite E. reflexivity.
Qed.

Lemma unlock_keeps_true key k d :
  ach_get k (achievements d) = Some true ->
  ach_get k (achievements (snd (unlockAchievement key d))) = Some true.
Proof.
  intros Hk. destruct (unlockAchievement_spec key d) as (_ & H2 & H3 & _).
  destruct (String.eqb key k) eqn:E.
  - apply String.eqb_eq in E. subst k. apply H2. eauto.
  - rewrite H3; [exact Hk|]. intros ->. rewrite String.eqb_refl in E. discriminate.
Qed.

Lemma unlock_if_keeps (c : bool) key d :
  set_achievements [] (if c then snd (unlockAchievement key d) else d)
  = set_achievements [] d /\
  fst <$> achievements (if c then snd (unlockAchievement key d) else d)
  = fst <$> achievements d /\
  (forall k, ach_get k (achievements d) = Some true ->
     ach_get k (achievements (if c then snd (unlockAchievement key d) else d))
     = Some true) /\
  (forall k, k <> key ->
     ach_get k (achievements (if c then snd (unlockAchievement key d) else d))
     = ach_get k (achievements d)).
Proof.
  destruct (unlockAchievement_spec key d) as (_ & _ & H3 & H4 & H5).
  destruct c; repeat split; auto. intros k. apply unlock_keeps_true.
Qed.

(** X30. The bookkeeping of a finished game (the storage calls of
    [gameOver()]) never lowers a record: afterwards [highScore] is the
    larger of the old record and the score, and [isNewRecord] tells whether
    the score was strictly above the old record; [totalGames] has grown by
    one and [totalScore] by the score; [bestLevel] and [bestCombo] are the
    larger of old and new. The achievements keep their keys, none that was
    obtained is lost, and with a score of 1000 or more ['score1000'], when
    the object has it, reads true. *)
Theorem storage_gameOver_records (sc lvl combo : Z) (d : StorageData) :
  let r := storage_gameOver sc lvl combo d in
  highScore (snd r) = Z.max (highScore d) sc /\
  (fst r = true <-> highScore d < sc) /\
  totalGames (snd r) = totalGames d + 1 /\
  totalScore (snd r) = totalScore d + sc /\
  bestLevel (snd r) = Z.max (bestLevel d) lvl /\
  bestCombo (snd r) = Z.max (bestCombo d) combo /\
  fst <$> achievements (snd r) = fst <$> achievements d /\
  (forall k, ach_get k (achievements d) = Some true ->
             ach_get k (achievements (snd r)) = Some true) /\
  (1000 <= sc ->
   is_Some (ach_get "score1000"%string (achievements d)) ->
   ach_get "score1000"%string (achievements (snd r)) = Some true).
Proof.
  unfold storage_gameOver.
  destruct (updateHighScore sc d) as [isNew d1] eqn:E1.
  set (d2 := recordGame sc lvl combo d1).
  set (d3 := if 1000 <=? sc then snd (unlockAchievement "score1000"%string d2)
             else d2).
  set (d4 := if 5000 <=? sc then snd (unlockAchievement "score5000"%string d3)
             else d3).
  set (d5 := if 10000 <=? sc then snd (unlockAchievement "score10000"%string d4)
             else d4).
  cbn [fst snd].
  destruct (unlock_if_keeps (1000 <=? sc) "score1000"%string d2)
    as (F3 & K3 & T3 & O3). fold d3 in F3, K3, T3, O3.
  destruct (unlock_if_keeps (5000 <=? sc) "score5000"%string d3)
    as (F4 & K4 & T4 & O4). fold d4 in F4, K4, T4, O4.
  destruct (unlock_if_keeps (10000 <=? sc) "score10000"%string d4)
    as (F5 & K5 & T5 & O5). fold d5 in F5, K5, T5, O5.
  assert (F : set_achievements [] d5 = set_achievements [] d2)
    by (rewrite F5, F4, F3; reflexivity).
  assert (A1 : achievements d2 = achievements d /\
               highScore d2 = Z.max (highScore d) sc /\
               (isNew = true <-> highScore d < sc) /\
               totalGames d2 = totalGames d + 1 /\
               totalScore d2 = totalScore d + sc /\
               bestLevel d2 = Z.max (bestLevel d) lvl /\
               bestCombo d2 = Z.max (bestCombo d) combo).
  { unfold d2, recordGame. unfold updateHighScore in E1.
    destruct (Z.ltb_spec (highScore d) sc) as [Hlt|Hge];
      injection E1 as <- <-; simpl;
      destruct (Z.ltb_spec (bestLevel d) lvl);
      destruct (Z.ltb_spec (bestCombo d) combo);
      repeat split; try lia; try discriminate; auto. }
  destruct A1 as (Ea & Eh & Hn & Eg & Es & El & Ec).
  split; [rewrite <- Eh; exact (f_equal highScore F)|].
  split; [exact Hn|].
  split; [rewrite <- Eg; exact (f_equal totalGames F)|].
  split; [rewrite <- Es; exact (f_equal totalScore F)|].
  split; [rewrite <- El; exact (f_equal bestLevel F)|].
  split; [rewrite <- Ec; exact (f_equal bestCombo F)|].
  split; [rewrite K5, K4, K3, Ea; reflexivity|].
  split.
  - intros k Hk. apply T5, T4, T3. rewrite Ea. exact Hk.
  - intros Hsc Hpresent. apply T5, T4. unfold d3.
    destruct (Z.leb_spec 1000 sc); [|lia].
    destruct (unlockAchievement_spec "score1000"%string d2) as (_ & H2 & _).
    apply H2. rewrite Ea. exact Hpresent.
Qed.
